(** * WaveSpeedAI/client-python: the example scripts

    A shallow embedding of the three scripts under [examples/]
    ([generate_image.py], [async_generate_image.py] and
    [async_create_generate_image.py]) together with the parts of their
    environment they rely on: Python's [argparse] (CPython 3.11, restricted to
    what the scripts use: optional arguments with the [store], [store_true]
    and [help] actions) and the [wavespeed.client] library, whose calls are
    opaque to the scripts and appear here as a record of possible behaviours.
    The job lifecycle that the specification prescribes for that library is
    modelled apart, in [Module JobSpec]. *)

From Stdlib Require Import ZArith String Ascii List Bool Lia.
From Stdlib Require Import Floats.PrimFloat.
From stdpp Require Import base option list strings gmap fin_maps.


Local Open Scope Z_scope.

(** ** Python values *)

(** The values that end up in an argparse [Namespace] or in the [input]
    dictionary of a request.  [VEmptyList] is the [[]] that argparse stores
    for [--opt=--]. *)
Inductive value :=
  | VNone
  | VBool (b : bool)
  | VInt (z : Z)
  | VFloat (f : float)
  | VStr (s : string)
  | VEmptyList.

(** Python truthiness ([if x:], [not x]).  A float is false exactly when it
    compares equal to zero, so a NaN is true. *)
Definition truthy (v : value) : bool :=
  match v with
  | VNone => false
  | VBool b => b
  | VInt z => negb (z =? 0)
  | VFloat f => negb (PrimFloat.eqb f 0%float)
  | VStr s => negb (String.eqb s "")
  | VEmptyList => false
  end.

(** [x in l] / [x not in l] for a list of strings. *)
Definition str_in (x : string) (l : list string) : bool :=
  existsb (String.eqb x) l.

(** ** argparse *)

Module Argparse.

(** What an action does with its argument: [store] converts it with the
    [type=] callable ([None]: the callable raised), [store_true] takes no
    argument and stores the constant [True], [help] prints and exits. *)
Inductive action_kind :=
  | Store (type : string → option value)
  | StoreTrue
  | Help.

(** [dest] and [default] are [None] for argparse's [SUPPRESS]. *)
Record Action := {
  option_strings : list string;
  dest : option string;
  kind : action_kind;
  default : option value;
  required : bool
}.

(** Number of argument strings of an optional: [nargs=None] is one,
    [nargs=0] for the constant-storing and help actions. *)
Definition nargs (a : Action) : nat :=
  match kind a with Store _ => 1%nat | _ => 0%nat end.

(** Option strings never clash between actions (argparse refuses to add a
    conflicting one), so the first one identifies the action. *)
Definition action_name (a : Action) : string := hd "" (option_strings a).

(** [ArgumentParser(...)]: a new parser has the [-h/--help] action. *)
Definition ArgumentParser : list Action :=
  [ {| option_strings := ["-h"; "--help"]; dest := None; kind := Help;
       default := None; required := false |} ].

Fixpoint lstrip_dash (s : string) : string :=
  match s with
  | String "-" t => lstrip_dash t
  | _ => s
  end.

Fixpoint replace_dash (s : string) : string :=
  match s with
  | "" => ""
  | String c t => String (if Ascii.eqb c "-" then "_"%char else c) (replace_dash t)
  end.

(** [dest] inferred from a long option string:
    [option_string.lstrip('-').replace('-', '_')]. *)
Definition dest_of (option_string : string) : string :=
  replace_dash (lstrip_dash option_string).

(** [parser.add_argument(name, action/type, default=, required=)] for one
    long option string. *)
Definition add_argument (name : string) (k : action_kind) (dflt : value)
    (req : bool) (parser : list Action) : list Action :=
  parser ++ [ {| option_strings := [name]; dest := Some (dest_of name);
                 kind := k; default := Some dflt; required := req |} ].

(** [parser._option_string_actions], in insertion order. *)
Definition option_string_actions (parser : list Action) : list (string * Action) :=
  flat_map (λ a, map (λ o, (o, a)) (option_strings a)) parser.

Fixpoint assoc (k : string) (l : list (string * Action)) : option Action :=
  match l with
  | [] => None
  | (k', a) :: l' => if String.eqb k k' then Some a else assoc k l'
  end.

(** [s.split('=', 1)] when ['=' in s]. *)
Fixpoint split_eq (s : string) : option (string * string) :=
  match s with
  | "" => None
  | String c t =>
      if Ascii.eqb c "=" then Some ("", t)
      else match split_eq t with
           | Some (a, b) => Some (String c a, b)
           | None => None
           end
  end.

Fixpoint contains (c : ascii) (s : string) : bool :=
  match s with
  | "" => false
  | String c' t => Ascii.eqb c c' || contains c t
  end.

(** Argument strings are held as the bytes of their UTF-8 encoding, which
    is how they reach [sys.argv].  [continuation c]: the six bits of a
    continuation byte. *)
Definition continuation (c : ascii) : option N :=
  let b := N_of_ascii c in
  if (128 <=? b)%N && (b <? 192)%N then Some (b - 128)%N else None.

(** The first code point of a string and what follows it; [None] at the
    end of the string and on bytes that are no UTF-8 (a stray continuation
    byte, a truncated or overlong sequence, a surrogate, a value beyond
    U+10FFFF). *)
Definition decode_char (s : string) : option (N * string) :=
  match s with
  | "" => None
  | String c0 t =>
      let b0 := N_of_ascii c0 in
      if (b0 <? 128)%N then Some (b0, t)
      else if (b0 <? 192)%N then None
      else if (b0 <? 224)%N then
        match t with
        | String c1 t1 =>
            match continuation c1 with
            | Some x1 =>
                let cp := ((b0 - 192) * 64 + x1)%N in
                if (128 <=? cp)%N then Some (cp, t1) else None
            | None => None
            end
        | _ => None
        end
      else if (b0 <? 240)%N then
        match t with
        | String c1 (String c2 t2) =>
            match continuation c1, continuation c2 with
            | Some x1, Some x2 =>
                let cp := (((b0 - 224) * 64 + x1) * 64 + x2)%N in
                if (2048 <=? cp)%N && negb ((55296 <=? cp)%N && (cp <=? 57343)%N)
                then Some (cp, t2) else None
            | _, _ => None
            end
        | _ => None
        end
      else if (b0 <? 248)%N then
        match t with
        | String c1 (String c2 (String c3 t3)) =>
            match continuation c1, continuation c2, continuation c3 with
            | Some x1, Some x2, Some x3 =>
                let cp := ((((b0 - 240) * 64 + x1) * 64 + x2) * 64 + x3)%N in
                if (65536 <=? cp)%N && (cp <=? 1114111)%N
                then Some (cp, t3) else None
            | _, _, _ => None
            end
        | _ => None
        end
      else None
  end.

(** The code points of a string.  A byte that is no UTF-8 stands for the
    lone surrogate U+DC00 + byte, as [surrogateescape] decodes it.  Every
    step takes at least one byte, so [fuel] is the length of the string. *)
Fixpoint code_points_upto (fuel : nat) (s : string) : list N :=
  match fuel with
  | O => []
  | S fuel' =>
      match s with
      | "" => []
      | String c t =>
          match decode_char s with
          | Some (cp, rest) => cp :: code_points_upto fuel' rest
          | None => (56320 + N_of_ascii c)%N :: code_points_upto fuel' t
          end
      end
  end.

Definition code_points (s : string) : list N :=
  code_points_upto (String.length s) s.

(** The digit zero of each decimal number system of Unicode 14.0, the
    version of Python 3.11: the ten digits of a system are consecutive. *)
Definition decimal_zeros : list N :=
  [ 48; 1632; 1776; 1984; 2406; 2534; 2662; 2790; 2918; 3046; 3174; 3302;
    3430; 3558; 3664; 3792; 3872; 4160; 4240; 6112; 6160; 6470; 6608; 6784;
    6800; 6992; 7088; 7232; 7248; 42528; 43216; 43264; 43472; 43504; 43600;
    44016; 65296; 66720; 68912; 69734; 69872; 69942; 70096; 70384; 70736;
    70864; 71248; 71360; 71472; 71904; 72016; 72784; 73040; 73120; 92768;
    92864; 93008; 120782; 120792; 120802; 120812; 120822; 123200; 123632;
    125264; 130032 ]%N.

(** [\d] of a [str] pattern: a Unicode decimal digit. *)
Definition is_decimal (cp : N) : bool :=
  existsb (λ z, (z <=? cp)%N && (cp <? z + 10)%N) decimal_zeros.

(** [$]: the end of the string, or just before a newline that ends it. *)
Definition at_end (l : list N) : bool :=
  match l with
  | [] => true
  | [cp] => (cp =? 10)%N
  | _ => false
  end.

(** [\d*$] *)
Fixpoint digits_end (l : list N) : bool :=
  at_end l ||
  match l with
  | cp :: t => is_decimal cp && digits_end t
  | [] => false
  end.

(** [\d+$] *)
Definition some_digits_end (l : list N) : bool :=
  match l with
  | cp :: t => is_decimal cp && digits_end t
  | [] => false
  end.

(** [\d*\.\d+$] *)
Fixpoint digits_dot_digits (l : list N) : bool :=
  match l with
  | [] => false
  | cp :: t =>
      ((cp =? 46)%N && some_digits_end t) || (is_decimal cp && digits_dot_digits t)
  end.

(** [_negative_number_matcher.match]: the pattern [^-\d+$|^-\d*\.\d+$]. *)
Definition negative_number (s : string) : bool :=
  match code_points s with
  | cp :: t => (cp =? 45)%N && (some_digits_end t || digits_dot_digits t)
  | [] => false
  end.

Definition second_is_dash (s : string) : bool :=
  match s with
  | String _ (String "-" _) => true
  | _ => false
  end.

(** An option tuple [(action, option_string, explicit_arg)]. *)
Definition option_tuple : Type := Action * string * option string.

(** [_get_option_tuples]: the abbreviations and the single-dash forms an
    argument string may stand for. *)
Definition get_option_tuples (parser : list Action) (arg_string : string)
    : list option_tuple :=
  if second_is_dash arg_string then
    let '(option_prefix, explicit_arg) :=
      match split_eq arg_string with
      | Some (p, e) => (p, Some e)
      | None => (arg_string, None)
      end in
    omap (λ '(o, a),
            if String.prefix option_prefix o then Some (a, o, explicit_arg)
            else None)
         (option_string_actions parser)
  else
    let short_option_prefix := substring 0 2 arg_string in
    let short_explicit_arg :=
      substring 2 (String.length arg_string - 2) arg_string in
    omap (λ '(o, a),
            if String.eqb o short_option_prefix
            then Some (a, o, Some short_explicit_arg)
            else if String.prefix arg_string o then Some (a, o, None)
            else None)
         (option_string_actions parser).

(** The outcome of [_parse_optional] on one argument string. *)
Inductive arg_class :=
  | Positional                             (* returns None: an 'A' *)
  | Optional (a : Action) (option_string : string) (explicit_arg : option string)
  | Unknown                                (* (None, arg_string, None) *)
  | Ambiguous.                             (* self.error(...) *)

Definition parse_optional (parser : list Action) (arg_string : string) : arg_class :=
  match arg_string with
  | "" => Positional
  | String c0 _ =>
      if negb (Ascii.eqb c0 "-") then Positional
      else match assoc arg_string (option_string_actions parser) with
      | Some a => Optional a arg_string None
      | None =>
          if (String.length arg_string =? 1)%nat then Positional
          else
            let by_eq :=
              match split_eq arg_string with
              | Some (o, e) =>
                  match assoc o (option_string_actions parser) with
                  | Some a => Some (Optional a o (Some e))
                  | None => None
                  end
              | None => None
              end in
            match by_eq with
            | Some r => r
            | None =>
                match get_option_tuples parser arg_string with
                | _ :: _ :: _ => Ambiguous
                | [(a, o, e)] => Optional a o e
                | [] =>
                    if negative_number arg_string then Positional
                    else if contains " " arg_string then Positional
                    else Unknown
                end
            end
      end
  end.

(** One entry of [arg_strings_pattern], with its argument string. *)
Inductive pattern :=
  | PA (arg_string : string)               (* 'A' *)
  | PDash                                  (* '-': the "--" separator *)
  | PO (arg_string : string) (c : arg_class).   (* 'O' *)

(** First pass of [_parse_known_args]: classify every argument string;
    everything after a ["--"] is an argument.  [None] when
    [_parse_optional] reported an ambiguous option. *)
Fixpoint classify (parser : list Action) (arg_strings : list string)
    : option (list pattern) :=
  match arg_strings with
  | [] => Some []
  | s :: rest =>
      if String.eqb s "--" then Some (PDash :: map PA rest)
      else match parse_optional parser s with
           | Ambiguous => None
           | Positional => cons (PA s) <$> classify parser rest
           | c => cons (PO s c) <$> classify parser rest
           end
  end.

(** How [parse_args] ends: with a namespace, or inside [parser.exit]. *)
Inductive parse_result :=
  | Parsed (args : gmap string value)
  | ParserExit (status : Z).

(** The state of the second pass. *)
Record pstate := {
  namespace : gmap string value;
  seen_actions : gset string;
  extras : list string
}.

Definition add_extra (s : string) (st : pstate) : pstate :=
  {| namespace := namespace st; seen_actions := seen_actions st;
     extras := extras st ++ [s] |}.

Definition setattr (d : string) (v : value) (st : pstate) : pstate :=
  {| namespace := <[d := v]> (namespace st); seen_actions := seen_actions st;
     extras := extras st |}.

Definition mark_seen (a : Action) (st : pstate) : pstate :=
  {| namespace := namespace st;
     seen_actions := {[ action_name a ]} ∪ seen_actions st;
     extras := extras st |}.

(** [_get_values] for the three actions: a [store] converts its single
    string with [type], except that a ["--"] is stripped first, which
    leaves the empty list; the other actions receive no strings.
    [None]: [ArgumentError]. *)
Definition get_values (a : Action) (arg_strings : list string) : option value :=
  match kind a, arg_strings with
  | Store type, [s] => if String.eqb s "--" then Some VEmptyList else type s
  | _, _ => Some VEmptyList
  end.

(** [take_action]: mark the action as seen, convert, and call it.
    [inr status]: the parser exits. *)
Definition take_action (st : pstate) (a : Action) (arg_strings : list string)
    : pstate + Z :=
  let st := mark_seen a st in
  match get_values a arg_strings with
  | None => inr 2
  | Some v =>
      match kind a, dest a with
      | Help, _ => inr 0
      | Store _, Some d => inl (setattr d v st)
      | StoreTrue, Some d => inl (setattr d (VBool true) st)
      | _, None => inl st
      end
  end.

Fixpoint take_actions (st : pstate) (tuples : list (Action * list string))
    : pstate + Z :=
  match tuples with
  | [] => inl st
  | (a, args) :: rest =>
      match take_action st a args with
      | inl st' => take_actions st' rest
      | inr status => inr status
      end
  end.

(** [consume_optional] without an explicit argument: match the action's
    [nargs] against the strings that follow.  The boolean tells whether the
    next string was taken; [None] is "expected one argument". *)
Definition match_following (a : Action) (rest : list pattern)
    : option (list string * bool) :=
  match nargs a, rest with
  | O, _ => Some ([], false)
  | _, PA s :: _ => Some ([s], true)
  | _, _ => None
  end.

(** [consume_optional] with an explicit argument ([--opt=arg], [-oarg]):
    a one-argument action takes it; an action without arguments behind a
    single dash reads the rest as further single-dash options; otherwise
    the explicit argument is an error.  Returns the action tuples and
    whether the next string was taken, [None] on [ArgumentError]. *)
Fixpoint consume_explicit (parser : list Action) (a : Action)
    (option_string : string) (explicit_arg : string) (rest : list pattern)
    (acc : list (Action * list string))
    : option (list (Action * list string) * bool) :=
  match nargs a with
  | O =>
      match explicit_arg with
      | String c tail =>
          if second_is_dash option_string then None
          else
            let option_string' := String "-" (String c "") in
            match assoc option_string' (option_string_actions parser) with
            | Some a' =>
                match tail with
                | "" =>
                    match match_following a' rest with
                    | Some (args, took) =>
                        Some (acc ++ [(a, []); (a', args)], took)
                    | None => None
                    end
                | _ => consume_explicit parser a' option_string' tail rest
                         (acc ++ [(a, [])])
                end
            | None => None
            end
      | "" => None
      end
  | _ => Some (acc ++ [(a, [explicit_arg])], false)
  end.

Definition consume_optional (parser : list Action) (a : Action)
    (option_string : string) (explicit_arg : option string)
    (rest : list pattern) : option (list (Action * list string) * bool) :=
  match explicit_arg with
  | Some e => consume_explicit parser a option_string e rest []
  | None =>
      match match_following a rest with
      | Some (args, took) => Some ([(a, args)], took)
      | None => None
      end
  end.

(** Second pass: consume the optionals from left to right.  The scripts
    declare no positional argument, so every string that no option takes
    goes to [extras], as does an option string that names no action. *)
Fixpoint consume (parser : list Action) (st : pstate) (pats : list pattern)
    : pstate + Z :=
  match pats with
  | [] => inl st
  | PA s :: rest => consume parser (add_extra s st) rest
  | PDash :: rest => consume parser (add_extra "--" st) rest
  | PO s (Optional a o explicit_arg) :: rest =>
      match consume_optional parser a o explicit_arg rest with
      | None => inr 2
      | Some (tuples, took) =>
          match take_actions st tuples with
          | inr status => inr status
          | inl st' =>
              match took, rest with
              | true, _ :: rest' => consume parser st' rest'
              | _, _ => consume parser st' rest
              end
          end
      end
  | PO s _ :: rest => consume parser (add_extra s st) rest
  end.

(** The namespace before parsing: every action's default under its
    [dest], the first action of a [dest] winning. *)
Definition default_namespace (parser : list Action) : gmap string value :=
  fold_left
    (λ ns a,
       match dest a, default a with
       | Some d, Some v =>
           match ns !! d with Some _ => ns | None => <[d := v]> ns end
       | _, _ => ns
       end)
    parser ∅.

(** The closing loop of [_parse_known_args] over the actions that were not
    seen: a required one is reported, a string default is converted with
    the action's [type] (here only [store] actions have string defaults, and
    no two actions share a [dest], so the namespace still holds the
    default).  [None]: the conversion raised [ArgumentError]. *)
Fixpoint check_unseen (actions : list Action) (st : pstate)
    (required_actions : list string) : option (pstate * list string) :=
  match actions with
  | [] => Some (st, required_actions)
  | a :: rest =>
      if decide (action_name a ∈ seen_actions st)
      then check_unseen rest st required_actions
      else if required a
      then check_unseen rest st (required_actions ++ [action_name a])
      else match kind a, default a, dest a with
           | Store type, Some (VStr s), Some d =>
               match type s with
               | Some v => check_unseen rest (setattr d v st) required_actions
               | None => None
               end
           | _, _, _ => check_unseen rest st required_actions
           end
  end.

(** [parser.parse_args(arg_strings)]: every [self.error] exits with
    status 2, the help action with status 0. *)
Definition parse_args (parser : list Action) (arg_strings : list string)
    : parse_result :=
  match classify parser arg_strings with
  | None => ParserExit 2
  | Some pats =>
      let st0 := {| namespace := default_namespace parser;
                    seen_actions := ∅; extras := [] |} in
      match consume parser st0 pats with
      | inr status => ParserExit status
      | inl st =>
          match check_unseen parser st [] with
          | None => ParserExit 2
          | Some (st', required_actions) =>
              match required_actions, extras st' with
              | [], [] => Parsed (namespace st')
              | _, _ => ParserExit 2
              end
          end
      end
  end.

End Argparse.

(** ** Exceptions, predictions and observable events *)

(** A raised Python exception.  [is_Exception] tells whether it derives from
    [Exception] (and is caught by [except Exception]) or only from
    [BaseException], as [KeyboardInterrupt] and [asyncio.CancelledError]
    do.  [sys.exit] is kept apart, see [result]. *)
Record exn := { is_Exception : bool; exn_str : string }.

(** The [AttributeError] of an [argparse.Namespace] that lacks the
    attribute [name]; [exn_str] is the text that [str(e)] gives. *)
Definition AttributeError (name : string) : exn :=
  {| is_Exception := true;
     exn_str := String.append "'Namespace' object has no attribute '"
                  (String.append name "'") |}.

(** The fields of a [wavespeed] prediction object that the scripts read.
    [outputs] is the list of image URLs ([[]] also stands for a missing
    list: both are false in [if prediction.outputs]); [urls_get] is
    [prediction.urls.get]. *)
Record Prediction := {
  id : string;
  status : string;
  outputs : list string;
  error : value;
  urls_get : value
}.

(** One constructor for each [print] of the scripts, carrying the values
    that its f-string interpolates. *)
Inductive message :=
  | MsgGenerating (prompt : value)
  | MsgSuccess
  | MsgResponse
  | MsgPrediction (prediction : Prediction)
  | MsgGeneratedURLs
  | MsgImage (n : nat) (img_url : string)
  | MsgErrorGenerating (e : exn)
  | MsgCreating (prompt : value)
  | MsgJobCreated (job_id : string)
  | MsgStatusURL (url : value)
  | MsgInitialStatus (st : string)
  | MsgPolling
  | MsgCurrentStatus (st : string) (interval : float)
  | MsgFinalStatus (st : string)
  | MsgPollSuccess
  | MsgError (err : value)
  | MsgApiKeyRequired.

(** What a run does to the outside world, in order.  [EReload n p] is the
    [n]-th (from 0) [async_reload] of the run, called on a prediction whose
    fields are [p] at that moment. *)
Inductive event :=
  | EPrint (m : message)
  | ELogException (e : exn)
  | ENewClient (api_key : value)
  | ERun (modelId : string) (input : gmap string value)
  | EAsyncRun (modelId : string) (input : gmap string value)
  | EAsyncCreate (modelId : string) (input : gmap string value)
  | ESleep (seconds : float)
  | EReload (n : nat) (p : Prediction)
  | EClose.

Definition is_reload (e : event) : bool :=
  match e with EReload _ _ => true | _ => false end.

Definition is_sleep (e : event) : bool :=
  match e with ESleep _ => true | _ => false end.


(** The [wavespeed.client.Wavespeed] object as the scripts see it: every
    call either raises or returns.  An [async_reload] overwrites the
    prediction in place; its result is the prediction's new content and may
    depend on how many reloads came before.  [poll_interval] is the
    attribute that the loop reads, a configuration value that the calls
    leave as it is. *)
Record Wavespeed := {
  poll_interval : float;
  run : string → gmap string value → exn + Prediction;
  async_run : string → gmap string value → exn + Prediction;
  async_create : string → gmap string value → exn + Prediction;
  async_reload : nat → Prediction → exn + Prediction;
  close : option exn
}.

(** ** Control flow: a trace, a reload counter, and Python's ways to leave *)

(** How a piece of script ends: normally, with an exception, inside
    [sys.exit], or not within the iterations granted to its loop. *)
Inductive result (A : Type) :=
  | Return (a : A)
  | Raise (e : exn)
  | SystemExit (code : Z)
  | OutOfFuel.
Arguments Return {A} a.
Arguments Raise {A} e.
Arguments SystemExit {A} code.
Arguments OutOfFuel {A}.

(** A computation reads the number of reloads made so far and yields the
    events it caused, the new count and its result. *)
Definition M (A : Type) : Type := nat → list event * nat * result A.

Definition ret {A} (a : A) : M A := λ n, ([], n, Return a).

Definition bind {A B} (m : M A) (f : A → M B) : M B :=
  λ n,
    match m n with
    | (t, n', Return a) => let '(t', n'', r) := f a n' in (t ++ t', n'', r)
    | (t, n', Raise e) => (t, n', Raise e)
    | (t, n', SystemExit c) => (t, n', SystemExit c)
    | (t, n', OutOfFuel) => (t, n', OutOfFuel)
    end.

#[global] Instance M_ret : MRet M := @ret.
#[global] Instance M_bind : MBind M := λ A B f m, bind m f.

Definition emit (e : event) : M unit := λ n, ([e], n, Return tt).
Definition raise {A} (e : exn) : M A := λ n, ([], n, Raise e).
Definition sys_exit {A} (code : Z) : M A := λ n, ([], n, SystemExit code).
Definition out_of_fuel {A} : M A := λ n, ([], n, OutOfFuel).

(** The outcome of a library call. *)
Definition outcome {A} (r : exn + A) : M A :=
  match r with inl e => raise e | inr a => ret a end.

Definition print (m : message) : M unit := emit (EPrint m).

(** [try: body / except Exception as e: handler e]. *)
Definition try_except {A} (body : M A) (handler : exn → M A) : M A :=
  λ n,
    match body n with
    | (t, n', Raise e) =>
        if is_Exception e
        then let '(t', n'', r) := handler e n' in (t ++ t', n'', r)
        else (t, n', Raise e)
    | r => r
    end.

(** [try: body / finally: final].  The [finally] block runs however the body
    ends; if it ends abnormally itself, that replaces the body's outcome.
    A body that never ends never reaches it. *)
Definition try_finally {A} (body : M A) (final : M unit) : M A :=
  λ n,
    match body n with
    | (t, n', OutOfFuel) => (t, n', OutOfFuel)
    | (t, n', r) =>
        match final n' with
        | (t', n'', Return _) => (t ++ t', n'', r)
        | (t', n'', Raise e) => (t ++ t', n'', Raise e)
        | (t', n'', SystemExit c) => (t ++ t', n'', SystemExit c)
        | (t', n'', OutOfFuel) => (t ++ t', n'', OutOfFuel)
        end
    end.

Definition trace {A} (m : M A) : list event := (m 0%nat).1.1.
Definition final_result {A} (m : M A) : result A := (m 0%nat).2.

(** ** The scripts *)

(** [args.name]: an attribute the namespace lacks raises [AttributeError]. *)
Definition getattr (args : gmap string value) (name : string) : M value :=
  match args !! name with
  | Some v => ret v
  | None => raise (AttributeError name)
  end.

(** The [input=] dictionary, the same literal in the three scripts. *)
Definition input_of (args : gmap string value) : M (gmap string value) :=
  prompt ← getattr args "prompt";
  strength ← getattr args "strength";
  size ← getattr args "size";
  steps ← getattr args "steps";
  guidance ← getattr args "guidance";
  num_images ← getattr args "num_images";
  seed ← getattr args "seed";
  safety ← getattr args "safety";
  mret (list_to_map
          [ ("prompt", prompt); ("strength", strength); ("size", size);
            ("num_inference_steps", steps); ("guidance_scale", guidance);
            ("num_images", num_images); ("seed", seed);
            ("enable_safety_checker", safety) ] : gmap string value).

(** [for i, img_url in enumerate(outputs): print(f"Image {i+1}: {img_url}")],
    from index [i]. *)
Fixpoint print_images (i : nat) (outputs : list string) : M unit :=
  match outputs with
  | [] => mret tt
  | img_url :: rest => print (MsgImage (i + 1) img_url);; print_images (S i) rest
  end.

Definition client_close (client : Wavespeed) : M unit :=
  emit EClose;;
  match close client with Some e => raise e | None => mret tt end.

Definition except_handler (e : exn) : M unit :=
  emit (ELogException e);;
  print (MsgErrorGenerating e);;
  sys_exit 1.

(** The body shared by the two [generate_image] functions after the call
    that produced [prediction]. *)
Definition report (prediction : Prediction) : M unit :=
  print MsgSuccess;;
  print MsgResponse;;
  print (MsgPrediction prediction);;
  match outputs prediction with
  | [] => mret tt
  | _ => print MsgGeneratedURLs;; print_images 0 (outputs prediction)
  end.

Module generate_image_py.

(** [generate_image(client, args)] of generate_image.py. *)
Definition generate_image (client : Wavespeed) (args : gmap string value)
    : M unit :=
  try_finally
    (try_except
       (prompt ← getattr args "prompt";
        print (MsgGenerating prompt);;
        input ← input_of args;
        emit (ERun "wavespeed-ai/flux-dev" input);;
        prediction ← outcome (run client "wavespeed-ai/flux-dev" input);
        report prediction)
       except_handler)
    (client_close client).

End generate_image_py.

Module async_generate_image_py.

(** [generate_image(client, args)] of async_generate_image.py. *)
Definition generate_image (client : Wavespeed) (args : gmap string value)
    : M unit :=
  try_finally
    (try_except
       (prompt ← getattr args "prompt";
        print (MsgGenerating prompt);;
        input ← input_of args;
        emit (EAsyncRun "wavespeed-ai/flux-dev" input);;
        prediction ← outcome (async_run client "wavespeed-ai/flux-dev" input);
        report prediction)
       except_handler)
    (client_close client).

End async_generate_image_py.

Module async_create_generate_image_py.

(** [await prediction.async_reload()]: the reload counter advances, and
    the prediction holds the reloaded fields afterwards. *)
Definition reload (client : Wavespeed) (prediction : Prediction)
    : M Prediction :=
  λ n,
    ([EReload n prediction], S n,
     match async_reload client n prediction with
     | inl e => Raise e
     | inr p => Return p
     end).

(** The guard of the polling loop:
    [prediction.status not in ['completed', 'error']]. *)
Definition loop_guard (prediction : Prediction) : bool :=
  negb (str_in (status prediction) ["completed"; "error"]).

(** The [while] loop, for at most [fuel] iterations. *)
Fixpoint poll_loop (fuel : nat) (client : Wavespeed) (prediction : Prediction)
    : M Prediction :=
  if loop_guard prediction then
    match fuel with
    | O => out_of_fuel
    | S fuel =>
        emit (ESleep (poll_interval client));;
        print (MsgCurrentStatus (status prediction) (poll_interval client));;
        prediction ← reload client prediction;
        poll_loop fuel client prediction
    end
  else mret prediction.

(** What follows the loop, lines 50-58. *)
Definition report_final (prediction : Prediction) : M unit :=
  print (MsgFinalStatus (status prediction));;
  if String.eqb (status prediction) "completed" then
    print MsgPollSuccess;;
    match outputs prediction with
    | [] => mret tt
    | _ => print MsgGeneratedURLs;; print_images 0 (outputs prediction)
    end
  else print (MsgError (error prediction)).

(** [create_and_poll_image(client, args)]. *)
Definition create_and_poll_image (fuel : nat) (client : Wavespeed)
    (args : gmap string value) : M unit :=
  try_finally
    (try_except
       (prompt ← getattr args "prompt";
        print (MsgCreating prompt);;
        input ← input_of args;
        emit (EAsyncCreate "wavespeed-ai/flux-dev" input);;
        prediction ← outcome (async_create client "wavespeed-ai/flux-dev" input);
        print (MsgJobCreated (id prediction));;
        print (MsgStatusURL (urls_get prediction));;
        print (MsgInitialStatus (status prediction));;
        poll ← getattr args "poll";
        if truthy poll then
          print MsgPolling;;
          prediction ← poll_loop fuel client prediction;
          report_final prediction
        else mret tt)
       except_handler)
    (client_close client).

End async_create_generate_image_py.

(** ** Command lines *)

Notation "p |> f" := (f p) (at level 45, left associativity, only parsing).

(** [os.environ.get(name)]. *)
Definition environ_get (environ : gmap string string) (name : string) : value :=
  match environ !! name with
  | Some s => VStr s
  | None => VNone
  end.

Section Mains.

Import Argparse.

(** Python's [int(s)] and [float(s)] on a string; [None] when they raise
    [ValueError].  [str(s)] is [s] itself. *)
Variable py_int : string → option Z.
Variable py_float : string → option float.

(** [Wavespeed(api_key=...)]: the client that the constructor makes. *)
Variable Wavespeed_new : value → Wavespeed.

Definition type_str (s : string) : option value := Some (VStr s).
Definition type_int (s : string) : option value := VInt <$> py_int s.
Definition type_float (s : string) : option value := VFloat <$> py_float s.

(** The default [0.6] of [--strength], as the double that Python reads. *)
Definition strength_default : float := 0x1.3333333333333p-1.

(** The parser of generate_image.py, lines 55-75. *)
Definition generate_image_parser (environ : gmap string string) : list Action :=
  ArgumentParser
  |> add_argument "--api-key" (Store type_str)
       (environ_get environ "WAVESPEED_API_KEY") false
  |> add_argument "--prompt" (Store type_str) VNone true
  |> add_argument "--image" (Store type_str) VNone false
  |> add_argument "--strength" (Store type_float) (VFloat strength_default) false
  |> add_argument "--size" (Store type_str) (VStr "1024*1024") false
  |> add_argument "--steps" (Store type_int) (VInt 28) false
  |> add_argument "--guidance" (Store type_float) (VFloat 5) false
  |> add_argument "--num-images" (Store type_int) (VInt 1) false
  |> add_argument "--seed" (Store type_int) (VInt (-1)) false
  |> add_argument "--safety" StoreTrue (VBool true) false.

(** The parser of async_generate_image.py, lines 56-74. *)
Definition async_generate_image_parser (environ : gmap string string)
    : list Action :=
  ArgumentParser
  |> add_argument "--api-key" (Store type_str)
       (environ_get environ "WAVESPEED_API_KEY") false
  |> add_argument "--prompt" (Store type_str) VNone true
  |> add_argument "--strength" (Store type_float) (VFloat strength_default) false
  |> add_argument "--size" (Store type_str) (VStr "1024*1024") false
  |> add_argument "--steps" (Store type_int) (VInt 28) false
  |> add_argument "--guidance" (Store type_float) (VFloat 5) false
  |> add_argument "--num-images" (Store type_int) (VInt 1) false
  |> add_argument "--seed" (Store type_int) (VInt (-1)) false
  |> add_argument "--safety" StoreTrue (VBool true) false.

(** The parser of async_create_generate_image.py, lines 69-89. *)
Definition async_create_parser (environ : gmap string string) : list Action :=
  ArgumentParser
  |> add_argument "--api-key" (Store type_str)
       (environ_get environ "WAVESPEED_API_KEY") false
  |> add_argument "--prompt" (Store type_str) VNone true
  |> add_argument "--strength" (Store type_float) (VFloat strength_default) false
  |> add_argument "--size" (Store type_str) (VStr "1024*1024") false
  |> add_argument "--steps" (Store type_int) (VInt 28) false
  |> add_argument "--guidance" (Store type_float) (VFloat 5) false
  |> add_argument "--num-images" (Store type_int) (VInt 1) false
  |> add_argument "--seed" (Store type_int) (VInt (-1)) false
  |> add_argument "--safety" StoreTrue (VBool true) false
  |> add_argument "--poll" StoreTrue (VBool true) false.

(** What the three entry points do once the parser is built: parse, insist
    on an API key, make the client and hand over to [job]. *)
Definition main_with (parser : list Action)
    (job : Wavespeed → gmap string value → M unit) (argv : list string)
    : M unit :=
  match parse_args parser argv with
  | ParserExit code => sys_exit code
  | Parsed args =>
      api_key ← getattr args "api_key";
      if negb (truthy api_key) then
        print MsgApiKeyRequired;;
        sys_exit 1
      else
        emit (ENewClient api_key);;
        job (Wavespeed_new api_key) args
  end.

(** [main()] of generate_image.py. *)
Definition generate_image_main (environ : gmap string string)
    (argv : list string) : M unit :=
  main_with (generate_image_parser environ)
    generate_image_py.generate_image argv.

(** [main_async()] of async_generate_image.py. *)
Definition async_generate_image_main (environ : gmap string string)
    (argv : list string) : M unit :=
  main_with (async_generate_image_parser environ)
    async_generate_image_py.generate_image argv.

(** [main_async()] of async_create_generate_image.py, its polling loop
    being granted [fuel] iterations. *)
Definition async_create_main (fuel : nat) (environ : gmap string string)
    (argv : list string) : M unit :=
  main_with (async_create_parser environ)
    (async_create_generate_image_py.create_and_poll_image fuel) argv.

End Mains.

(** ** The job lifecycle of the client library, after the specification *)

Module JobSpec.

(** Modelled from the spec: the [status] enumeration of a Job (section 3);
    the [wavespeed.client] library that defines it is not among the
    sources. *)
Inductive Status := queued | processing | completed | error.

(** Modelled from the spec: the terminal states are completed and error. *)
Definition terminal (s : Status) : bool :=
  match s with
  | completed | error => true
  | queued | processing => false
  end.

(** Modelled from the spec: the Job entity of section 3, with the fields
    [id], [status], [outputs], [error] and [urls]. *)
Record Job := {
  job_id : string;
  job_status : Status;
  job_outputs : list string;
  job_error : option string;
  job_urls : gmap string string
}.

(** Modelled from the spec: what a creation or status-check response says
    about the job (section 6: the status, and on completion an ordered list
    of output URLs, or on failure an error message), as the tagged variant
    of section 9. *)
Inductive Payload :=
  | Queued
  | Processing
  | Completed (outputs : list string)
  | Failed (message : string).

(** Modelled from the spec: a response carries the payload and the link
    map (section 6). *)
Record Response := { payload : Payload; links : gmap string string }.

(** Modelled from the spec: the error taxonomy of section 7 that calls can
    fail with ([RemoteJobError] is a result value, not a failure). *)
Inductive Error := AuthError | RequestError.

(** Modelled from the spec: the fields of a job are overwritten wholesale
    from the latest response (sections 4.2 and 9); the id stays. *)
Definition mirror (i : string) (r : Response) : Job :=
  match payload r with
  | Queued =>
      {| job_id := i; job_status := queued; job_outputs := [];
         job_error := None; job_urls := links r |}
  | Processing =>
      {| job_id := i; job_status := processing; job_outputs := [];
         job_error := None; job_urls := links r |}
  | Completed outs =>
      {| job_id := i; job_status := completed; job_outputs := outs;
         job_error := None; job_urls := links r |}
  | Failed msg =>
      {| job_id := i; job_status := error; job_outputs := [];
         job_error := Some msg; job_urls := links r |}
  end.

(** Modelled from the spec: what the library does to the outside world:
    requests to the service, waits between polls, and the release of the
    transport. *)
Inductive Event :=
  | CreateRequest (modelId : string) (input : gmap string value)
  | StatusRequest (i : string)
  | Wait (interval : float)
  | Release.

Definition is_request (e : Event) : bool :=
  match e with
  | CreateRequest _ _ | StatusRequest _ => true
  | _ => false
  end.

(** Modelled from the spec: the stub transport of section 8: the answer to
    the creation request (an id and a response) and to the [k]-th status
    check; [None] is a transport failure. *)
Record Transport := {
  create_answer : option (string * Response);
  status_answer : nat → option Response
}.

(** Modelled from the spec: the Client of section 4.1: the API key, the
    configured poll interval, and whether the transport was released. *)
Record Client := {
  api_key : option string;
  poll_interval : float;
  closed : bool
}.

(** The world that the library calls thread through: the events so far
    (latest last) and the number of status checks made. *)
Record World := { log : list Event; checks : nat }.

Definition record (e : Event) (w : World) : World :=
  {| log := log w ++ [e]; checks := checks w |}.

(** Modelled from the spec: [reload()] of section 4.2: issue a status
    check with the job's id and overwrite the fields from the response; on
    a transport failure fail with [RequestError] and leave the job as it
    was. *)
Definition reload (t : Transport) (j : Job) (w : World)
    : World * Job * option Error :=
  let w' := {| log := log w ++ [StatusRequest (job_id j)];
               checks := S (checks w) |} in
  match status_answer t (checks w) with
  | Some r => (w', mirror (job_id j) r, None)
  | None => (w', j, Some RequestError)
  end.

(** Modelled from the spec: [async_reload()] is the suspending entry point
    over the same core (sections 4.2 and 9). *)
Definition async_reload := reload.

(** Modelled from the spec: [create] of section 4.1: [AuthError] without
    an API key, before any request; otherwise one creation request, which
    gives the job or fails with [RequestError]. *)
Definition create (t : Transport) (c : Client) (modelId : string)
    (input : gmap string value) (w : World) : World * (Error + Job) :=
  match api_key c with
  | None => (w, inl AuthError)
  | Some _ =>
      let w' := record (CreateRequest modelId input) w in
      match create_answer t with
      | Some (i, r) => (w', inr (mirror i r))
      | None => (w', inl RequestError)
      end
  end.

(** Modelled from the spec: the loop inside [run] (section 4.1:
    "repeatedly wait poll_interval and reload" until the job is terminal),
    for at most [fuel] rounds; [None] when they do not suffice. *)
Fixpoint wait_until_terminal (fuel : nat) (t : Transport) (c : Client)
    (j : Job) (w : World) : World * option (Error + Job) :=
  if terminal (job_status j) then (w, Some (inr j))
  else
    match fuel with
    | O => (w, None)
    | S fuel =>
        match reload t j (record (Wait (poll_interval c)) w) with
        | (w', j', None) => wait_until_terminal fuel t c j' w'
        | (w', _, Some e) => (w', Some (inl e))
        end
    end.

(** Modelled from the spec: [run] of section 4.1: create, then wait until
    the job is terminal, and return the final job. *)
Definition run (fuel : nat) (t : Transport) (c : Client) (modelId : string)
    (input : gmap string value) (w : World) : World * option (Error + Job) :=
  match create t c modelId input w with
  | (w', inr j) => wait_until_terminal fuel t c j w'
  | (w', inl e) => (w', Some (inl e))
  end.

(** Modelled from the spec: [close()] of section 4.1: releases the
    transport the first time, does nothing afterwards, and never fails. *)
Definition close (c : Client) (w : World) : World * Client * option Error :=
  if closed c then (w, c, None)
  else (record Release w,
        {| api_key := api_key c; poll_interval := poll_interval c;
           closed := true |},
        None).

(** The invariant of section 3 on the fields of a job. *)
Definition well_formed (j : Job) : Prop :=
  (job_outputs j ≠ [] → job_status j = completed) ∧
  (job_error j ≠ None → job_status j = error) ∧
  ¬ (job_outputs j ≠ [] ∧ job_error j ≠ None) ∧
  (terminal (job_status j) = false →
     job_outputs j = [] ∧ job_error j = None).

(** The job after [n] reloads in a row, some of which may fail. *)
Fixpoint reloads (n : nat) (t : Transport) (j : Job) (w : World) : World * Job :=
  match n with
  | O => (w, j)
  | S n => let '(w', j', _) := reload t j w in reloads n t j' w'
  end.

End JobSpec.

(** ** Vocabulary for the properties *)

(** The events of the polling loop proper: waits and reloads. *)
Definition noisy (e : event) : bool := is_reload e || is_sleep e.

(** The waits and reloads of a trace, in order. *)
Definition polls (t : list event) : list event := List.filter noisy t.

(** The reloads of a trace. *)
Definition reload_events (t : list event) : list event := List.filter is_reload t.

(** The events of [print_images i outputs]. *)
Fixpoint image_events (i : nat) (outputs : list string) : list event :=
  match outputs with
  | [] => []
  | img_url :: rest => EPrint (MsgImage (i + 1) img_url) :: image_events (S i) rest
  end.

(** The events of lines 50-58 of async_create_generate_image.py. *)
Definition final_events (p : Prediction) : list event :=
  EPrint (MsgFinalStatus (status p)) ::
  (if String.eqb (status p) "completed" then
     EPrint MsgPollSuccess ::
     match outputs p with
     | [] => []
     | _ => EPrint MsgGeneratedURLs :: image_events 0 (outputs p)
     end
   else [EPrint (MsgError (error p))]).

(** [k] rounds of the polling loop, seen through [polls]: each reload comes
    right after one wait of the interval.  The [i]-th round reloads the
    prediction [ps i] as reload number [n + i]. *)
Fixpoint rounds (interval : float) (n : nat) (ps : list Prediction) : list event :=
  match ps with
  | [] => []
  | p :: ps' => ESleep interval :: EReload n p :: rounds interval (S n) ps'
  end.

(** [wp m n Φ]: running [m] after [n] reloads gives a trace, a reload count
    and a result that satisfy [Φ]. *)
Definition wp {A} (m : M A) (n : nat)
    (Φ : list event → nat → result A → Prop) : Prop :=
  Φ (m n).1.1 (m n).1.2 (m n).2.

(** What [create_and_poll_image] does before its loop when nothing raises:
    the prints around the creation of [p]. *)
Definition prologue (prompt : value) (input : gmap string value)
    (p : Prediction) : list event :=
  [ EPrint (MsgCreating prompt);
    EAsyncCreate "wavespeed-ai/flux-dev" input;
    EPrint (MsgJobCreated (id p));
    EPrint (MsgStatusURL (urls_get p));
    EPrint (MsgInitialStatus (status p));
    EPrint MsgPolling ].

(** The [finally] block after the events [evs] of a body that ended with
    [r]: the client is closed, and a failure to close replaces [r]. *)
Definition closing (client : Wavespeed) (evs : list event) (r : result unit)
    : list event * result unit :=
  (evs ++ [EClose],
   match close client with
   | Some e => Raise e
   | None => r
   end).

(** What [create_and_poll_image] does after its loop ended with [rl]: the
    final report, or the [except] block, and then the [finally] block;
    nothing when the loop does not end. *)
Definition epilogue (client : Wavespeed) (rl : result Prediction)
    : list event * result unit :=
  match rl with
  | Return p => closing client (final_events p) (Return tt)
  | Raise e =>
      if is_Exception e
      then closing client [ELogException e; EPrint (MsgErrorGenerating e)]
             (SystemExit 1)
      else closing client [] (Raise e)
  | SystemExit c => closing client [] (SystemExit c)
  | OutOfFuel => ([], OutOfFuel)
  end.

(** The rounds of the specification's [run], in the log of the library: a
    wait of the interval before each status check of job [i]. *)
Fixpoint spec_rounds (interval : float) (i : string) (k : nat)
    : list JobSpec.Event :=
  match k with
  | O => []
  | S k => JobSpec.Wait interval :: JobSpec.StatusRequest i :: spec_rounds interval i k
  end.


(** Whether the parser reads the argument string [s] as an option whose
    action stores under [d]. *)
Definition names_dest (parser : list Argparse.Action) (d : string) (s : string)
    : bool :=
  match Argparse.parse_optional parser s with
  | Argparse.Optional a _ _ => bool_decide (Argparse.dest a = Some d)
  | _ => false
  end.

(** An action keeps the namespace property [I] when taking it, on any
    argument strings, leads from a namespace with [I] to one with [I]. *)
Definition keeps (I : gmap string value → Prop) (a : Argparse.Action) : Prop :=
  ∀ st args st',
    I (Argparse.namespace st) → Argparse.take_action st a args = inl st' →
    I (Argparse.namespace st').

(** A pattern whose option, if it is one, has its action in [R]. *)
Definition pattern_in (R : Argparse.Action → Prop) (pat : Argparse.pattern) : Prop :=
  match pat with
  | Argparse.PO _ (Argparse.Optional a _ _) => R a
  | _ => True
  end.

(** Converting the string default of an action that was not seen keeps the
    namespace property [I]. *)
Definition default_keeps (I : gmap string value → Prop) (a : Argparse.Action)
    : Prop :=
  ∀ type s d v ns,
    Argparse.kind a = Argparse.Store type →
    Argparse.default a = Some (VStr s) →
    Argparse.dest a = Some d →
    type s = Some v →
    I ns → I (<[d := v]> ns).

(** The attribute an action writes to ([""] when it writes none). *)
Definition dest_key (a : Argparse.Action) : string :=
  default "" (Argparse.dest a).

(** Whether the parser reads the argument string [s] as its help option. *)
Definition asks_help (parser : list Argparse.Action) (s : string) : bool :=
  match Argparse.parse_optional parser s with
  | Argparse.Optional a _ _ =>
      match Argparse.kind a with Argparse.Help => true | _ => false end
  | _ => false
  end.

(** A pattern whose option, if it is one, has its action and option string
    in [Q]. *)
Definition pattern_with (Q : Argparse.Action → string → Prop)
    (pat : Argparse.pattern) : Prop :=
  match pat with
  | Argparse.PO _ (Argparse.Optional a o _) => Q a o
  | _ => True
  end.

(** The status with which a parser exits: 2 for a usage error, and 0 only
    when [help], which tells whether the command line asks for the help,
    holds. *)
Definition usage_status (help : bool) (status : Z) : Prop :=
  status = 2 ∨ (status = 0 ∧ help = true).

(** How an entry point ends at startup, before any client exists: inside
    argparse, with status 2 for a usage error and 0 only if the help was
    asked for, or with status 1 after the complaint about the missing API
    key. *)
Definition exits_at_startup (help : bool) (r : Argparse.parse_result)
    (m : M unit) : Prop :=
  match r with
  | Argparse.Parsed _ => m 0%nat = ([EPrint MsgApiKeyRequired], 0%nat, SystemExit 1)
  | Argparse.ParserExit status =>
      m 0%nat = ([], 0%nat, SystemExit status) ∧ usage_status help status
  end.

(** A stand-in for Python's [int] on the strings used in the examples. *)
Definition sample_int (s : string) : option Z :=
  if String.eqb s "28" then Some 28
  else if String.eqb s "-1" then Some (-1)
  else if String.eqb s "7" then Some 7
  else None.

(** A stand-in for Python's [float] on the strings used in the examples. *)
Definition sample_float (s : string) : option float :=
  if String.eqb s "0.5" then Some 0.5%float else None.

(** The prediction "job-1" with a given status and outputs. *)
Definition sample_prediction (st : string) (outs : list string) : Prediction :=
  {| id := "job-1"; status := st; outputs := outs; error := VNone;
     urls_get := VStr "https://api.example/predictions/job-1" |}.

(** A service that reports a job as processing at creation, as processing
    at the first reload and as completed, with one image, from then on; the
    blocking calls return the completed job at once. *)
Definition sample_client (api_key : value) : Wavespeed :=
  {| poll_interval := 1%float;
     run := λ _ _, inr (sample_prediction "completed" ["https://img.example/1.png"]);
     async_run := λ _ _, inr (sample_prediction "completed" ["https://img.example/1.png"]);
     async_create := λ _ _, inr (sample_prediction "processing" []);
     async_reload := λ n _,
       match n with
       | O => inr (sample_prediction "processing" [])
       | _ => inr (sample_prediction "completed" ["https://img.example/1.png"])
       end;
     close := None |}.

(** A service whose jobs stay in the status "failed". *)
Definition stuck_client : Wavespeed :=
  {| poll_interval := 1%float;
     run := λ _ _, inr (sample_prediction "failed" []);
     async_run := λ _ _, inr (sample_prediction "failed" []);
     async_create := λ _ _, inr (sample_prediction "failed" []);
     async_reload := λ _ _, inr (sample_prediction "failed" []);
     close := None |}.

(** The arguments parsed from [--prompt cat --api-key k]. *)
Definition sample_args : gmap string value :=
  match Argparse.parse_args (async_create_parser sample_int sample_float ∅)
          ["--prompt"; "cat"; "--api-key"; "k"] with
  | Argparse.Parsed args => args
  | Argparse.ParserExit _ => ∅
  end.

(** A stub transport for the specification's library: the job is processing
    at creation and at the first status check, the second check fails in
    the transport, and the third reports completion with one image. *)
Definition sample_transport : JobSpec.Transport :=
  {| JobSpec.create_answer :=
       Some ("job-1", {| JobSpec.payload := JobSpec.Processing; JobSpec.links := ∅ |});
     JobSpec.status_answer := λ k,
       match k with
       | 0%nat => Some {| JobSpec.payload := JobSpec.Processing; JobSpec.links := ∅ |}
       | 1%nat => None
       | _ => Some {| JobSpec.payload := JobSpec.Completed ["https://img.example/1.png"];
                      JobSpec.links := ∅ |}
       end |}.

(** A stub transport that reports processing twice and then completed. *)
Definition steady_transport : JobSpec.Transport :=
  {| JobSpec.create_answer :=
       Some ("job-1", {| JobSpec.payload := JobSpec.Processing; JobSpec.links := ∅ |});
     JobSpec.status_answer := λ k,
       match k with
       | 0%nat => Some {| JobSpec.payload := JobSpec.Processing; JobSpec.links := ∅ |}
       | _ => Some {| JobSpec.payload := JobSpec.Completed ["https://img.example/1.png"];
                      JobSpec.links := ∅ |}
       end |}.

(** A stub transport whose creation response is already completed. *)
Definition instant_transport : JobSpec.Transport :=
  {| JobSpec.create_answer :=
       Some ("job-1",
             {| JobSpec.payload := JobSpec.Completed ["https://img.example/1.png"];
                JobSpec.links := ∅ |});
     JobSpec.status_answer := λ _, None |}.

(** A client of the specification's library that has an API key. *)
Definition sample_spec_client : JobSpec.Client :=
  {| JobSpec.api_key := Some "k"; JobSpec.poll_interval := 1%float;
     JobSpec.closed := false |}.

(** The world before any call. *)
Definition fresh_world : JobSpec.World :=
  {| JobSpec.log := []; JobSpec.checks := 0 |}.

(** A job as it is while it is processing. *)
Definition processing_job : JobSpec.Job :=
  {| JobSpec.job_id := "job-1"; JobSpec.job_status := JobSpec.processing;
     JobSpec.job_outputs := []; JobSpec.job_error := None;
     JobSpec.job_urls := ∅ |}.

(** A wavespeed client that answers the creation with a completed job. *)
Definition instant_client : Wavespeed :=
  {| poll_interval := 1%float;
     run := λ _ _, inr (sample_prediction "completed" ["https://img.example/1.png"]);
     async_run := λ _ _, inr (sample_prediction "completed" ["https://img.example/1.png"]);
     async_create := λ _ _, inr (sample_prediction "completed" ["https://img.example/1.png"]);
     async_reload := λ _ p, inr p;
     close := None |}.

(** The events of [report], lines 36-44 of generate_image.py (37-45 of
    async_generate_image.py). *)
Definition report_events (p : Prediction) : list event :=
  [EPrint MsgSuccess; EPrint MsgResponse; EPrint (MsgPrediction p)] ++
  match outputs p with
  | [] => []
  | _ => EPrint MsgGeneratedURLs :: image_events 0 (outputs p)
  end.

(** The events that send a request to the service. *)
Definition network_call (e : event) : bool :=
  match e with
  | ERun _ _ | EAsyncRun _ _ | EAsyncCreate _ _ | EReload _ _ => true
  | _ => false
  end.

(** A service whose every call raises [e]. *)
Definition failing_client (e : exn) : Wavespeed :=
  {| poll_interval := 1%float;
     run := λ _ _, inl e;
     async_run := λ _ _, inl e;
     async_create := λ _ _, inl e;
     async_reload := λ _ _, inl e;
     close := None |}.

(** A timeout reported by the transport, an [Exception]. *)
Definition timeout_error : exn :=
  {| is_Exception := true; exn_str := "request timed out" |}.

(** The request dictionary built from [sample_args]. *)
Definition sample_request : gmap string value :=
  match final_result (input_of sample_args) with
  | Return input => input
  | _ => ∅
  end.

(** The attribute names that the request dictionary reads from [args]. *)
Definition input_attributes : list string :=
  ["prompt"; "strength"; "size"; "steps"; "guidance"; "num_images"; "seed"; "safety"].

(** The keys of the request dictionary. *)
Definition input_keys : gset string :=
  list_to_set ["prompt"; "strength"; "size"; "num_inference_steps";
               "guidance_scale"; "num_images"; "seed"; "enable_safety_checker"].

(** The lines of the final report of [create_and_poll_image]. *)
Definition report_line (e : event) : bool :=
  match e with
  | EPrint (MsgFinalStatus _) | EPrint MsgPollSuccess | EPrint (MsgError _)
  | EPrint MsgGeneratedURLs | EPrint (MsgImage _ _) => true
  | _ => false
  end.

(** The prediction after [k] reloads in a row, the first of them being
    reload number [n]; [inl e] when one of them raises [e]. *)
Fixpoint reloaded (client : Wavespeed) (p : Prediction) (n k : nat)
    : exn + Prediction :=
  match k with
  | O => inr p
  | S k' =>
      match async_reload client n p with
      | inl e => inl e
      | inr p' => reloaded client p' (S n) k'
      end
  end.

(** A service that creates the job and then fails every reload with [e]. *)
Definition flaky_client (e : exn) : Wavespeed :=
  {| poll_interval := 1%float;
     run := λ _ _, inl e;
     async_run := λ _ _, inl e;
     async_create := λ _ _, inr (sample_prediction "processing" []);
     async_reload := λ _ _, inl e;
     close := None |}.

(** [sample_args] with [poll] set to [False], as a caller of the function
    may pass them. *)
Definition quiet_args : gmap string value := <["poll" := VBool false]> sample_args.

(** An environment that holds the API key "k". *)
Definition key_environ : gmap string string := {["WAVESPEED_API_KEY" := "k"]}.

(** The arguments parsed from [--prompt cat] by generate_image.py under
    [key_environ]. *)
Definition environ_args : gmap string value :=
  match Argparse.parse_args (generate_image_parser sample_int sample_float key_environ)
          ["--prompt"; "cat"] with
  | Argparse.Parsed args => args
  | Argparse.ParserExit _ => ∅
  end.

(** The entries of [logging.exception]. *)
Definition is_log (e : event) : bool :=
  match e with
  | ELogException _ => true
  | _ => false
  end.

(** The defaults that the three scripts give to the options of the request
    (lines 62-73 of generate_image.py, 61-72 of async_generate_image.py,
    74-85 of async_create_generate_image.py), by attribute. *)
Definition option_defaults : list (string * value) :=
  [ ("strength", VFloat strength_default);
    ("size", VStr "1024*1024");
    ("steps", VInt 28);
    ("guidance", VFloat 5);
    ("num_images", VInt 1);
    ("seed", VInt (-1)) ].

(** * Properties *)

Local Close Scope Z_scope.

(** ** The job lifecycle of the specification *)

Section JobSpecFacts.

Import JobSpec.

Lemma mirror_well_formed (i : string) (r : Response) : well_formed (mirror i r).
Proof.
  unfold well_formed, mirror.
  destruct (payload r); simpl; repeat split; try congruence; tauto.
Qed.

Lemma mirror_id (i : string) (r : Response) : job_id (mirror i r) = i.
Proof. unfold mirror. by destruct (payload r). Qed.

Lemma reload_well_formed (t : Transport) (j : Job) (w : World) :
  well_formed j → well_formed (reload t j w).1.2.
Proof.
  intros Hj. unfold reload.
  destruct (status_answer t (checks w)); simpl; auto using mirror_well_formed.
Qed.

Lemma reloads_well_formed (n : nat) (t : Transport) :
  ∀ (j : Job) (w : World), well_formed j → well_formed (reloads n t j w).2.
Proof.
  induction n as [|n IH]; intros j w Hj; simpl; [done|].
  pose proof (reload_well_formed t j w Hj) as Hr.
  destruct (reload t j w) as [[w' j'] e]. by apply IH.
Qed.

Lemma create_well_formed (t : Transport) (c : Client) (modelId : string)
    (input : gmap string value) (w w' : World) (j : Job) :
  create t c modelId input w = (w', inr j) → well_formed j.
Proof.
  unfold create. intros H.
  destruct (api_key c); [|congruence].
  destruct (create_answer t) as [[i r]|]; [|congruence].
  injection H as _ <-. apply mirror_well_formed.
Qed.

Lemma wait_until_terminal_well_formed (fuel : nat) (t : Transport) (c : Client) :
  ∀ (j : Job) (w w' : World) (j' : Job),
    well_formed j →
    wait_until_terminal fuel t c j w = (w', Some (inr j')) → well_formed j'.
Proof.
  induction fuel as [|fuel IH]; intros j w w' j' Hj; simpl.
  - destruct (terminal (job_status j)); congruence.
  - destruct (terminal (job_status j)); [congruence|].
    pose proof (reload_well_formed t j (record (Wait (poll_interval c)) w) Hj) as Hr.
    destruct (reload t j _) as [[w1 j1] [e|]]; [congruence|].
    by apply IH.
Qed.

(** C1.  A job is well formed whenever the library hands it out or refreshes
    it: outputs are non-empty only when the status is completed, the error is
    set only when the status is error, the two are never set together, and
    both are empty while the status is not terminal.  This holds for the job
    that [create] returns, after any number of later reloads (failed ones
    included), and for the job that [run] returns. *)
Theorem job_fields_invariant
    (t : Transport) (c : Client) (modelId : string) (input : gmap string value)
    (w w' : World) (j : Job) :
  (create t c modelId input w = (w', inr j) →
     ∀ n : nat, well_formed (reloads n t j w').2) ∧
  (∀ fuel : nat, run fuel t c modelId input w = (w', Some (inr j)) →
     ∀ n : nat, well_formed (reloads n t j w').2).
Proof.
  split.
  - intros Hc n. apply reloads_well_formed. eauto using create_well_formed.
  - intros fuel Hr n. apply reloads_well_formed.
    unfold run in Hr.
    destruct (create t c modelId input w) as [w1 [e|j1]] eqn:Hc; [congruence|].
    eapply wait_until_terminal_well_formed; [|exact Hr].
    eauto using create_well_formed.
Qed.

(** C5.  When the status check of [reload] (or [async_reload]) fails in the
    transport, the call fails with [RequestError] and the job keeps every
    field: id, status, outputs, error and urls. *)
Theorem reload_failure_keeps_state (t : Transport) (j : Job) (w : World) :
  status_answer t (checks w) = None →
  let '(_, j', e) := reload t j w in
  let '(_, j'', e') := async_reload t j w in
  e = Some RequestError ∧ e' = Some RequestError ∧
  j' = j ∧ j'' = j ∧
  job_id j' = job_id j ∧ job_status j' = job_status j ∧
  job_outputs j' = job_outputs j ∧ job_error j' = job_error j ∧
  job_urls j' = job_urls j.
Proof.
  intros H. unfold async_reload, reload. rewrite H. by repeat split.
Qed.

(** C7.  Closing a client that is already closed does not fail, changes
    neither the client nor the world, and so sends nothing; in particular
    the second of two [close()] calls in a row does so, and the first one
    sends no request either. *)
Theorem close_idempotent (c : Client) (w : World) :
  (closed c = true → close c w = (w, c, None)) ∧
  (let '(w1, c1, e1) := close c w in
   e1 = None ∧ closed c1 = true ∧ close c1 w1 = (w1, c1, None) ∧
   filter (λ e, is_request e = true) (log w1) =
     filter (λ e, is_request e = true) (log w)).
Proof.
  unfold close. split.
  - by intros ->.
  - destruct (closed c) eqn:Hc; simpl.
    + by rewrite Hc.
    + split_and!; try done. by rewrite filter_app, app_nil_r.
Qed.

End JobSpecFacts.

(** ** Running the scripts symbolically *)

Section WeakestPre.

Context {A B : Type}.

Lemma wp_intro (m : M A) (n : nat) (Φ : list event → nat → result A → Prop) :
  (∀ t n' r, m n = (t, n', r) → Φ t n' r) → wp m n Φ.
Proof.
  intros H. unfold wp. destruct (m n) as [[t n'] r] eqn:E. by apply H.
Qed.

Lemma wp_elim (m : M A) (n : nat) (Φ : list event → nat → result A → Prop)
    (t : list event) (n' : nat) (r : result A) :
  wp m n Φ → m n = (t, n', r) → Φ t n' r.
Proof. unfold wp. intros H E. by rewrite E in H. Qed.

Lemma wp_mono (m : M A) (n : nat) (Φ Ψ : list event → nat → result A → Prop) :
  wp m n Φ → (∀ t n' r, Φ t n' r → Ψ t n' r) → wp m n Ψ.
Proof. unfold wp. auto. Qed.

Lemma wp_ret (a : A) (n : nat) Φ : Φ [] n (Return a) → wp (mret a) n Φ.
Proof. done. Qed.

Lemma wp_emit (e : event) (n : nat) Φ : Φ [e] n (Return tt) → wp (emit e) n Φ.
Proof. done. Qed.

Lemma wp_print (m : message) (n : nat) Φ :
  Φ [EPrint m] n (Return tt) → wp (print m) n Φ.
Proof. done. Qed.

Lemma wp_raise (e : exn) (n : nat) (Φ : list event → nat → result A → Prop) :
  Φ [] n (Raise e) → wp (raise e) n Φ.
Proof. done. Qed.

Lemma wp_sys_exit (c : Z) (n : nat) (Φ : list event → nat → result A → Prop) :
  Φ [] n (SystemExit c) → wp (sys_exit c) n Φ.
Proof. done. Qed.

Lemma wp_outcome (r : exn + A) (n : nat) Φ :
  (∀ a, r = inr a → Φ [] n (Return a)) →
  (∀ e, r = inl e → Φ [] n (Raise e)) →
  wp (outcome r) n Φ.
Proof. destruct r; unfold wp; simpl; auto. Qed.

Lemma wp_getattr (args : gmap string value) (name : string) (n : nat) Φ :
  (∀ v, args !! name = Some v → Φ [] n (Return v)) →
  (args !! name = None →
     Φ [] n (Raise (AttributeError name))) →
  wp (getattr args name) n Φ.
Proof. unfold wp, getattr. destruct (args !! name); simpl; auto. Qed.

Lemma wp_bind (m : M A) (f : A → M B) (n : nat) Φ :
  wp m n (λ t n1 r,
    match r with
    | Return a => wp (f a) n1 (λ t' n2 r', Φ (t ++ t') n2 r')
    | Raise e => Φ t n1 (Raise e)
    | SystemExit c => Φ t n1 (SystemExit c)
    | OutOfFuel => Φ t n1 OutOfFuel
    end) →
  wp (m ≫= f) n Φ.
Proof.
  unfold wp, mbind, M_bind, bind.
  destruct (m n) as [[t n1] [a|e|c|]]; simpl; auto.
  by destruct (f a n1) as [[t' n2] r'].
Qed.

Lemma wp_try_except (body : M A) (handler : exn → M A) (n : nat) Φ :
  wp body n (λ t n1 r,
    match r with
    | Raise e =>
        if is_Exception e
        then wp (handler e) n1 (λ t' n2 r', Φ (t ++ t') n2 r')
        else Φ t n1 (Raise e)
    | _ => Φ t n1 r
    end) →
  wp (try_except body handler) n Φ.
Proof.
  unfold wp, try_except.
  destruct (body n) as [[t n1] [a|e|c|]]; simpl; auto.
  destruct (is_Exception e); [|done].
  by destruct (handler e n1) as [[t' n2] r'].
Qed.

Lemma wp_try_finally (body : M A) (final : M unit) (n : nat) Φ :
  wp body n (λ t n1 r,
    match r with
    | OutOfFuel => Φ t n1 OutOfFuel
    | _ =>
        wp final n1 (λ t' n2 r',
          match r' with
          | Return _ => Φ (t ++ t') n2 r
          | Raise e => Φ (t ++ t') n2 (Raise e)
          | SystemExit c => Φ (t ++ t') n2 (SystemExit c)
          | OutOfFuel => Φ (t ++ t') n2 OutOfFuel
          end)
    end) →
  wp (try_finally body final) n Φ.
Proof.
  unfold wp, try_finally.
  destruct (body n) as [[t n1] [a|e|c|]]; simpl; auto;
    by destruct (final n1) as [[t' n2] [[]|e'|c'|]].
Qed.

End WeakestPre.

Lemma wp_client_close (client : Wavespeed) (n : nat) Φ :
  (close client = None → Φ [EClose] n (Return tt)) →
  (∀ e, close client = Some e → Φ [EClose] n (Raise e)) →
  wp (client_close client) n Φ.
Proof.
  intros H1 H2. unfold wp, client_close, mbind, M_bind, bind, emit. simpl.
  destruct (close client); simpl; auto.
Qed.

Lemma print_images_eq (outputs : list string) :
  ∀ i n, print_images i outputs n = (image_events i outputs, n, Return tt).
Proof.
  induction outputs as [|u rest IH]; intros i n; [done|].
  simpl. unfold mbind, M_bind, bind, print, emit. by rewrite IH.
Qed.

Lemma wp_print_images (i : nat) (outputs : list string) (n : nat) Φ :
  Φ (image_events i outputs) n (Return tt) → wp (print_images i outputs) n Φ.
Proof. unfold wp. by rewrite print_images_eq. Qed.

Lemma wp_except_handler (e : exn) (n : nat) Φ :
  Φ [ELogException e; EPrint (MsgErrorGenerating e)] n (SystemExit 1) →
  wp (except_handler e) n Φ.
Proof. done. Qed.

Import async_create_generate_image_py.

Lemma report_final_eq (p : Prediction) (n : nat) :
  report_final p n = (final_events p, n, Return tt).
Proof.
  unfold report_final, final_events, mbind, M_bind, bind, print, emit. simpl.
  destruct (String.eqb (status p) "completed"); [|done].
  destruct (outputs p) as [|u rest]; [done|].
  by rewrite print_images_eq.
Qed.

Lemma wp_report_final (p : Prediction) (n : nat) Φ :
  Φ (final_events p) n (Return tt) → wp (report_final p) n Φ.
Proof. unfold wp. by rewrite report_final_eq. Qed.

(** The three ways the loop goes on from a prediction. *)
Lemma poll_loop_done (fuel : nat) (client : Wavespeed) (p : Prediction) (n : nat) :
  loop_guard p = false → poll_loop fuel client p n = ([], n, Return p).
Proof. intros H. destruct fuel; simpl; by rewrite H. Qed.

Lemma poll_loop_out_of_fuel (client : Wavespeed) (p : Prediction) (n : nat) :
  loop_guard p = true → poll_loop 0 client p n = ([], n, OutOfFuel).
Proof. intros H. simpl. by rewrite H. Qed.

Lemma poll_loop_step (fuel : nat) (client : Wavespeed) (p : Prediction) (n : nat) :
  loop_guard p = true →
  poll_loop (S fuel) client p n =
    let '(t, n', r) :=
      match async_reload client n p with
      | inr p' => poll_loop fuel client p' (S n)
      | inl e => ([], S n, Raise e)
      end in
    (ESleep (poll_interval client) ::
     EPrint (MsgCurrentStatus (status p) (poll_interval client)) ::
     EReload n p :: t, n', r).
Proof.
  intros H. simpl. rewrite H.
  unfold mbind, M_bind, bind, print, emit, reload. simpl.
  destruct (async_reload client n p) as [e|p']; [done|].
  by destruct (poll_loop fuel client p' (S n)) as [[t n'] r].
Qed.

Arguments wp : simpl never.

Ltac wp_step :=
  lazymatch goal with
  | |- wp (mbind _ _) _ _ => apply wp_bind
  | |- wp (mret _) _ _ => apply wp_ret
  | |- wp (emit _) _ _ => apply wp_emit
  | |- wp (print _) _ _ => apply wp_print
  | |- wp (raise _) _ _ => apply wp_raise
  | |- wp (sys_exit _) _ _ => apply wp_sys_exit
  | |- wp (getattr _ _) _ _ => apply wp_getattr; [intros ? ?|intros ?]
  | |- wp (outcome _) _ _ => apply wp_outcome; intros ? ?
  | |- wp (try_except _ _) _ _ => apply wp_try_except
  | |- wp (try_finally _ _) _ _ => apply wp_try_finally
  | |- wp (client_close _) _ _ => apply wp_client_close; [intros ?|intros ? ?]
  | |- wp (except_handler _) _ _ => apply wp_except_handler
  | |- wp (print_images _ _) _ _ => apply wp_print_images
  | |- wp (report_final _) _ _ => apply wp_report_final
  | |- wp (input_of _) _ _ => unfold input_of
  | |- wp (poll_loop _ _ _) _ _ => apply wp_intro; intros ? ? [?|?|?|] ?
  | |- wp (if ?b then _ else _) _ _ => destruct b eqn:?
  | |- wp (match ?x with _ => _ end) _ _ => destruct x eqn:?
  | |- context [is_Exception (AttributeError ?k)] =>
      change (is_Exception (AttributeError k)) with true
  | |- context [if is_Exception ?e then _ else _] => destruct (is_Exception e) eqn:?
  end; cbv beta iota.

Ltac wp_go := repeat wp_step.

(** The dictionary is built without any event, or not at all. *)
Lemma input_of_eq (args : gmap string value) (n : nat) :
  input_of args n = ([], n, final_result (input_of args)).
Proof.
  unfold final_result, input_of, mbind, M_bind, bind, getattr, mret, M_ret, ret, raise.
  destruct (args !! "prompt"); [|done].
  destruct (args !! "strength"); [|done].
  destruct (args !! "size"); [|done].
  destruct (args !! "steps"); [|done].
  destruct (args !! "guidance"); [|done].
  destruct (args !! "num_images"); [|done].
  destruct (args !! "seed"); [|done].
  by destruct (args !! "safety").
Qed.

(** Either [create_and_poll_image] never enters its loop, and then neither
    waits nor reloads, or it created a prediction, and its trace is the
    prologue, the trace of the loop and the epilogue. *)
Lemma create_and_poll_image_cases (fuel : nat) (client : Wavespeed)
    (args : gmap string value) (n : nat) :
  wp (create_and_poll_image fuel client args) n (λ t n' r,
    (polls t = [] ∧ r ≠ OutOfFuel) ∨
    ∃ prompt input p tl rl,
      final_result (input_of args) = Return input ∧
      async_create client "wavespeed-ai/flux-dev" input = inr p ∧
      poll_loop fuel client p n = (tl, n', rl) ∧
      t = prologue prompt input p ++ tl ++ (epilogue client rl).1 ∧
      r = (epilogue client rl).2).
Proof.
  unfold create_and_poll_image. wp_go.
  all: try (left; split; [reflexivity|discriminate]).
  all: right; do 5 eexists; split;
    [unfold final_result, input_of, mbind, M_bind, bind, getattr;
     repeat match goal with H : _ !! _ = _ |- _ => rewrite H; clear H end;
     reflexivity|].
  all: (split; [eassumption|]); (split; [eassumption|]).
  all: unfold epilogue, closing; simpl;
    repeat match goal with H : _ = _ |- _ => rewrite H end; simpl.
  all: try (split; [|reflexivity]).
  all: rewrite ?app_nil_r, <- ?app_assoc; try reflexivity.
Qed.

(** When the arguments are all there, the creation succeeds and [args.poll]
    is true, the trace is the prologue, the loop and the epilogue. *)
Lemma create_and_poll_image_main_path (fuel : nat) (client : Wavespeed)
    (args : gmap string value) (n : nat) (prompt poll : value)
    (input : gmap string value) (p : Prediction) :
  args !! "prompt" = Some prompt →
  final_result (input_of args) = Return input →
  async_create client "wavespeed-ai/flux-dev" input = inr p →
  args !! "poll" = Some poll →
  truthy poll = true →
  create_and_poll_image fuel client args n =
    (prologue prompt input p ++ (poll_loop fuel client p n).1.1 ++
       (epilogue client (poll_loop fuel client p n).2).1,
     (poll_loop fuel client p n).1.2,
     (epilogue client (poll_loop fuel client p n).2).2).
Proof.
  intros Hprompt Hinput Hcreate Hpoll Htruthy.
  unfold create_and_poll_image, try_finally, try_except, client_close,
    except_handler, epilogue, closing, mbind, M_bind, bind, getattr, print, emit, outcome,
    mret, M_ret, ret, sys_exit.
  rewrite Hprompt, input_of_eq, Hinput, Hcreate, Hpoll, Htruthy.
  destruct (poll_loop fuel client p n) as [[tl nl] [p'|e|c|]]; simpl.
  - rewrite report_final_eq.
    destruct (close client); simpl; by rewrite ?app_nil_r, <- ?app_assoc.
  - unfold raise. destruct (is_Exception e), (close client); simpl;
      by rewrite ?app_nil_r, <- ?app_assoc.
  - destruct (close client); simpl; by rewrite ?app_nil_r, <- ?app_assoc.
  - by rewrite app_nil_r.
Qed.

(** ** The polling loop *)

Lemma loop_guard_spec (p : Prediction) :
  loop_guard p = true ↔ status p ≠ "completed" ∧ status p ≠ "error".
Proof.
  unfold loop_guard, str_in. simpl.
  destruct (String.eqb_spec (status p) "completed") as [->|H1]; simpl.
  - split; [discriminate|]. intros [H _]. by destruct H.
  - destruct (String.eqb_spec (status p) "error") as [->|H2]; simpl.
    + split; [discriminate|]. intros [_ H]. by destruct H.
    + by split.
Qed.

Lemma loop_guard_false (p : Prediction) :
  loop_guard p = false ↔ status p = "completed" ∨ status p = "error".
Proof.
  unfold loop_guard, str_in. simpl.
  destruct (String.eqb_spec (status p) "completed") as [->|H1]; simpl.
  - split; auto.
  - destruct (String.eqb_spec (status p) "error") as [->|H2]; simpl.
    + split; auto.
    + split; [discriminate|]. intros [?|?]; congruence.
Qed.

Section PollLoop.

Variable client : Wavespeed.

(** Every reload of the loop is made on a prediction that passes the guard. *)
Lemma poll_loop_reloads_guarded (fuel : nat) :
  ∀ (p : Prediction) (n : nat),
    Forall (λ e, match e with
                 | EReload _ q => loop_guard q = true
                 | _ => True
                 end) (poll_loop fuel client p n).1.1.
Proof.
  induction fuel as [|fuel IH]; intros p n;
    destruct (loop_guard p) eqn:Hg.
  - by rewrite poll_loop_out_of_fuel.
  - by rewrite poll_loop_done.
  - rewrite poll_loop_step by done.
    destruct (async_reload client n p) as [e|p'] eqn:Hr.
    + simpl. repeat constructor. done.
    + specialize (IH p' (S n)).
      destruct (poll_loop fuel client p' (S n)) as [[t n'] r]. simpl in *.
      repeat constructor; done.
  - by rewrite poll_loop_done.
Qed.

(** Seen through [polls], the loop is a series of rounds, each a wait of
    the poll interval followed by a reload; the reload counter advances by
    the number of rounds. *)
Lemma poll_loop_rounds (fuel : nat) :
  ∀ (p : Prediction) (n : nat),
    ∃ ps : list Prediction,
      polls (poll_loop fuel client p n).1.1 = rounds (poll_interval client) n ps ∧
      (poll_loop fuel client p n).1.2 = (n + length ps)%nat ∧
      (length ps ≤ fuel)%nat.
Proof.
  induction fuel as [|fuel IH]; intros p n;
    destruct (loop_guard p) eqn:Hg.
  - rewrite poll_loop_out_of_fuel by done. exists []. simpl. split_and!; [done|lia|lia].
  - rewrite poll_loop_done by done. exists []. simpl. split_and!; [done|lia|lia].
  - rewrite poll_loop_step by done.
    destruct (async_reload client n p) as [e|p'] eqn:Hr.
    + exists [p]. simpl. split_and!; [done|lia|lia].
    + destruct (IH p' (S n)) as (ps & H1 & H2 & H3).
      destruct (poll_loop fuel client p' (S n)) as [[t n'] r]. simpl in *.
      exists (p :: ps). unfold polls in *. simpl. rewrite H1, H2.
      split_and!; [done|lia|lia].
  - rewrite poll_loop_done by done. exists []. simpl. split_and!; [done|lia|lia].
Qed.

(** Once a reload has brought a prediction that fails the guard, the loop
    is over: nothing follows that reload, and the loop returns that
    prediction. *)
Lemma poll_loop_stops (fuel : nat) :
  ∀ (p : Prediction) (n : nat) (t1 t2 : list event) (k : nat) (q q' : Prediction),
    (poll_loop fuel client p n).1.1 = t1 ++ EReload k q :: t2 →
    async_reload client k q = inr q' →
    loop_guard q' = false →
    t2 = [] ∧ (poll_loop fuel client p n).2 = Return q'.
Proof.
  induction fuel as [|fuel IH]; intros p n t1 t2 k q q' Ht Hr Hq;
    destruct (loop_guard p) eqn:Hg.
  - rewrite poll_loop_out_of_fuel in Ht by done. by destruct t1.
  - rewrite poll_loop_done in Ht by done. by destruct t1.
  - rewrite poll_loop_step in Ht |- * by done.
    destruct (async_reload client n p) as [e|p'] eqn:Hrp.
    + simpl in *.
      destruct t1 as [|? [|? [|? t1]]]; simplify_eq/=.
      * congruence.
      * by destruct t1.
    + specialize (IH p' (S n)).
      destruct (poll_loop fuel client p' (S n)) as [[t n'] r] eqn:Hl. simpl in *.
      destruct t1 as [|? [|? [|? t1]]]; simplify_eq/=.
      * assert (p' = q') as -> by congruence.
        rewrite poll_loop_done in Hl by done. by simplify_eq.
      * eauto.
  - rewrite poll_loop_done in Ht by done. by destruct t1.
Qed.

(** If every reload succeeds with a prediction that passes the guard, the
    loop uses up whatever number of iterations it is granted: it waits and
    reloads that many times and has not ended. *)
Lemma poll_loop_unbounded :
  (∀ k q, ∃ q', async_reload client k q = inr q' ∧ loop_guard q' = true) →
  ∀ (fuel : nat) (p : Prediction) (n : nat),
    loop_guard p = true →
    (poll_loop fuel client p n).2 = OutOfFuel ∧
    length (List.filter is_reload (poll_loop fuel client p n).1.1) = fuel ∧
    length (List.filter is_sleep (poll_loop fuel client p n).1.1) = fuel.
Proof.
  intros Hserver. induction fuel as [|fuel IH]; intros p n Hg.
  - by rewrite poll_loop_out_of_fuel.
  - rewrite poll_loop_step by done.
    destruct (Hserver n p) as (p' & -> & Hg').
    destruct (IH p' (S n) Hg') as (H1 & H2 & H3).
    destruct (poll_loop fuel client p' (S n)) as [[t n'] r]. simpl in *.
    by rewrite H1, H2, H3.
Qed.

End PollLoop.

(** ** Facts on traces *)

Lemma polls_app (t1 t2 : list event) : polls (t1 ++ t2) = polls t1 ++ polls t2.
Proof. apply List.filter_app. Qed.

Lemma reload_events_app (t1 t2 : list event) :
  reload_events (t1 ++ t2) = reload_events t1 ++ reload_events t2.
Proof. apply List.filter_app. Qed.

Lemma reload_events_polls (t : list event) : reload_events (polls t) = reload_events t.
Proof.
  induction t as [|e t IH]; [done|].
  unfold reload_events, polls in *. simpl.
  destruct e; simpl; by rewrite ?IH.
Qed.

Lemma polls_nil_reload_events (t : list event) : polls t = [] → reload_events t = [].
Proof. intros H. by rewrite <- reload_events_polls, H. Qed.

Lemma polls_nil_not_in (t : list event) (e : event) :
  polls t = [] → noisy e = true → ¬ In e t.
Proof.
  intros Ht He Hin.
  assert (In e (polls t)) as H by (apply List.filter_In; auto).
  by rewrite Ht in H.
Qed.

Lemma polls_image_events (outputs : list string) :
  ∀ i, polls (image_events i outputs) = [].
Proof. induction outputs as [|u rest IH]; intros i; [done|]. simpl. apply IH. Qed.

Lemma polls_final_events (p : Prediction) : polls (final_events p) = [].
Proof.
  unfold final_events. cbn.
  destruct (String.eqb (status p) "completed"); [|done]. cbn.
  destruct (outputs p) as [|u rest]; [done|]. cbn. apply (polls_image_events rest).
Qed.

Lemma polls_epilogue (client : Wavespeed) (rl : result Prediction) :
  polls (epilogue client rl).1 = [].
Proof.
  destruct rl as [p|e|c|]; unfold epilogue, closing; [| |done|done].
  - cbn [fst]. by rewrite polls_app, polls_final_events.
  - by destruct (is_Exception e).
Qed.

Lemma polls_prologue (prompt : value) (input : gmap string value) (p : Prediction) :
  polls (prologue prompt input p) = [].
Proof. done. Qed.

(** An element that can be neither in the first nor in the last of three
    segments is found in the middle one. *)
Lemma split_middle (P : event → bool) (x : event) :
  ∀ (l1 l2 l3 t1 t2 : list event),
    List.filter P l1 = [] → List.filter P l3 = [] → P x = true →
    l1 ++ l2 ++ l3 = t1 ++ x :: t2 →
    ∃ a b, l2 = a ++ x :: b ∧ t1 = l1 ++ a ∧ t2 = b ++ l3.
Proof.
  assert (Hnil : ∀ l t1 t2, List.filter P l = [] → l ≠ t1 ++ x :: t2 ∨ P x = false).
  { intros l t1 t2 Hl. destruct (P x) eqn:Hx; [left|by right].
    intros ->. rewrite List.filter_app in Hl. simpl in Hl. rewrite Hx in Hl.
    by destruct (List.filter P t1). }
  induction l1 as [|y l1 IH]; intros l2 l3 t1 t2 H1 H3 Hx Heq; simpl in *.
  - clear H1. revert t1 Heq.
    induction l2 as [|y l2 IH2]; intros t1 Heq; simpl in *.
    + destruct (Hnil l3 t1 t2 H3); congruence.
    + destruct t1 as [|z t1]; simpl in Heq; injection Heq as -> Heq.
      * exists [], l2. by rewrite Heq.
      * destruct (IH2 t1 Heq) as (a & b & -> & -> & ->).
        by exists (z :: a), b.
  - destruct (P y) eqn:Hy; [done|].
    destruct t1 as [|z t1]; simpl in Heq; injection Heq as -> Heq.
    + congruence.
    + destruct (IH l2 l3 t1 t2 H1 H3 Hx Heq) as (a & b & -> & -> & ->).
      by exists a, b.
Qed.

(** ** Claims on [create_and_poll_image] *)

(** C2.  In [create_and_poll_image] a reload is only ever made on a
    prediction whose status is neither "completed" nor "error"; the loop ends
    at once on a prediction with one of these statuses; and once the creation
    or a reload has brought such a status, no reload follows. *)
Theorem reload_only_while_not_terminal (fuel : nat) (client : Wavespeed)
    (args : gmap string value) :
  let t := trace (create_and_poll_image fuel client args) in
  (∀ n p, In (EReload n p) t → status p ≠ "completed" ∧ status p ≠ "error") ∧
  (∀ fuel' p n, status p = "completed" ∨ status p = "error" →
     poll_loop fuel' client p n = ([], n, Return p)) ∧
  (∀ t1 t2 n p p',
     t = t1 ++ EReload n p :: t2 →
     async_reload client n p = inr p' →
     status p' = "completed" ∨ status p' = "error" →
     reload_events t2 = []) ∧
  (∀ input p,
     final_result (input_of args) = Return input →
     async_create client "wavespeed-ai/flux-dev" input = inr p →
     status p = "completed" ∨ status p = "error" →
     reload_events t = []).
Proof.
  intros t. subst t. unfold trace.
  pose proof (create_and_poll_image_cases fuel client args 0) as Hc.
  unfold wp in Hc.
  destruct (create_and_poll_image fuel client args 0) as [[t n'] r].
  cbn [fst snd] in *.
  split_and!.
  - intros n p Hin. apply loop_guard_spec.
    destruct Hc as [[Hq _]|(prompt & input & p0 & tl & rl & _ & _ & Hl & -> & _)].
    + by destruct (polls_nil_not_in t (EReload n p) Hq eq_refl).
    + apply in_app_or in Hin as [Hin|Hin].
      { by destruct (polls_nil_not_in _ (EReload n p) (polls_prologue prompt input p0) eq_refl). }
      apply in_app_or in Hin as [Hin|Hin].
      * pose proof (poll_loop_reloads_guarded client fuel p0 0) as Hg.
        rewrite Hl in Hg. simpl in Hg.
        rewrite List.Forall_forall in Hg. apply (Hg _ Hin).
      * by destruct (polls_nil_not_in _ (EReload n p) (polls_epilogue client rl) eq_refl).
  - intros fuel' p n Hp. apply poll_loop_done. by apply loop_guard_false.
  - intros t1 t2 n p p' -> Hr Hp'. apply loop_guard_false in Hp'.
    destruct Hc as [[Hq _]|(prompt & input & p0 & tl & rl & _ & _ & Hl & Ht & _)].
    + rewrite polls_app in Hq. simpl in Hq. by destruct (polls t1).
    + symmetry in Ht.
      apply (split_middle noisy) in Ht as (a & b & -> & -> & ->);
        [|apply polls_prologue|apply polls_epilogue|done].
      pose proof (poll_loop_stops client fuel p0 0 a b n p p') as Hs.
      rewrite Hl in Hs. simpl in Hs.
      destruct (Hs eq_refl Hr Hp') as [-> ->].
      apply polls_nil_reload_events.
      by rewrite polls_app, polls_epilogue.
  - intros input p Hi Hcr Hp. apply loop_guard_false in Hp.
    destruct Hc as [[Hq _]|(prompt & input0 & p0 & tl & rl & Hi0 & Hcr0 & Hl & -> & _)].
    + by apply polls_nil_reload_events.
    + assert (input0 = input) as -> by congruence.
      assert (p0 = p) as -> by congruence.
      rewrite poll_loop_done in Hl by done. simplify_eq.
      apply polls_nil_reload_events.
      by rewrite !polls_app, polls_prologue, polls_epilogue.
Qed.

Lemma filter_is_sleep_polls (t : list event) :
  List.filter is_sleep (polls t) = List.filter is_sleep t.
Proof.
  induction t as [|e t IH]; [done|].
  unfold polls in *. simpl. destruct e; simpl; by rewrite ?IH.
Qed.

Lemma polls_trace_main_path (fuel : nat) (client : Wavespeed)
    (args : gmap string value) (prompt poll : value)
    (input : gmap string value) (p : Prediction) :
  args !! "prompt" = Some prompt →
  final_result (input_of args) = Return input →
  async_create client "wavespeed-ai/flux-dev" input = inr p →
  args !! "poll" = Some poll →
  truthy poll = true →
  polls (trace (create_and_poll_image fuel client args)) =
    polls (poll_loop fuel client p 0).1.1.
Proof.
  intros H1 H2 H3 H4 H5. unfold trace.
  rewrite (create_and_poll_image_main_path _ _ _ _ _ _ _ _ H1 H2 H3 H4 H5).
  cbn [fst snd].
  by rewrite !polls_app, polls_prologue, polls_epilogue, app_nil_r.
Qed.

(** The loop on a prediction that is processing, reloaded as processing
    and then as completed. *)
Lemma poll_loop_processing_twice (fuel : nat) (client : Wavespeed)
    (p0 p1 p2 : Prediction) (n : nat) :
  status p0 = "processing" →
  async_reload client n p0 = inr p1 → status p1 = "processing" →
  async_reload client (S n) p1 = inr p2 → status p2 = "completed" →
  poll_loop (S (S fuel)) client p0 n =
    ([ ESleep (poll_interval client);
       EPrint (MsgCurrentStatus "processing" (poll_interval client));
       EReload n p0;
       ESleep (poll_interval client);
       EPrint (MsgCurrentStatus "processing" (poll_interval client));
       EReload (S n) p1 ],
     S (S n), Return p2).
Proof.
  intros H0 Hr1 H1 Hr2 H2.
  rewrite poll_loop_step, Hr1 by (apply loop_guard_spec; rewrite H0; done).
  rewrite poll_loop_step, Hr2 by (apply loop_guard_spec; rewrite H1; done).
  rewrite poll_loop_done by (apply loop_guard_false; auto).
  by rewrite H0, H1.
Qed.

Section RunSpec.

Import JobSpec.

(** The log of the specification's waiting loop: a number of rounds, each
    one wait of the client's interval and one status check. *)
Lemma wait_until_terminal_log (fuel : nat) (t : Transport) (c : Client) :
  ∀ (j : Job) (w : World),
    ∃ k : nat,
      log (wait_until_terminal fuel t c j w).1 =
        log w ++ spec_rounds (JobSpec.poll_interval c) (job_id j) k ∧
      (k ≤ fuel)%nat.
Proof.
  induction fuel as [|fuel IH]; intros j w; simpl.
  - exists O. destruct (terminal (job_status j)); simpl; by rewrite app_nil_r.
  - destruct (terminal (job_status j)); simpl.
    { exists O. simpl. rewrite app_nil_r. split; [done|lia]. }
    unfold reload. simpl.
    destruct (status_answer t (checks w)) as [r|]; simpl.
    + edestruct (IH (mirror (job_id j) r)) as (k & -> & Hk).
      exists (S k). simpl. rewrite mirror_id, <- !app_assoc. simpl.
      split; [done|lia].
    + exists 1%nat. simpl. rewrite <- !app_assoc. simpl. split; [done|lia].
Qed.

Lemma run_log (fuel : nat) (t : Transport) (c : Client) (modelId : string)
    (input : gmap string value) (w : World) :
  log (run fuel t c modelId input w).1 = log w ∨
  ∃ (i : string) (k : nat),
    log (run fuel t c modelId input w).1 =
      log w ++ CreateRequest modelId input ::
        spec_rounds (JobSpec.poll_interval c) i k.
Proof.
  unfold run, create.
  destruct (JobSpec.api_key c); [|by left].
  destruct (create_answer t) as [[i r]|]; simpl.
  - right.
    edestruct (wait_until_terminal_log fuel t c (mirror i r)) as (k & -> & _).
    exists i, k. rewrite mirror_id. simpl. by rewrite <- app_assoc.
  - right. exists "", O. done.
Qed.

Lemma run_processing_twice (fuel : nat) (t : Transport) (c : Client)
    (modelId : string) (input : gmap string value) (w : World)
    (key i : string) (l0 l1 l2 : gmap string string) (outs : list string) :
  JobSpec.api_key c = Some key →
  create_answer t = Some (i, {| payload := Processing; links := l0 |}) →
  status_answer t (checks w) = Some {| payload := Processing; links := l1 |} →
  status_answer t (S (checks w)) =
    Some {| payload := Completed outs; links := l2 |} →
  run (S (S fuel)) t c modelId input w =
    ({| log := log w ++
               [ CreateRequest modelId input;
                 Wait (JobSpec.poll_interval c); StatusRequest i;
                 Wait (JobSpec.poll_interval c); StatusRequest i ];
        checks := S (S (checks w)) |},
     Some (inr {| job_id := i; job_status := completed; job_outputs := outs;
                  job_error := None; job_urls := l2 |})).
Proof.
  intros Hk Hc H0 H1.
  unfold run, create. rewrite Hk, Hc. simpl.
  unfold reload. simpl. rewrite H0. simpl. rewrite H1. simpl.
  destruct fuel; simpl; by rewrite <- !app_assoc.
Qed.

Lemma run_completed_at_once (fuel : nat) (t : Transport) (c : Client)
    (modelId : string) (input : gmap string value) (w : World)
    (key i : string) (l0 : gmap string string) (outs : list string) :
  JobSpec.api_key c = Some key →
  create_answer t = Some (i, {| payload := Completed outs; links := l0 |}) →
  run fuel t c modelId input w =
    ({| log := log w ++ [CreateRequest modelId input]; checks := checks w |},
     Some (inr {| job_id := i; job_status := completed; job_outputs := outs;
                  job_error := None; job_urls := l0 |})).
Proof.
  intros Hk Hc. unfold run, create. rewrite Hk, Hc.
  by destruct fuel.
Qed.

End RunSpec.

(** C3.  In [create_and_poll_image], and in the specification's [run], each
    reload comes right after exactly one wait of the client's poll interval,
    the same interval every time: the waits and reloads of a run are a series
    of rounds (wait, reload).  When the job is reported as processing at
    creation, as processing by the first reload and as completed by the
    second, there are exactly these two rounds. *)
Theorem reload_preceded_by_one_wait :
  (∀ fuel client args,
     ∃ ps, polls (trace (create_and_poll_image fuel client args)) =
             rounds (poll_interval client) 0 ps) ∧
  (∀ fuel client args prompt poll input p0 p1 p2,
     args !! "prompt" = Some prompt →
     final_result (input_of args) = Return input →
     args !! "poll" = Some poll → truthy poll = true →
     async_create client "wavespeed-ai/flux-dev" input = inr p0 →
     status p0 = "processing" →
     async_reload client 0 p0 = inr p1 → status p1 = "processing" →
     async_reload client 1 p1 = inr p2 → status p2 = "completed" →
     polls (trace (create_and_poll_image (S (S fuel)) client args)) =
       [ ESleep (poll_interval client); EReload 0 p0;
         ESleep (poll_interval client); EReload 1 p1 ]) ∧
  (∀ fuel t c modelId input w,
     JobSpec.log (JobSpec.run fuel t c modelId input w).1 = JobSpec.log w ∨
     ∃ i k,
       JobSpec.log (JobSpec.run fuel t c modelId input w).1 =
         JobSpec.log w ++ JobSpec.CreateRequest modelId input ::
           spec_rounds (JobSpec.poll_interval c) i k) ∧
  (∀ fuel t c modelId input w key i l0 l1 l2 outs,
     JobSpec.api_key c = Some key →
     JobSpec.create_answer t =
       Some (i, {| JobSpec.payload := JobSpec.Processing; JobSpec.links := l0 |}) →
     JobSpec.status_answer t (JobSpec.checks w) =
       Some {| JobSpec.payload := JobSpec.Processing; JobSpec.links := l1 |} →
     JobSpec.status_answer t (S (JobSpec.checks w)) =
       Some {| JobSpec.payload := JobSpec.Completed outs; JobSpec.links := l2 |} →
     JobSpec.log (JobSpec.run (S (S fuel)) t c modelId input w).1 =
       JobSpec.log w ++
         JobSpec.CreateRequest modelId input ::
         spec_rounds (JobSpec.poll_interval c) i 2 ∧
     ∃ j, (JobSpec.run (S (S fuel)) t c modelId input w).2 = Some (inr j) ∧
          JobSpec.job_status j = JobSpec.completed ∧
          JobSpec.job_outputs j = outs).
Proof.
  split_and!.
  - intros fuel client args.
    pose proof (create_and_poll_image_cases fuel client args 0) as Hc.
    unfold wp in Hc. unfold trace.
    destruct (create_and_poll_image fuel client args 0) as [[t n'] r].
    cbn [fst snd] in *.
    destruct Hc as [[Hq _]|(prompt & input & p0 & tl & rl & _ & _ & Hl & -> & _)].
    + exists []. by rewrite Hq.
    + destruct (poll_loop_rounds client fuel p0 0) as (ps & Hps & _).
      rewrite Hl in Hps. cbn [fst snd] in Hps. exists ps.
      by rewrite !polls_app, polls_prologue, polls_epilogue, app_nil_r.
  - intros fuel client args prompt poll input p0 p1 p2 Hp Hi Hpoll Ht Hc H0 Hr1 H1 Hr2 H2.
    rewrite (polls_trace_main_path _ _ _ _ _ _ _ Hp Hi Hc Hpoll Ht).
    by rewrite (poll_loop_processing_twice fuel client p0 p1 p2 0 H0 Hr1 H1 Hr2 H2).
  - apply run_log.
  - intros fuel t c modelId input w key i l0 l1 l2 outs Hk Hc H0 H1.
    rewrite (run_processing_twice fuel t c modelId input w key i l0 l1 l2 outs Hk Hc H0 H1).
    simpl. split; [done|]. eexists. by split_and!.
Qed.

(** C4.  When the creation call returns a job that is already completed,
    [create_and_poll_image] neither waits nor reloads: after the prologue it
    reports the final status and the outputs of that very job and closes the
    client.  Likewise the specification's [run] sends the creation request
    only and returns the job with the outputs of the creation response. *)
Theorem completed_at_creation_needs_no_reload :
  (∀ fuel client args prompt poll input p,
     args !! "prompt" = Some prompt →
     final_result (input_of args) = Return input →
     args !! "poll" = Some poll → truthy poll = true →
     async_create client "wavespeed-ai/flux-dev" input = inr p →
     status p = "completed" →
     trace (create_and_poll_image fuel client args) =
       prologue prompt input p ++
       [EPrint (MsgFinalStatus "completed"); EPrint MsgPollSuccess] ++
       match outputs p with
       | [] => []
       | _ => EPrint MsgGeneratedURLs :: image_events 0 (outputs p)
       end ++ [EClose] ∧
     polls (trace (create_and_poll_image fuel client args)) = [] ∧
     final_result (create_and_poll_image fuel client args) =
       match close client with Some e => Raise e | None => Return tt end) ∧
  (∀ fuel t c modelId input w key i l0 outs,
     JobSpec.api_key c = Some key →
     JobSpec.create_answer t =
       Some (i, {| JobSpec.payload := JobSpec.Completed outs; JobSpec.links := l0 |}) →
     ∃ j, JobSpec.run fuel t c modelId input w =
            ({| JobSpec.log := JobSpec.log w ++ [JobSpec.CreateRequest modelId input];
                JobSpec.checks := JobSpec.checks w |},
             Some (inr j)) ∧
          JobSpec.job_status j = JobSpec.completed ∧
          JobSpec.job_outputs j = outs).
Proof.
  split.
  - intros fuel client args prompt poll input p Hp Hi Hpoll Ht Hc Hs.
    assert (Hg : loop_guard p = false) by (apply loop_guard_false; auto).
    unfold trace, final_result.
    rewrite (create_and_poll_image_main_path _ _ _ _ _ _ _ _ Hp Hi Hc Hpoll Ht).
    rewrite poll_loop_done by done. cbn [fst snd epilogue closing].
    split_and!; [|by rewrite !polls_app, polls_prologue, polls_final_events|done].
    unfold final_events. rewrite Hs. simpl. by rewrite <- ?app_assoc.
  - intros fuel t c modelId input w key i l0 outs Hk Hc.
    rewrite (run_completed_at_once fuel t c modelId input w key i l0 outs Hk Hc).
    eexists. by split_and!.
Qed.

(** C9.  The guard of the polling loop is false on the exact statuses
    "completed" and "error" and true on every other string, "failed"
    included.  So if the service keeps answering the reloads with other
    statuses, the loop goes on for as many iterations as it is granted,
    waiting and reloading in each, and [create_and_poll_image] does not
    end. *)
Theorem loop_exits_only_on_completed_or_error :
  (∀ p, loop_guard p = true ↔ status p ≠ "completed" ∧ status p ≠ "error") ∧
  (∀ p, status p = "failed" → loop_guard p = true) ∧
  (∀ client,
     (∀ k q, ∃ q', async_reload client k q = inr q' ∧
                   status q' ≠ "completed" ∧ status q' ≠ "error") →
     (∀ fuel p n,
        status p ≠ "completed" → status p ≠ "error" →
        (poll_loop fuel client p n).2 = OutOfFuel ∧
        length (reload_events (poll_loop fuel client p n).1.1) = fuel ∧
        length (List.filter is_sleep (poll_loop fuel client p n).1.1) = fuel) ∧
     (∀ fuel args prompt poll input p,
        args !! "prompt" = Some prompt →
        final_result (input_of args) = Return input →
        args !! "poll" = Some poll → truthy poll = true →
        async_create client "wavespeed-ai/flux-dev" input = inr p →
        status p ≠ "completed" → status p ≠ "error" →
        final_result (create_and_poll_image fuel client args) = OutOfFuel ∧
        length (reload_events (trace (create_and_poll_image fuel client args))) = fuel ∧
        length (List.filter is_sleep (trace (create_and_poll_image fuel client args))) = fuel)).
Proof.
  split_and!.
  - apply loop_guard_spec.
  - intros p Hp. apply loop_guard_spec. by rewrite Hp.
  - intros client Hserver.
    assert (Hserver' : ∀ k q, ∃ q',
              async_reload client k q = inr q' ∧ loop_guard q' = true).
    { intros k q. destruct (Hserver k q) as (q' & ? & ? & ?).
      exists q'. split; [done|]. by apply loop_guard_spec. }
    assert (Hloop : ∀ fuel p n,
              status p ≠ "completed" → status p ≠ "error" →
              (poll_loop fuel client p n).2 = OutOfFuel ∧
              length (reload_events (poll_loop fuel client p n).1.1) = fuel ∧
              length (List.filter is_sleep (poll_loop fuel client p n).1.1) = fuel).
    { intros fuel p n H1 H2.
      apply (poll_loop_unbounded client Hserver' fuel p n).
      by apply loop_guard_spec. }
    split; [exact Hloop|].
    intros fuel args prompt poll input p Hp Hi Hpoll Ht Hc H1 H2.
    destruct (Hloop fuel p 0 H1 H2) as (Hr & Hn & Hm).
    unfold final_result.
    rewrite <- reload_events_polls, <- filter_is_sleep_polls.
    rewrite (polls_trace_main_path _ _ _ _ _ _ _ Hp Hi Hc Hpoll Ht).
    rewrite reload_events_polls, filter_is_sleep_polls.
    rewrite (create_and_poll_image_main_path _ _ _ _ _ _ _ _ Hp Hi Hc Hpoll Ht).
    cbn [fst snd]. by rewrite Hr.
Qed.

(** ** The [finally] blocks *)




Lemma poll_loop_no_exit (client : Wavespeed) (fuel : nat) :
  ∀ p n c, (poll_loop fuel client p n).2 ≠ SystemExit c.
Proof.
  induction fuel as [|fuel IH]; intros p n c; destruct (loop_guard p) eqn:Hg.
  - by rewrite poll_loop_out_of_fuel.
  - by rewrite poll_loop_done.
  - rewrite poll_loop_step by done.
    destruct (async_reload client n p) as [e|p']; [done|].
    specialize (IH p' (S n) c).
    by destruct (poll_loop fuel client p' (S n)) as [[t n'] r].
  - by rewrite poll_loop_done.
Qed.








(** ** What argparse can do to a namespace *)

Section ArgparseFacts.

Import Argparse.

Variable parser : list Action.

(** [I] is a property of namespaces and [R] a set of actions that keep it. *)
Variable I : gmap string value → Prop.
Variable R : Action → Prop.

Hypothesis R_keeps : ∀ a, R a → keeps I a.

(** The single-dash options, which may be read out of a cluster. *)
Hypothesis R_short :
  ∀ c a, assoc (String "-" (String c "")) (option_string_actions parser) = Some a →
         R a.

Lemma take_actions_keeps (tuples : list (Action * list string)) :
  ∀ st st',
    Forall (λ tup, R tup.1) tuples →
    I (namespace st) → take_actions st tuples = inl st' → I (namespace st').
Proof.
  induction tuples as [|[a args] rest IH]; intros st st' HR HI Ht; simpl in *.
  - by simplify_eq.
  - inversion HR as [|? ? Ha Hrest]; subst. simpl in Ha.
    destruct (take_action st a args) as [st1|] eqn:E; [|done].
    eapply IH; [done| |done]. eapply R_keeps; eauto.
Qed.

Lemma consume_explicit_R (explicit_arg : string) :
  ∀ a o rest acc tuples took,
    R a → Forall (λ tup, R tup.1) acc →
    consume_explicit parser a o explicit_arg rest acc = Some (tuples, took) →
    Forall (λ tup : Action * list string, R tup.1) tuples.
Proof.
  induction explicit_arg as [|c tail IH]; intros a o rest acc tuples took Ha Hacc H;
    simpl in H; destruct (nargs a) eqn:Hn.
  - done.
  - simplify_eq. apply Forall_app. split; [done|]. by repeat constructor.
  - destruct (second_is_dash o); [done|].
    destruct (assoc _ _) as [a'|] eqn:Ha'; [|done].
    apply R_short in Ha'.
    destruct tail as [|c' tail'].
    + destruct (match_following a' rest) as [[args tk]|]; [|done].
      simplify_eq. apply Forall_app. split; [done|]. by repeat constructor.
    + eapply IH; [exact Ha'| |exact H].
      apply Forall_app. split; [done|]. by repeat constructor.
  - simplify_eq. apply Forall_app. split; [done|]. by repeat constructor.
Qed.

Lemma consume_optional_R (a : Action) (o : string) (e : option string)
    (rest : list pattern) tuples took :
  R a → consume_optional parser a o e rest = Some (tuples, took) →
  Forall (λ tup : Action * list string, R tup.1) tuples.
Proof.
  intros Ha H. unfold consume_optional in H. destruct e as [e|].
  - eapply consume_explicit_R; [exact Ha| |exact H]. constructor.
  - destruct (match_following a rest) as [[args tk]|]; [|done].
    simplify_eq. by repeat constructor.
Qed.

Lemma consume_keeps_upto (k : nat) :
  ∀ pats st st',
    (length pats ≤ k)%nat →
    Forall (pattern_in R) pats →
    I (namespace st) → consume parser st pats = inl st' → I (namespace st').
Proof.
  induction k as [|k IH]; intros pats st st' Hk HR HI Hc;
    (destruct pats as [|pat rest]; simpl in Hc, Hk; [by simplify_eq|]);
    [lia|].
  inversion HR as [|? ? Hpat Hrest]; subst.
  assert (Hrec : ∀ st1 rest', (length rest' ≤ length rest)%nat →
            Forall (pattern_in R) rest' → I (namespace st1) →
            consume parser st1 rest' = inl st' → I (namespace st')).
  { intros st1 rest' Hlen ? ? ?. eapply (IH rest'); eauto. lia. }
  destruct pat as [s| |s c].
  - eapply (Hrec _ rest); [lia|done| |exact Hc]; exact HI.
  - eapply (Hrec _ rest); [lia|done| |exact Hc]; exact HI.
  - destruct c as [|a o e| |];
      try (eapply (Hrec _ rest); [lia|done| |exact Hc]; exact HI).
    simpl in Hpat.
    destruct (consume_optional parser a o e rest) as [[tuples took]|] eqn:Ho;
      [|done].
    destruct (take_actions st tuples) as [st1|] eqn:Ht; [|done].
    assert (I (namespace st1)) as HI1.
    { eapply take_actions_keeps; [|exact HI|exact Ht].
      eapply consume_optional_R; eauto. }
    destruct took, rest as [|pat' rest'];
      try (eapply (Hrec st1 _); [|done| |exact Hc]; [simpl; lia|exact HI1]).
    inversion Hrest; subst.
    eapply (Hrec st1 rest'); [simpl; lia|done| |exact Hc]; exact HI1.
Qed.

Lemma consume_keeps (pats : list pattern) (st st' : pstate) :
  Forall (pattern_in R) pats →
  I (namespace st) → consume parser st pats = inl st' → I (namespace st').
Proof. by apply (consume_keeps_upto (length pats)). Qed.

End ArgparseFacts.

Section ArgparseParse.

Import Argparse.

Lemma assoc_In (k : string) (l : list (string * Action)) (a : Action) :
  assoc k l = Some a → In (k, a) l.
Proof.
  induction l as [|[k' a'] l IH]; simpl; [done|].
  destruct (String.eqb_spec k k') as [->|]; intros H.
  - left. congruence.
  - right. auto.
Qed.

Lemma option_string_actions_In (parser : list Action) (o : string) (a : Action) :
  In (o, a) (option_string_actions parser) → In a parser ∧ In o (option_strings a).
Proof.
  unfold option_string_actions. rewrite in_flat_map.
  intros (a' & Ha' & Hin). apply in_map_iff in Hin as (o' & Heq & Ho').
  by simplify_eq.
Qed.

Lemma assoc_parser (parser : list Action) (k : string) (a : Action) :
  assoc k (option_string_actions parser) = Some a →
  In a parser ∧ In k (option_strings a).
Proof. intros H. by apply option_string_actions_In, assoc_In. Qed.

Lemma get_option_tuples_In (parser : list Action) (s o : string) (a : Action)
    (e : option string) :
  In (a, o, e) (get_option_tuples parser s) → In a parser.
Proof.
  unfold get_option_tuples. intros H.
  destruct (second_is_dash s).
  - destruct (match split_eq s with Some (p, e0) => (p, Some e0) | None => (s, None) end)
      as [option_prefix explicit_arg].
    apply list_elem_of_In, list_elem_of_omap in H as ([o' a'] & Hin & Heq).
    destruct (String.prefix option_prefix o'); [|done]. simplify_eq.
    apply list_elem_of_In in Hin.
    by apply option_string_actions_In in Hin as [? _].
  - apply list_elem_of_In, list_elem_of_omap in H as ([o' a'] & Hin & Heq).
    apply list_elem_of_In in Hin.
    apply option_string_actions_In in Hin as [Hin _].
    destruct (String.eqb o' _); [by simplify_eq|].
    destruct (String.prefix s o'); by simplify_eq.
Qed.

Lemma parse_optional_In (parser : list Action) (s o : string) (a : Action)
    (e : option string) :
  parse_optional parser s = Optional a o e → In a parser.
Proof.
  unfold parse_optional. destruct s as [|c0 s']; [done|].
  destruct (negb (Ascii.eqb c0 "-")); [done|].
  destruct (assoc (String c0 s') _) as [a0|] eqn:Ha0.
  { intros H. simplify_eq. by apply assoc_parser in Ha0 as [? _]. }
  destruct (_ =? 1)%nat; [done|].
  destruct (split_eq (String c0 s')) as [[o1 e1]|] eqn:Hs.
  - destruct (assoc o1 _) as [a1|] eqn:Ha1.
    { intros H. simplify_eq. by apply assoc_parser in Ha1 as [? _]. }
    destruct (get_option_tuples parser (String c0 s')) as [|[[a2 o2] e2] [|? ?]] eqn:Hg.
    + by repeat case_match.
    + intros H. simplify_eq.
      apply (get_option_tuples_In parser (String c0 s') o a e). rewrite Hg. by left.
    + done.
  - destruct (get_option_tuples parser (String c0 s')) as [|[[a2 o2] e2] [|? ?]] eqn:Hg.
    + by repeat case_match.
    + intros H. simplify_eq.
      apply (get_option_tuples_In parser (String c0 s') o a e). rewrite Hg. by left.
    + done.
Qed.

Lemma classify_patterns (parser : list Action) (R : Action → Prop)
    (arg_strings : list string) :
  ∀ pats,
    Forall (λ s, ∀ a o e, parse_optional parser s = Optional a o e → R a)
      arg_strings →
    classify parser arg_strings = Some pats →
    Forall (pattern_in R) pats.
Proof.
  induction arg_strings as [|s rest IH]; intros pats HR Hc; simpl in Hc.
  - by simplify_eq.
  - inversion HR as [|? ? Hs Hrest]; subst.
    destruct (String.eqb s "--").
    { simplify_eq. constructor; [done|].
      apply Forall_forall. intros pat Hin.
      apply list_elem_of_In, in_map_iff in Hin as (? & <- & _). done. }
    destruct (parse_optional parser s) as [|a o e| |] eqn:Hp; [| | |done];
      (destruct (classify parser rest) as [pats'|]; [|done]);
      simpl in Hc; simplify_eq; constructor; eauto; simpl; eauto.
Qed.

Lemma check_unseen_keeps (I : gmap string value → Prop) (actions : list Action) :
  ∀ st req st' req',
    (∀ a, In a actions → default_keeps I a) →
    I (namespace st) →
    check_unseen actions st req = Some (st', req') →
    I (namespace st').
Proof.
  induction actions as [|a rest IH]; intros st req st' req' Hk HI Hc; simpl in Hc.
  - by simplify_eq.
  - assert (Hrest : ∀ a', In a' rest → default_keeps I a') by (intros; apply Hk; by right).
    case_decide; [by eapply IH|].
    destruct (required a); [by eapply IH|].
    destruct (kind a) as [type| |] eqn:Hkind; [|by eapply IH..].
    destruct (default a) as [[| | | |s|]|] eqn:Hd; try by eapply IH.
    destruct (dest a) as [d|] eqn:Hdest; [|by eapply IH].
    destruct (type s) as [v|] eqn:Hv; [|done].
    eapply IH; [done| |exact Hc]. simpl.
    eapply (Hk a); eauto. by left.
Qed.

(** A property of namespaces that holds of the defaults and is kept by the
    actions that the command line can trigger holds of the parsed
    arguments. *)
Lemma parse_args_keeps (parser : list Action) (I : gmap string value → Prop)
    (R : Action → Prop) (arg_strings : list string) (args : gmap string value) :
  I (default_namespace parser) →
  (∀ a, R a → keeps I a) →
  (∀ c a, assoc (String "-" (String c "")) (option_string_actions parser) = Some a →
          R a) →
  (∀ a, In a parser → default_keeps I a) →
  Forall (λ s, ∀ a o e, parse_optional parser s = Optional a o e → R a)
    arg_strings →
  parse_args parser arg_strings = Parsed args →
  I args.
Proof.
  intros H0 Hkeeps Hshort Hdef Hargs. unfold parse_args.
  destruct (classify parser arg_strings) as [pats|] eqn:Hc; [|done].
  destruct (consume parser _ pats) as [st|] eqn:Hcons; [|done].
  destruct (check_unseen parser st []) as [[st' req]|] eqn:Hu; [|done].
  destruct req; [|done]. destruct (extras st'); [|done].
  intros H. simplify_eq.
  eapply check_unseen_keeps; [exact Hdef| |exact Hu].
  eapply (consume_keeps parser I R); [done|done| | |exact Hcons]; [|done].
  eapply classify_patterns; eauto.
Qed.

End ArgparseParse.

Section ArgparseDest.

Import Argparse.

Variable parser : list Action.
Variable k : string.

Lemma take_action_namespace (st st' : pstate) (a : Action) (args : list string) :
  take_action st a args = inl st' →
  namespace st' = namespace st ∨
  ∃ v, dest a = Some (dest_key a) ∧ namespace st' = <[dest_key a := v]> (namespace st) ∧
       (kind a = StoreTrue → v = VBool true).
Proof.
  unfold take_action. destruct (get_values a args) as [v|]; [|done].
  destruct (kind a) eqn:Hk, (dest a) as [d|] eqn:Hd; intros H; simplify_eq; simpl;
    try (by left); right; unfold dest_key; rewrite Hd; simpl; eauto.
  exists v. by split_and!.
Qed.

(** An action with another [dest] leaves the value under [k] alone. *)
Lemma keeps_other (v : value) (a : Action) :
  dest a ≠ Some k → keeps (λ ns, ns !! k = Some v) a.
Proof.
  intros Hd st args st' HI Ht.
  apply take_action_namespace in Ht as [->|(w & Hda & -> & _)]; [done|].
  rewrite lookup_insert_ne; [done|]. congruence.
Qed.

(** A [store_true] action keeps a [True] under [k]. *)
Lemma keeps_store_true (a : Action) :
  (dest a = Some k → kind a = StoreTrue) →
  keeps (λ ns, ns !! k = Some (VBool true)) a.
Proof.
  intros Hd st args st' HI Ht.
  apply take_action_namespace in Ht as [->|(w & Hda & -> & Hw)]; [done|].
  destruct (decide (dest_key a = k)) as [Heq|Hne].
  - rewrite Heq, lookup_insert_eq. f_equal. apply Hw, Hd. congruence.
  - by rewrite lookup_insert_ne.
Qed.

(** No action removes an attribute. *)
Lemma keeps_is_Some (a : Action) : keeps (λ ns, is_Some (ns !! k)) a.
Proof.
  intros st args st' HI Ht.
  apply take_action_namespace in Ht as [->|(w & Hda & -> & _)]; [done|].
  rewrite lookup_insert_is_Some. destruct (decide (dest_key a = k)); auto.
Qed.

(** A flag that every action stores as [store_true] and whose default is
    [True] is [True] in whatever [parse_args] returns. *)
Lemma store_true_flag_true (arg_strings : list string) (args : gmap string value) :
  default_namespace parser !! k = Some (VBool true) →
  (∀ a, In a parser → dest a = Some k → kind a = StoreTrue) →
  parse_args parser arg_strings = Parsed args →
  args !! k = Some (VBool true).
Proof.
  intros H0 Hflag.
  apply (parse_args_keeps parser (λ ns, ns !! k = Some (VBool true))
           (λ a, In a parser)); [done|..].
  - intros a Ha. apply keeps_store_true. auto.
  - intros c a Ha. by apply assoc_parser in Ha as [? _].
  - intros a Ha type s d v ns Hk Hdef Hd Hv HI.
    destruct (decide (d = k)) as [->|Hne].
    + specialize (Hflag a Ha Hd). congruence.
    + by rewrite lookup_insert_ne.
  - apply Forall_forall. intros s _ a o e Hp. by apply parse_optional_In in Hp.
Qed.

(** An attribute with a default is present in whatever [parse_args]
    returns. *)
Lemma parsed_attribute_present (arg_strings : list string)
    (args : gmap string value) :
  is_Some (default_namespace parser !! k) →
  parse_args parser arg_strings = Parsed args →
  is_Some (args !! k).
Proof.
  intros H0.
  apply (parse_args_keeps parser (λ ns, is_Some (ns !! k)) (λ _, True)); [done|..].
  - intros a _. apply keeps_is_Some.
  - done.
  - intros a Ha type s d v ns Hk Hdef Hd Hv HI.
    rewrite lookup_insert_is_Some. destruct (decide (d = k)); auto.
  - apply Forall_forall. done.
Qed.

(** When no argument string names an option that stores under [k], and
    that option has neither a single-dash form nor a string default, the
    parsed arguments hold the default under [k]. *)
Lemma dest_untouched (v : value) (arg_strings : list string)
    (args : gmap string value) :
  default_namespace parser !! k = Some v →
  (∀ a, In a parser → dest a = Some k →
        (∀ c, ¬ In (String "-" (String c "")) (option_strings a)) ∧
        (∀ s, default a ≠ Some (VStr s))) →
  Forall (λ s, names_dest parser k s = false) arg_strings →
  parse_args parser arg_strings = Parsed args →
  args !! k = Some v.
Proof.
  intros H0 Hk Hargs.
  apply (parse_args_keeps parser (λ ns, ns !! k = Some v)
           (λ a, In a parser ∧ dest a ≠ Some k)); [done|..].
  - intros a [_ Ha]. by apply keeps_other.
  - intros c a Ha. apply assoc_parser in Ha as [Hin Hc]. split; [done|].
    intros Hd. by destruct (Hk a Hin Hd) as [Hshort _], (Hshort c).
  - intros a Ha type s d w ns Hkind Hdef Hd Hw HI.
    destruct (decide (d = k)) as [->|Hne].
    + by destruct (Hk a Ha Hd) as [_ Hstr], (Hstr s).
    + by rewrite lookup_insert_ne.
  - eapply Forall_impl; [exact Hargs|]. intros s Hs a o e Hp.
    split; [by apply parse_optional_In in Hp|].
    unfold names_dest in Hs. rewrite Hp in Hs.
    by apply bool_decide_eq_false in Hs.
Qed.

End ArgparseDest.

(** ** The command lines of the three scripts *)

Section Scripts.

Import Argparse.

Variable py_int : string → option Z.
Variable py_float : string → option float.
Variable environ : gmap string string.
Variable Wavespeed_new : value → Wavespeed.

Ltac each_action H :=
  unfold generate_image_parser, async_generate_image_parser, async_create_parser,
    add_argument, ArgumentParser, dest_of in H;
  simpl in H;
  repeat (destruct H as [<-|H]; [simpl|]); [..|done].

Lemma take_action_status (st : pstate) (a : Action) (args : list string) (s : Z) :
  take_action st a args = inr s → s = 0%Z ∨ s = 2%Z.
Proof.
  unfold take_action. destruct (get_values a args); [|intros; simplify_eq; auto].
  destruct (kind a), (dest a); intros; simplify_eq; auto.
Qed.

Lemma take_actions_status (tuples : list (Action * list string)) :
  ∀ st s, take_actions st tuples = inr s → s = 0%Z ∨ s = 2%Z.
Proof.
  induction tuples as [|[a args] rest IH]; intros st s H; simpl in H; [done|].
  destruct (take_action st a args) eqn:E; [eauto|].
  simplify_eq. eauto using take_action_status.
Qed.

Lemma consume_status_upto (parser : list Action) (k : nat) :
  ∀ pats st s,
    (length pats ≤ k)%nat → consume parser st pats = inr s → s = 0%Z ∨ s = 2%Z.
Proof.
  induction k as [|k IH]; intros pats st s Hk Hc;
    (destruct pats as [|pat rest]; simpl in Hc, Hk; [done|]); [lia|].
  assert (Hrec : ∀ st1 rest', (length rest' ≤ length rest)%nat →
            consume parser st1 rest' = inr s → s = 0%Z ∨ s = 2%Z).
  { intros st1 rest' Hlen ?. eapply (IH rest'); eauto. lia. }
  destruct pat as [x| |x c]; [by eapply Hrec..|].
  destruct c as [|a o e| |]; [by eapply Hrec| |by eapply Hrec..].
  destruct (consume_optional parser a o e rest) as [[tuples took]|];
    [|simplify_eq; auto].
  destruct (take_actions st tuples) as [st1|s1] eqn:Ht;
    [|simplify_eq; eauto using take_actions_status].
  destruct took, rest as [|pat' rest'];
    (eapply Hrec; [|exact Hc]; simpl; lia).
Qed.

Lemma parse_args_status (parser : list Action) (arg_strings : list string) (s : Z) :
  parse_args parser arg_strings = ParserExit s → s = 0%Z ∨ s = 2%Z.
Proof.
  unfold parse_args.
  destruct (classify parser arg_strings) as [pats|]; [|intros; simplify_eq; auto].
  destruct (consume parser _ pats) as [st|s1] eqn:Hc.
  - destruct (check_unseen parser st []) as [[st' req]|];
      [|intros; simplify_eq; auto].
    destruct req, (extras st'); intros; simplify_eq; auto.
  - intros. simplify_eq. by eapply (consume_status_upto parser (length pats)).
Qed.

(** ** The exit status of the parser *)

Section ArgparseHelp.

Import Argparse.

Variable parser : list Action.

Lemma take_action_exit (st : pstate) (a : Action) (args : list string) (s : Z) :
  take_action st a args = inr s → s = 2%Z ∨ (s = 0%Z ∧ kind a = Help).
Proof.
  unfold take_action. destruct (get_values a args); [|intros; simplify_eq; auto].
  destruct (kind a), (dest a); intros; simplify_eq; auto.
Qed.

(** Behind a long option an explicit argument is the argument of that
    option, or an error. *)
Lemma consume_explicit_long (a : Action) (o e : string) (rest : list pattern)
    (acc tuples : list (Action * list string)) (took : bool) :
  second_is_dash o = true →
  consume_explicit parser a o e rest acc = Some (tuples, took) →
  tuples = acc ++ [(a, [e])].
Proof.
  intros Ho H. destruct e as [|c tail]; simpl in H; destruct (nargs a);
    rewrite ?Ho in H; by simplify_eq.
Qed.

Lemma consume_optional_long (a : Action) (o : string) (e : option string)
    (rest : list pattern) (tuples : list (Action * list string)) (took : bool) :
  second_is_dash o = true →
  consume_optional parser a o e rest = Some (tuples, took) →
  ∃ args, tuples = [(a, args)].
Proof.
  intros Ho H. unfold consume_optional in H. destruct e as [e|].
  - apply consume_explicit_long in H; [|done]. eauto.
  - destruct (match_following a rest) as [[args tk]|]; [|done].
    simplify_eq. eauto.
Qed.

(** Without the help among its options, and with long options only, the
    second pass can only exit with status 2. *)
Lemma consume_usage_error_upto (k : nat) :
  ∀ pats st s,
    (length pats ≤ k)%nat →
    Forall (pattern_with (λ a o, kind a ≠ Help ∧ second_is_dash o = true)) pats →
    consume parser st pats = inr s → s = 2%Z.
Proof.
  induction k as [|k IH]; intros pats st s Hk HQ Hc;
    (destruct pats as [|pat rest]; simpl in Hc, Hk; [done|]); [lia|].
  inversion HQ as [|? ? Hpat Hrest]; subst.
  assert (Hrec : ∀ st1 rest', (length rest' ≤ length rest)%nat →
            Forall (pattern_with (λ a o, kind a ≠ Help ∧ second_is_dash o = true))
              rest' →
            consume parser st1 rest' = inr s → s = 2%Z).
  { intros st1 rest' Hlen ? ?. eapply (IH rest'); eauto. lia. }
  destruct pat as [x| |x c]; [by eapply Hrec..|].
  destruct c as [|a o e| |]; [by eapply Hrec| |by eapply Hrec..].
  simpl in Hpat. destruct Hpat as [Hkind Ho].
  destruct (consume_optional parser a o e rest) as [[tuples took]|] eqn:Hopt;
    [|by simplify_eq].
  apply consume_optional_long in Hopt as [args ->]; [|done].
  simpl in Hc.
  destruct (take_action st a args) as [st1|s1] eqn:Ht.
  - destruct took, rest as [|pat' rest'];
      try (eapply (Hrec st1 _); [|done|exact Hc]; simpl; lia).
    inversion Hrest; subst.
    eapply (Hrec st1 rest'); [simpl; lia|done|exact Hc].
  - simplify_eq. by apply take_action_exit in Ht as [?|[_ ?]].
Qed.

Lemma get_option_tuples_option (s o : string) (a : Action) (e : option string) :
  In (a, o, e) (get_option_tuples parser s) → In (o, a) (option_string_actions parser).
Proof.
  unfold get_option_tuples. intros H.
  destruct (second_is_dash s).
  - destruct (match split_eq s with Some (p, e0) => (p, Some e0) | None => (s, None) end)
      as [option_prefix explicit_arg].
    apply list_elem_of_In, list_elem_of_omap in H as ([o' a'] & Hin & Heq).
    destruct (String.prefix option_prefix o'); [|done]. simplify_eq.
    by apply list_elem_of_In in Hin.
  - apply list_elem_of_In, list_elem_of_omap in H as ([o' a'] & Hin & Heq).
    apply list_elem_of_In in Hin.
    destruct (String.eqb o' _); [by simplify_eq|].
    destruct (String.prefix s o'); by simplify_eq.
Qed.

(** The option string that [_parse_optional] returns with an action is one
    of the option strings of that action. *)
Lemma parse_optional_option (s o : string) (a : Action) (e : option string) :
  parse_optional parser s = Optional a o e → In (o, a) (option_string_actions parser).
Proof.
  unfold parse_optional. destruct s as [|c0 s']; [done|].
  destruct (negb (Ascii.eqb c0 "-")); [done|].
  destruct (assoc (String c0 s') _) as [a0|] eqn:Ha0.
  { intros H. simplify_eq. by apply assoc_In. }
  destruct (_ =? 1)%nat; [done|].
  destruct (split_eq (String c0 s')) as [[o1 e1]|] eqn:Hs.
  - destruct (assoc o1 _) as [a1|] eqn:Ha1.
    { intros H. simplify_eq. by apply assoc_In. }
    destruct (get_option_tuples parser (String c0 s')) as [|[[a2 o2] e2] [|? ?]] eqn:Hg.
    + by repeat case_match.
    + intros H. simplify_eq.
      apply (get_option_tuples_option (String c0 s') o a e). rewrite Hg. by left.
    + done.
  - destruct (get_option_tuples parser (String c0 s')) as [|[[a2 o2] e2] [|? ?]] eqn:Hg.
    + by repeat case_match.
    + intros H. simplify_eq.
      apply (get_option_tuples_option (String c0 s') o a e). rewrite Hg. by left.
    + done.
Qed.

Lemma classify_patterns_with (Q : Action → string → Prop)
    (arg_strings : list string) :
  ∀ pats,
    Forall (λ s, ∀ a o e, parse_optional parser s = Optional a o e → Q a o)
      arg_strings →
    classify parser arg_strings = Some pats →
    Forall (pattern_with Q) pats.
Proof.
  induction arg_strings as [|s rest IH]; intros pats HQ Hc; simpl in Hc.
  - by simplify_eq.
  - inversion HQ as [|? ? Hs Hrest]; subst.
    destruct (String.eqb s "--").
    { simplify_eq. constructor; [done|].
      apply Forall_forall. intros pat Hin.
      apply list_elem_of_In, in_map_iff in Hin as (? & <- & _). done. }
    destruct (parse_optional parser s) as [|a o e| |] eqn:Hp; [| | |done];
      (destruct (classify parser rest) as [pats'|]; [|done]);
      simpl in Hc; simplify_eq; constructor; eauto; simpl; eauto.
Qed.

(** A parser whose only single-dash option is the help exits with status
    2, unless the command line asks for the help: then the status is 0 or
    2. *)
Lemma parse_args_usage_status (arg_strings : list string) (s : Z) :
  (∀ o a, In (o, a) (option_string_actions parser) →
          kind a ≠ Help → second_is_dash o = true) →
  parse_args parser arg_strings = ParserExit s →
  usage_status (existsb (asks_help parser) arg_strings) s.
Proof.
  intros Hlong Hp. unfold usage_status.
  destruct (existsb (asks_help parser) arg_strings) eqn:Hhelp.
  { apply parse_args_status in Hp as [->| ->]; auto. }
  left. revert Hp. unfold parse_args.
  destruct (classify parser arg_strings) as [pats|] eqn:Hc;
    [|intros; by simplify_eq].
  destruct (consume parser _ pats) as [st|s1] eqn:Hcons.
  - destruct (check_unseen parser st []) as [[st' req]|];
      [|intros; by simplify_eq].
    destruct req, (extras st'); intros; by simplify_eq.
  - intros. simplify_eq.
    eapply (consume_usage_error_upto (length pats)); [done| |exact Hcons].
    eapply classify_patterns_with; [|exact Hc].
    apply Forall_forall. intros x Hx a o e Hopt.
    assert (Hk : kind a ≠ Help).
    { intros Hk.
      assert (existsb (asks_help parser) arg_strings = true) as Hex; [|congruence].
      apply existsb_exists. exists x. split; [by apply list_elem_of_In in Hx|].
      unfold asks_help. by rewrite Hopt, Hk. }
    split; [done|]. eapply Hlong; [|done]. by eapply parse_optional_option.
Qed.

End ArgparseHelp.

(** An entry point whose parsed arguments never hold an API key ends at
    startup. *)
Lemma main_with_without_key (parser : list Action)
    (job : Wavespeed → gmap string value → M unit) (argv : list string) :
  (∀ o a, In (o, a) (option_string_actions parser) →
          kind a ≠ Help → second_is_dash o = true) →
  (∀ args, parse_args parser argv = Parsed args → args !! "api_key" = Some VNone) →
  exits_at_startup (existsb (asks_help parser) argv) (parse_args parser argv)
    (main_with Wavespeed_new parser job argv).
Proof.
  intros Hlong Hkey. unfold exits_at_startup, main_with.
  destruct (parse_args parser argv) as [args|status] eqn:Hp.
  - unfold mbind, M_bind, bind, getattr. by rewrite (Hkey args eq_refl).
  - split; [done|]. by eapply parse_args_usage_status.
Qed.

(** In the three scripts every option but the help is a long one. *)
Lemma script_options_long (parser : list Action) (o : string) (a : Action) :
  In parser [ generate_image_parser py_int py_float environ;
              async_generate_image_parser py_int py_float environ;
              async_create_parser py_int py_float environ ] →
  In (o, a) (option_string_actions parser) →
  kind a ≠ Help → second_is_dash o = true.
Proof.
  intros Hparser Hin Hk.
  destruct Hparser as [<-|[<-|[<-|[]]]];
    unfold generate_image_parser, async_generate_image_parser, async_create_parser,
      add_argument, ArgumentParser, dest_of, option_string_actions in Hin;
    simpl in Hin;
    repeat (destruct Hin as [Hin|Hin]; [by simplify_eq|]); done.
Qed.

(** The dictionary of a request gets built from arguments that have the
    eight attributes, and its safety field is [args.safety]. *)
Lemma input_of_built (args : gmap string value) :
  is_Some (args !! "prompt") → is_Some (args !! "strength") →
  is_Some (args !! "size") → is_Some (args !! "steps") →
  is_Some (args !! "guidance") → is_Some (args !! "num_images") →
  is_Some (args !! "seed") → is_Some (args !! "safety") →
  ∃ input, final_result (input_of args) = Return input ∧
           input !! "enable_safety_checker" = args !! "safety".
Proof.
  intros [v1 H1] [v2 H2] [v3 H3] [v4 H4] [v5 H5] [v6 H6] [v7 H7] [v8 H8].
  unfold final_result, input_of, mbind, M_bind, bind, getattr.
  rewrite H1, H2, H3, H4, H5, H6, H7, H8. simpl.
  eexists. split; [reflexivity|]. reflexivity.
Qed.

Ltac flag_true :=
  apply store_true_flag_true;
  [ reflexivity
  | let H := fresh in intros ? H; each_action H; congruence ].

Lemma parsed_input (parser : list Action) (argv : list string)
    (args : gmap string value) :
  default_namespace parser !! "prompt" = Some VNone →
  is_Some (default_namespace parser !! "strength") →
  is_Some (default_namespace parser !! "size") →
  is_Some (default_namespace parser !! "steps") →
  is_Some (default_namespace parser !! "guidance") →
  is_Some (default_namespace parser !! "num_images") →
  is_Some (default_namespace parser !! "seed") →
  default_namespace parser !! "safety" = Some (VBool true) →
  (∀ a, In a parser → dest a = Some "safety" → kind a = StoreTrue) →
  parse_args parser argv = Parsed args →
  args !! "safety" = Some (VBool true) ∧
  ∃ input, final_result (input_of args) = Return input ∧
           input !! "enable_safety_checker" = Some (VBool true).
Proof.
  intros H1 H2 H3 H4 H5 H6 H7 H8 Hflag Hp.
  assert (Hs : args !! "safety" = Some (VBool true))
    by (eapply store_true_flag_true; eauto).
  split; [done|].
  destruct (input_of_built args) as (input & Hi & Hi');
    try (eapply parsed_attribute_present; [|exact Hp]; eauto; by rewrite ?H1, ?H8).
  exists input. by rewrite Hi', Hs.
Qed.

(** C8.  Whatever the command line, the arguments that each of the three
    scripts parses have [safety] equal to [True], so that the request
    dictionary built from them has [enable_safety_checker] equal to [True],
    and in async_create_generate_image.py [poll] is [True] as well: both
    flags are [store_true] actions whose default is [True]. *)
Theorem safety_and_poll_flags_always_true (argv : list string)
    (args : gmap string value) :
  (parse_args (generate_image_parser py_int py_float environ) argv = Parsed args ∨
   parse_args (async_generate_image_parser py_int py_float environ) argv = Parsed args ∨
   parse_args (async_create_parser py_int py_float environ) argv = Parsed args →
   args !! "safety" = Some (VBool true) ∧
   ∃ input, final_result (input_of args) = Return input ∧
            input !! "enable_safety_checker" = Some (VBool true)) ∧
  (parse_args (async_create_parser py_int py_float environ) argv = Parsed args →
   args !! "poll" = Some (VBool true)).
Proof.
  split.
  - intros [Hp|[Hp|Hp]]; (eapply parsed_input; [..|exact Hp]);
      try reflexivity; try (by eexists);
      (let H := fresh in intros ? H; each_action H; congruence).
  - flag_true.
Qed.

Ltac no_key Henv :=
  apply main_with_without_key;
  [intros o a; apply script_options_long; simpl; tauto|];
  intros args;
  apply dest_untouched;
  [ unfold generate_image_parser, async_generate_image_parser,
      async_create_parser, environ_get;
    rewrite Henv; reflexivity
  | let H := fresh in
    intros ? H; each_action H; try congruence;
    intros _; split;
    [ intros c [Hc|[]]; discriminate
    | intros s; unfold environ_get; rewrite Henv; discriminate ]
  | done ].

(** C6, as amended.  When neither the environment nor the command line
    gives an API key, each entry point ends at startup: either argparse ends
    the process while it parses the command line, with status 2 for a usage
    error and with status 0 only if the command line asks for the help, or
    the script prints that the API key is required and exits with status 1.
    In both cases no client has been made and no request sent: the trace
    holds at most that one message. *)
Theorem missing_api_key_exits_at_startup (fuel : nat) (argv : list string) :
  environ !! "WAVESPEED_API_KEY" = None →
  (Forall (λ s, names_dest (generate_image_parser py_int py_float environ)
                  "api_key" s = false) argv →
   exits_at_startup
     (existsb (asks_help (generate_image_parser py_int py_float environ)) argv)
     (parse_args (generate_image_parser py_int py_float environ) argv)
     (generate_image_main py_int py_float Wavespeed_new environ argv)) ∧
  (Forall (λ s, names_dest (async_generate_image_parser py_int py_float environ)
                  "api_key" s = false) argv →
   exits_at_startup
     (existsb (asks_help (async_generate_image_parser py_int py_float environ)) argv)
     (parse_args (async_generate_image_parser py_int py_float environ) argv)
     (async_generate_image_main py_int py_float Wavespeed_new environ argv)) ∧
  (Forall (λ s, names_dest (async_create_parser py_int py_float environ)
                  "api_key" s = false) argv →
   exits_at_startup
     (existsb (asks_help (async_create_parser py_int py_float environ)) argv)
     (parse_args (async_create_parser py_int py_float environ) argv)
     (async_create_main py_int py_float Wavespeed_new fuel environ argv)).
Proof.
  intros Henv. split_and!; intros Hargs.
  - unfold generate_image_main. no_key Henv.
  - unfold async_generate_image_main. no_key Henv.
  - unfold async_create_main. no_key Henv.
Qed.

End Scripts.

(** Reading [exits_at_startup] once the outcome of the parser is known. *)
Lemma exits_at_startup_parsed (help : bool) (r : Argparse.parse_result)
    (m : M unit) (args : gmap string value) :
  r = Argparse.Parsed args → exits_at_startup help r m →
  m 0 = ([EPrint MsgApiKeyRequired], 0, SystemExit 1).
Proof. by intros ->. Qed.

Lemma exits_at_startup_exit (help : bool) (r : Argparse.parse_result)
    (m : M unit) (status : Z) :
  r = Argparse.ParserExit status → exits_at_startup help r m →
  m 0 = ([], 0, SystemExit status) ∧ usage_status help status.
Proof. by intros ->. Qed.

(** * Concrete runs *)

Ltac find_in := repeat first [left; reflexivity | right].

(** C1 at a stub transport: the created job, reloaded three times with
    the second reload failing, and the job that [run] returns. *)
Lemma job_fields_invariant_witness :
  (JobSpec.create sample_transport sample_spec_client "wavespeed-ai/flux-dev" ∅
     fresh_world =
     ({| JobSpec.log := [JobSpec.CreateRequest "wavespeed-ai/flux-dev" ∅];
         JobSpec.checks := 0 |}, inr processing_job) ∧
   JobSpec.well_formed
     (JobSpec.reloads 3 sample_transport processing_job
        {| JobSpec.log := [JobSpec.CreateRequest "wavespeed-ai/flux-dev" ∅];
           JobSpec.checks := 0 |}).2) ∧
  (∃ w j,
     JobSpec.run 5 steady_transport sample_spec_client "wavespeed-ai/flux-dev" ∅
       fresh_world = (w, Some (inr j)) ∧
     JobSpec.well_formed (JobSpec.reloads 1 steady_transport j w).2).
Proof.
  split.
  - split; [reflexivity|].
    apply (proj1 (job_fields_invariant sample_transport sample_spec_client
                    "wavespeed-ai/flux-dev" ∅ fresh_world _ processing_job)).
    reflexivity.
  - eexists _, _. split; [reflexivity|].
    eapply (proj2 (job_fields_invariant steady_transport sample_spec_client
                     "wavespeed-ai/flux-dev" ∅ fresh_world _ _) 5).
    reflexivity.
Defined.

(** C5 at a stub transport whose second status check fails. *)
Lemma reload_failure_keeps_state_witness :
  JobSpec.status_answer sample_transport 1 = None ∧
  (let '(_, j', e) := JobSpec.reload sample_transport processing_job
                        {| JobSpec.log := []; JobSpec.checks := 1 |} in
   let '(_, j'', e') := JobSpec.async_reload sample_transport processing_job
                          {| JobSpec.log := []; JobSpec.checks := 1 |} in
   e = Some JobSpec.RequestError ∧ e' = Some JobSpec.RequestError ∧
   j' = processing_job ∧ j'' = processing_job ∧
   JobSpec.job_id j' = JobSpec.job_id processing_job ∧
   JobSpec.job_status j' = JobSpec.job_status processing_job ∧
   JobSpec.job_outputs j' = JobSpec.job_outputs processing_job ∧
   JobSpec.job_error j' = JobSpec.job_error processing_job ∧
   JobSpec.job_urls j' = JobSpec.job_urls processing_job).
Proof.
  split; [reflexivity|].
  apply (reload_failure_keeps_state sample_transport processing_job
           {| JobSpec.log := []; JobSpec.checks := 1 |}).
  reflexivity.
Defined.

(** C7 at a client that was closed before. *)
Lemma close_idempotent_witness :
  JobSpec.closed {| JobSpec.api_key := Some "k"; JobSpec.poll_interval := 1%float;
                    JobSpec.closed := true |} = true ∧
  JobSpec.close {| JobSpec.api_key := Some "k"; JobSpec.poll_interval := 1%float;
                   JobSpec.closed := true |} fresh_world =
    (fresh_world,
     {| JobSpec.api_key := Some "k"; JobSpec.poll_interval := 1%float;
        JobSpec.closed := true |}, None).
Proof.
  split; [reflexivity|].
  apply (proj1 (close_idempotent _ fresh_world)). reflexivity.
Defined.

(** The sample command line parses. *)
Lemma sample_args_parsed :
  Argparse.parse_args (async_create_parser sample_int sample_float ∅)
    ["--prompt"; "cat"; "--api-key"; "k"] = Argparse.Parsed sample_args.
Proof. vm_compute. reflexivity. Qed.

(** C2 on the sample service: the second reload is made on a processing
    job and brings the completed one, and no reload follows it. *)
Lemma reload_only_while_not_terminal_witness :
  let t := trace (async_create_generate_image_py.create_and_poll_image 5
                    (sample_client (VStr "k")) sample_args) in
  In (EReload 1 (sample_prediction "processing" [])) t ∧
  (status (sample_prediction "processing" []) ≠ "completed" ∧
   status (sample_prediction "processing" []) ≠ "error") ∧
  (∃ t1 t2, t = t1 ++ EReload 1 (sample_prediction "processing" []) :: t2 ∧
            reload_events t2 = []).
Proof.
  intros t.
  assert (Hin : In (EReload 1 (sample_prediction "processing" [])) t)
    by (vm_compute; find_in).
  split; [exact Hin|]. split.
  - exact (proj1 (reload_only_while_not_terminal 5 (sample_client (VStr "k"))
                    sample_args) 1%nat (sample_prediction "processing" []) Hin).
  - eexists (firstn 11 t), (skipn 12 t). split; [vm_compute; reflexivity|].
    apply (proj1 (proj2 (proj2 (reload_only_while_not_terminal 5
                    (sample_client (VStr "k")) sample_args)))
             (firstn 11 t) (skipn 12 t) 1%nat (sample_prediction "processing" [])
             (sample_prediction "completed" ["https://img.example/1.png"])).
    + vm_compute. reflexivity.
    + reflexivity.
    + by left.
Defined.

(** The request dictionary of the sample arguments. *)
Lemma sample_input :
  ∃ input, final_result (input_of sample_args) = Return input.
Proof. eexists. vm_compute. reflexivity. Qed.

(** C3 on the sample service (processing, processing, completed) and on
    the matching stub transport of the specification: two rounds. *)
Lemma reload_preceded_by_one_wait_witness :
  polls (trace (async_create_generate_image_py.create_and_poll_image 2
                  (sample_client (VStr "k")) sample_args)) =
    [ ESleep 1%float; EReload 0 (sample_prediction "processing" []);
      ESleep 1%float; EReload 1 (sample_prediction "processing" []) ] ∧
  JobSpec.log (JobSpec.run 2 steady_transport sample_spec_client
                 "wavespeed-ai/flux-dev" ∅ fresh_world).1 =
    [ JobSpec.CreateRequest "wavespeed-ai/flux-dev" ∅;
      JobSpec.Wait 1%float; JobSpec.StatusRequest "job-1";
      JobSpec.Wait 1%float; JobSpec.StatusRequest "job-1" ].
Proof.
  split.
  - eapply (proj1 (proj2 reload_preceded_by_one_wait) 0%nat
              (sample_client (VStr "k")) sample_args (VStr "cat") (VBool true));
      try reflexivity; vm_compute; reflexivity.
  - apply (proj2 (proj2 (proj2 reload_preceded_by_one_wait)) 0%nat steady_transport
             sample_spec_client "wavespeed-ai/flux-dev" ∅ fresh_world "k" "job-1"
             ∅ ∅ ∅ ["https://img.example/1.png"]); reflexivity.
Defined.

(** C4 on a service whose creation call returns a completed job, and on
    the matching stub transport of the specification. *)
Lemma completed_at_creation_needs_no_reload_witness :
  polls (trace (async_create_generate_image_py.create_and_poll_image 0
                  instant_client sample_args)) = [] ∧
  final_result (async_create_generate_image_py.create_and_poll_image 0
                  instant_client sample_args) = Return tt ∧
  ∃ j, JobSpec.run 0 instant_transport sample_spec_client
         "wavespeed-ai/flux-dev" ∅ fresh_world =
         ({| JobSpec.log := [JobSpec.CreateRequest "wavespeed-ai/flux-dev" ∅];
             JobSpec.checks := 0 |}, Some (inr j)) ∧
       JobSpec.job_outputs j = ["https://img.example/1.png"].
Proof.
  destruct sample_input as [input Hi].
  destruct (proj1 completed_at_creation_needs_no_reload 0%nat instant_client
              sample_args (VStr "cat") (VBool true) input
              (sample_prediction "completed" ["https://img.example/1.png"]))
    as (_ & H1 & H2); try reflexivity; [exact Hi|].
  split; [exact H1|]. split; [exact H2|].
  destruct (proj2 completed_at_creation_needs_no_reload 0%nat instant_transport
              sample_spec_client "wavespeed-ai/flux-dev" ∅ fresh_world "k" "job-1"
              ∅ ["https://img.example/1.png"]) as (j & Hr & _ & Ho);
    try reflexivity.
  exists j. split; [exact Hr|exact Ho].
Defined.

(** C9 on a service whose jobs stay "failed": three iterations granted,
    three waits and three reloads made, and the function has not ended. *)
Lemma loop_exits_only_on_completed_or_error_witness :
  final_result (async_create_generate_image_py.create_and_poll_image 3
                  stuck_client sample_args) = OutOfFuel ∧
  length (reload_events (trace (async_create_generate_image_py.create_and_poll_image 3
                                  stuck_client sample_args))) = 3 ∧
  length (List.filter is_sleep
            (trace (async_create_generate_image_py.create_and_poll_image 3
                      stuck_client sample_args))) = 3.
Proof.
  destruct sample_input as [input Hi].
  assert (Hs : ∀ k q, ∃ q', async_reload stuck_client k q = inr q' ∧
                            status q' ≠ "completed" ∧ status q' ≠ "error")
    by (intros; eexists; split; [reflexivity|split; discriminate]).
  apply (proj2 (proj2 (proj2 loop_exits_only_on_completed_or_error) stuck_client Hs)
           3%nat sample_args (VStr "cat") (VBool true) input
           (sample_prediction "failed" []));
    try reflexivity; try exact Hi; discriminate.
Defined.

(** C8 on the sample command line. *)
Lemma safety_and_poll_flags_always_true_witness :
  Argparse.parse_args (async_create_parser sample_int sample_float ∅)
    ["--prompt"; "cat"; "--api-key"; "k"] = Argparse.Parsed sample_args ∧
  (sample_args !! "safety" = Some (VBool true) ∧
   ∃ input, final_result (input_of sample_args) = Return input ∧
            input !! "enable_safety_checker" = Some (VBool true)) ∧
  sample_args !! "poll" = Some (VBool true).
Proof.
  split; [exact sample_args_parsed|]. split.
  - apply (proj1 (safety_and_poll_flags_always_true sample_int sample_float ∅
                    ["--prompt"; "cat"; "--api-key"; "k"] sample_args)).
    right. right. exact sample_args_parsed.
  - apply (proj2 (safety_and_poll_flags_always_true sample_int sample_float ∅
                    ["--prompt"; "cat"; "--api-key"; "k"] sample_args)).
    exact sample_args_parsed.
Defined.

(** C6 as amended, with an empty environment.  On [--prompt -٣] the
    command line parses, the negative number being the prompt, and the
    script exits with status 1 after its message; on [--size 512*512],
    which lacks the prompt and does not ask for the help, argparse ends the
    process with status 2. *)
Lemma missing_api_key_exits_at_startup_witness :
  (∅ : gmap string string) !! "WAVESPEED_API_KEY" = None ∧
  Forall (λ s, names_dest (generate_image_parser sample_int sample_float ∅)
                 "api_key" s = false) ["--prompt"; "-٣"] ∧
  generate_image_main sample_int sample_float sample_client ∅ ["--prompt"; "-٣"] 0 =
    ([EPrint MsgApiKeyRequired], 0, SystemExit 1) ∧
  Forall (λ s, names_dest (generate_image_parser sample_int sample_float ∅)
                 "api_key" s = false) ["--size"; "512*512"] ∧
  generate_image_main sample_int sample_float sample_client ∅
    ["--size"; "512*512"] 0 = ([], 0, SystemExit 2).
Proof.
  assert (Henv : (∅ : gmap string string) !! "WAVESPEED_API_KEY" = None)
    by reflexivity.
  assert (Hargs : Forall (λ s, names_dest (generate_image_parser sample_int
                                sample_float ∅) "api_key" s = false)
                    ["--prompt"; "-٣"])
    by (repeat (constructor; [vm_compute; reflexivity|]); constructor).
  assert (Hargs' : Forall (λ s, names_dest (generate_image_parser sample_int
                                 sample_float ∅) "api_key" s = false)
                     ["--size"; "512*512"])
    by (repeat (constructor; [vm_compute; reflexivity|]); constructor).
  pose proof (proj1 (missing_api_key_exits_at_startup sample_int sample_float ∅
                       sample_client 0 ["--prompt"; "-٣"] Henv) Hargs) as H.
  pose proof (proj1 (missing_api_key_exits_at_startup sample_int sample_float ∅
                       sample_client 0 ["--size"; "512*512"] Henv) Hargs') as H'.
  assert (Hp : Argparse.parse_args (generate_image_parser sample_int sample_float ∅)
                 ["--prompt"; "-٣"] =
               Argparse.Parsed
                 (match Argparse.parse_args
                          (generate_image_parser sample_int sample_float ∅)
                          ["--prompt"; "-٣"] with
                  | Argparse.Parsed args => args
                  | Argparse.ParserExit _ => ∅
                  end))
    by (vm_compute; reflexivity).
  assert (Hp' : Argparse.parse_args (generate_image_parser sample_int sample_float ∅)
                  ["--size"; "512*512"] = Argparse.ParserExit 2)
    by (vm_compute; reflexivity).
  split; [exact Henv|]. split; [exact Hargs|].
  split; [exact (exits_at_startup_parsed _ _ _ _ Hp H)|].
  split; [exact Hargs'|]. exact (proj1 (exits_at_startup_exit _ _ _ _ Hp' H')).
Defined.

(** C6 as stated fails on [--help]: with no API key anywhere the process
    ends inside argparse with status 0, which is no failure. *)
Lemma missing_api_key_help_exits_with_status_0 :
  (∅ : gmap string string) !! "WAVESPEED_API_KEY" = None ∧
  Forall (λ s, names_dest (generate_image_parser sample_int sample_float ∅)
                 "api_key" s = false) ["--help"] ∧
  generate_image_main sample_int sample_float sample_client ∅ ["--help"] 0 =
    ([], 0, SystemExit 0) ∧
  ¬ ∃ code, code ≠ 0%Z ∧
      final_result (generate_image_main sample_int sample_float sample_client ∅
                      ["--help"]) = SystemExit code.
Proof.
  split; [reflexivity|]. split; [by repeat constructor|].
  split; [reflexivity|].
  intros (code & Hne & H). vm_compute in H. congruence.
Qed.


(** * Further properties of the scripts *)

Lemma wp_eq {A} (m : M A) (n : nat) (x : list event * nat * result A) :
  wp m n (λ t n' r, (t, n', r) = x) → m n = x.
Proof. unfold wp. by destruct (m n) as [[t n'] r]. Qed.

Lemma wp_input_of_known (args input : gmap string value) (n : nat) Φ :
  final_result (input_of args) = Return input →
  Φ [] n (Return input) → wp (input_of args) n Φ.
Proof. intros H HΦ. unfold wp. by rewrite input_of_eq, H. Qed.

Lemma report_eq (p : Prediction) (n : nat) :
  report p n = (report_events p, n, Return tt).
Proof.
  unfold report, report_events, mbind, M_bind, bind, print, emit. simpl.
  destruct (outputs p) as [|u rest]; [done|].
  by rewrite print_images_eq.
Qed.

Lemma wp_report (p : Prediction) (n : nat) Φ :
  Φ (report_events p) n (Return tt) → wp (report p) n Φ.
Proof. unfold wp. by rewrite report_eq. Qed.

(** Symbolic execution along hypotheses: attributes and dictionaries that
    are known are looked up, the other branches are contradictory. *)
Ltac wp_known :=
  repeat first
    [ eapply wp_input_of_known; [eassumption|]
    | apply wp_report
    | wp_step; try congruence ].

(** ** The two [generate_image] functions *)

Section GenerateImage.

Variable client : Wavespeed.
Variable args : gmap string value.
Variable prompt : value.
Variable input : gmap string value.

Hypothesis args_prompt : args !! "prompt" = Some prompt.
Hypothesis args_input : final_result (input_of args) = Return input.

(** [generate_image] of generate_image.py, according to the outcome of
    [client.run]. *)
Lemma generate_image_eq (n : nat) :
  generate_image_py.generate_image client args n =
    let '(evs, r) :=
      match run client "wavespeed-ai/flux-dev" input with
      | inr p => closing client (report_events p) (Return tt)
      | inl e =>
          if is_Exception e
          then closing client [ELogException e; EPrint (MsgErrorGenerating e)]
                 (SystemExit 1)
          else closing client [] (Raise e)
      end in
    (EPrint (MsgGenerating prompt) :: ERun "wavespeed-ai/flux-dev" input :: evs,
     n, r).
Proof.
  apply wp_eq. unfold generate_image_py.generate_image. wp_known.
  all: simplify_eq; unfold closing;
    repeat match goal with H : _ = _ |- _ => rewrite H end; simpl;
    by rewrite ?app_nil_r.
Qed.

(** [generate_image] of async_generate_image.py, according to the outcome
    of [client.async_run]. *)
Lemma async_generate_image_eq (n : nat) :
  async_generate_image_py.generate_image client args n =
    let '(evs, r) :=
      match async_run client "wavespeed-ai/flux-dev" input with
      | inr p => closing client (report_events p) (Return tt)
      | inl e =>
          if is_Exception e
          then closing client [ELogException e; EPrint (MsgErrorGenerating e)]
                 (SystemExit 1)
          else closing client [] (Raise e)
      end in
    (EPrint (MsgGenerating prompt) :: EAsyncRun "wavespeed-ai/flux-dev" input :: evs,
     n, r).
Proof.
  apply wp_eq. unfold async_generate_image_py.generate_image. wp_known.
  all: simplify_eq; unfold closing;
    repeat match goal with H : _ = _ |- _ => rewrite H end; simpl;
    by rewrite ?app_nil_r.
Qed.

End GenerateImage.

Lemma image_events_imap (outputs : list string) :
  ∀ i, image_events i outputs =
         imap (λ k img_url, EPrint (MsgImage (i + k + 1) img_url)) outputs.
Proof.
  induction outputs as [|u rest IH]; intros i; [done|].
  simpl. rewrite IH. f_equal; [by rewrite Nat.add_0_r|].
  apply imap_ext. intros k x _. simpl. do 2 f_equal. lia.
Qed.

(** X1.  When [client.run] (or [client.async_run]) raises, [generate_image]
    prints no result.  An [Exception] is logged, reported as "Error
    generating image", and turned into [sys.exit(1)]; any other exception
    propagates unlogged.  In both cases the client is closed last, and a
    failure of [close] is what the function ends with. *)
Theorem run_failure_is_reported (client : Wavespeed) (args : gmap string value)
    (prompt : value) (input : gmap string value) (e : exn) :
  args !! "prompt" = Some prompt →
  final_result (input_of args) = Return input →
  (run client "wavespeed-ai/flux-dev" input = inl e →
   generate_image_py.generate_image client args 0 =
     (EPrint (MsgGenerating prompt) :: ERun "wavespeed-ai/flux-dev" input ::
      (if is_Exception e
       then [ELogException e; EPrint (MsgErrorGenerating e); EClose]
       else [EClose]),
      0,
      match close client with
      | Some e' => Raise e'
      | None => if is_Exception e then SystemExit 1 else Raise e
      end)) ∧
  (async_run client "wavespeed-ai/flux-dev" input = inl e →
   async_generate_image_py.generate_image client args 0 =
     (EPrint (MsgGenerating prompt) :: EAsyncRun "wavespeed-ai/flux-dev" input ::
      (if is_Exception e
       then [ELogException e; EPrint (MsgErrorGenerating e); EClose]
       else [EClose]),
      0,
      match close client with
      | Some e' => Raise e'
      | None => if is_Exception e then SystemExit 1 else Raise e
      end)).
Proof.
  intros Hp Hi. split; intros Hr.
  - rewrite (generate_image_eq client args prompt input Hp Hi), Hr.
    unfold closing. by destruct (is_Exception e), (close client).
  - rewrite (async_generate_image_eq client args prompt input Hp Hi), Hr.
    unfold closing. by destruct (is_Exception e), (close client).
Qed.

(** X2.  When [client.run] (or [client.async_run]) returns a prediction,
    [generate_image] prints the success lines and the prediction, then, only
    if there are outputs, a header and one line per output, numbered from 1
    in the order of [prediction.outputs]; it closes the client last and
    returns normally unless [close] raises. *)
Theorem run_success_is_printed (client : Wavespeed) (args : gmap string value)
    (prompt : value) (input : gmap string value) (p : Prediction) :
  args !! "prompt" = Some prompt →
  final_result (input_of args) = Return input →
  (run client "wavespeed-ai/flux-dev" input = inr p →
   generate_image_py.generate_image client args 0 =
     ([ EPrint (MsgGenerating prompt); ERun "wavespeed-ai/flux-dev" input;
        EPrint MsgSuccess; EPrint MsgResponse; EPrint (MsgPrediction p) ] ++
      match outputs p with
      | [] => []
      | _ => EPrint MsgGeneratedURLs ::
             imap (λ k img_url, EPrint (MsgImage (k + 1) img_url)) (outputs p)
      end ++ [EClose],
      0,
      match close client with Some e' => Raise e' | None => Return tt end)) ∧
  (async_run client "wavespeed-ai/flux-dev" input = inr p →
   async_generate_image_py.generate_image client args 0 =
     ([ EPrint (MsgGenerating prompt); EAsyncRun "wavespeed-ai/flux-dev" input;
        EPrint MsgSuccess; EPrint MsgResponse; EPrint (MsgPrediction p) ] ++
      match outputs p with
      | [] => []
      | _ => EPrint MsgGeneratedURLs ::
             imap (λ k img_url, EPrint (MsgImage (k + 1) img_url)) (outputs p)
      end ++ [EClose],
      0,
      match close client with Some e' => Raise e' | None => Return tt end)).
Proof.
  intros Hp Hi. split; intros Hr.
  - rewrite (generate_image_eq client args prompt input Hp Hi), Hr.
    unfold closing, report_events. rewrite image_events_imap.
    destruct (outputs p); simpl; by rewrite <- ?app_assoc.
  - rewrite (async_generate_image_eq client args prompt input Hp Hi), Hr.
    unfold closing, report_events. rewrite image_events_imap.
    destruct (outputs p); simpl; by rewrite <- ?app_assoc.
Qed.

(** ** The request dictionary *)

(** Building the dictionary stops at the first attribute, in the order of
    the literal, that [args] lacks. *)
Lemma input_of_first_missing (args : gmap string value)
    (before after : list string) (k : string) :
  input_attributes = before ++ k :: after →
  Forall (λ j, is_Some (args !! j)) before →
  args !! k = None →
  final_result (input_of args) = Raise (AttributeError k).
Proof.
  unfold input_attributes. intros Hl Hb Hk.
  do 8 (destruct before as [|? before]; simpl in Hl;
        [ simplify_eq;
          repeat match goal with
                 | H : Forall _ (_ :: _) |- _ =>
                     apply Forall_cons in H as [[? ?] H]
                 end;
          unfold final_result, input_of, mbind, M_bind, bind, getattr, mret,
            M_ret, ret, raise;
          repeat match goal with
                 | H : args !! _ = _ |- _ => rewrite H; clear H
                 end;
          reflexivity
        | injection Hl as <- Hl ]).
  by destruct before.
Qed.

(** X3.  The [input] dictionary has exactly the eight keys of the literal,
    each holding the attribute of [args] it is read from; nothing else of
    [args] is sent, in particular no [image].  It is built only when [args]
    has all eight attributes: otherwise building it raises the
    [AttributeError] that names the first attribute, in the order of the
    literal, that [args] lacks. *)
Theorem request_fields (args : gmap string value) :
  (∀ input, final_result (input_of args) = Return input →
     dom input = input_keys ∧
     input !! "prompt" = args !! "prompt" ∧
     input !! "strength" = args !! "strength" ∧
     input !! "size" = args !! "size" ∧
     input !! "num_inference_steps" = args !! "steps" ∧
     input !! "guidance_scale" = args !! "guidance" ∧
     input !! "num_images" = args !! "num_images" ∧
     input !! "seed" = args !! "seed" ∧
     input !! "enable_safety_checker" = args !! "safety" ∧
     input !! "image" = None) ∧
  ((∀ k, In k input_attributes → is_Some (args !! k)) →
   ∃ input, final_result (input_of args) = Return input) ∧
  (∀ before k after,
     input_attributes = before ++ k :: after →
     Forall (λ j, is_Some (args !! j)) before →
     args !! k = None →
     final_result (input_of args) = Raise (AttributeError k)).
Proof.
  split_and!; [| |intros before k after Hl Hb Hk;
                   by eapply input_of_first_missing];
    unfold final_result, input_of, mbind, M_bind, bind, getattr, mret, M_ret, ret,
      raise, input_attributes.
  - destruct (args !! "prompt") as [v1|] eqn:H1; [|done].
    destruct (args !! "strength") as [v2|] eqn:H2; [|done].
    destruct (args !! "size") as [v3|] eqn:H3; [|done].
    destruct (args !! "steps") as [v4|] eqn:H4; [|done].
    destruct (args !! "guidance") as [v5|] eqn:H5; [|done].
    destruct (args !! "num_images") as [v6|] eqn:H6; [|done].
    destruct (args !! "seed") as [v7|] eqn:H7; [|done].
    destruct (args !! "safety") as [v8|] eqn:H8; [|done].
    simpl. intros input Hi. simplify_eq. split_and!; reflexivity.
  - intros H.
    destruct (H "prompt") as [v1 ->]; [simpl; tauto|].
    destruct (H "strength") as [v2 ->]; [simpl; tauto|].
    destruct (H "size") as [v3 ->]; [simpl; tauto|].
    destruct (H "steps") as [v4 ->]; [simpl; tauto|].
    destruct (H "guidance") as [v5 ->]; [simpl; tauto|].
    destruct (H "num_images") as [v6 ->]; [simpl; tauto|].
    destruct (H "seed") as [v7 ->]; [simpl; tauto|].
    destruct (H "safety") as [v8 ->]; [simpl; tauto|].
    simpl. eauto.
Qed.

(** ** More on the polling loop *)

Section PollLoopMore.

Variable client : Wavespeed.

(** The loop only returns a prediction that fails its guard. *)
Lemma poll_loop_returns_terminal (fuel : nat) :
  ∀ p n q, (poll_loop fuel client p n).2 = Return q → loop_guard q = false.
Proof.
  induction fuel as [|fuel IH]; intros p n q; destruct (loop_guard p) eqn:Hg.
  - by rewrite poll_loop_out_of_fuel.
  - rewrite poll_loop_done by done. simpl. congruence.
  - rewrite poll_loop_step by done.
    destruct (async_reload client n p) as [e|p']; [done|].
    specialize (IH p' (S n) q).
    by destruct (poll_loop fuel client p' (S n)) as [[t n'] r].
  - rewrite poll_loop_done by done. simpl. congruence.
Qed.

Lemma poll_loop_no_report (fuel : nat) :
  ∀ p n, List.filter report_line (poll_loop fuel client p n).1.1 = [].
Proof.
  induction fuel as [|fuel IH]; intros p n; destruct (loop_guard p) eqn:Hg.
  - by rewrite poll_loop_out_of_fuel.
  - by rewrite poll_loop_done.
  - rewrite poll_loop_step by done.
    destruct (async_reload client n p) as [e|p']; [done|].
    specialize (IH p' (S n)).
    by destruct (poll_loop fuel client p' (S n)) as [[t n'] r].
  - by rewrite poll_loop_done.
Qed.

Lemma poll_loop_network_calls (fuel : nat) :
  ∀ p n, List.filter network_call (poll_loop fuel client p n).1.1 =
         reload_events (poll_loop fuel client p n).1.1.
Proof.
  induction fuel as [|fuel IH]; intros p n; destruct (loop_guard p) eqn:Hg.
  - by rewrite poll_loop_out_of_fuel.
  - by rewrite poll_loop_done.
  - rewrite poll_loop_step by done.
    destruct (async_reload client n p) as [e|p']; [done|].
    specialize (IH p' (S n)).
    destruct (poll_loop fuel client p' (S n)) as [[t n'] r].
    unfold reload_events in *. simpl in *. by rewrite IH.
  - by rewrite poll_loop_done.
Qed.

(** A reload that raises ends the loop with that exception. *)
Lemma poll_loop_fails (fuel : nat) :
  ∀ (p : Prediction) (n : nat) (t1 t2 : list event) (k : nat) (q : Prediction)
    (e : exn),
    (poll_loop fuel client p n).1.1 = t1 ++ EReload k q :: t2 →
    async_reload client k q = inl e →
    t2 = [] ∧ (poll_loop fuel client p n).2 = Raise e.
Proof.
  induction fuel as [|fuel IH]; intros p n t1 t2 k q e Ht Hr;
    destruct (loop_guard p) eqn:Hg.
  - rewrite poll_loop_out_of_fuel in Ht by done. by destruct t1.
  - rewrite poll_loop_done in Ht by done. by destruct t1.
  - rewrite poll_loop_step in Ht |- * by done.
    destruct (async_reload client n p) as [e'|p'] eqn:Hrp.
    + simpl in *.
      destruct t1 as [|? [|? [|? t1]]]; simplify_eq/=.
      * split; [done|]. congruence.
      * by destruct t1.
    + specialize (IH p' (S n)).
      destruct (poll_loop fuel client p' (S n)) as [[t n'] r] eqn:Hl. simpl in *.
      destruct t1 as [|? [|? [|? t1]]]; simplify_eq/=.
      * congruence.
      * eauto.
  - rewrite poll_loop_done in Ht by done. by destruct t1.
Qed.

(** X4.  The loop ends exactly when a terminal status first shows up: if
    the prediction reached after [k] successful reloads is the first whose
    status is "completed" or "error", then the loop, granted at least [k]
    iterations, makes exactly [k] waits and [k] reloads and returns that
    prediction. *)
Theorem poll_loop_ends_at_first_terminal (k : nat) :
  ∀ (fuel : nat) (p q : Prediction) (n : nat),
    reloaded client p n k = inr q →
    status q = "completed" ∨ status q = "error" →
    (∀ j qj, j < k → reloaded client p n j = inr qj →
             status qj ≠ "completed" ∧ status qj ≠ "error") →
    k ≤ fuel →
    (poll_loop fuel client p n).2 = Return q ∧
    (poll_loop fuel client p n).1.2 = n + k ∧
    length (reload_events (poll_loop fuel client p n).1.1) = k ∧
    length (List.filter is_sleep (poll_loop fuel client p n).1.1) = k.
Proof.
  induction k as [|k IH]; intros fuel p q n Hk Hq Hbefore Hfuel; simpl in Hk.
  - simplify_eq. rewrite poll_loop_done by (by apply loop_guard_false).
    simpl. split_and!; [done|lia|done|done].
  - destruct fuel as [|fuel]; [lia|].
    assert (Hg : loop_guard p = true).
    { apply loop_guard_spec. apply (Hbefore 0 p); [lia|done]. }
    rewrite poll_loop_step by done.
    destruct (async_reload client n p) as [e|p'] eqn:Hr; [done|].
    destruct (IH fuel p' q (S n) Hk Hq) as (H1 & H2 & H3 & H4); [|lia|].
    { intros j qj Hj Hqj. apply (Hbefore (S j) qj); [lia|]. simpl. by rewrite Hr. }
    destruct (poll_loop fuel client p' (S n)) as [[t n'] r].
    unfold reload_events in *. simpl in *. split_and!; [done|lia|lia|lia].
Qed.

End PollLoopMore.

(** ** More on [create_and_poll_image] *)

Ltac same_answers :=
  repeat match goal with
         | H : ?l = _, H' : ?l = _ |- _ => rewrite H in H'
         end;
  simplify_eq.

(** X5.  [create_and_poll_image] polls only if [args.poll] is true.  With a
    false [poll] it creates the job, prints its id, status URL and initial
    status, and closes the client, without a wait or a reload.  Without a
    [poll] attribute the job is created all the same, and the
    [AttributeError], whose text names [poll], is then handled like any
    failure: logged, reported, and turned into exit status 1. *)
Theorem no_polling_without_poll_flag (fuel : nat) (client : Wavespeed)
    (args : gmap string value) (prompt : value) (input : gmap string value)
    (p : Prediction) :
  args !! "prompt" = Some prompt →
  final_result (input_of args) = Return input →
  async_create client "wavespeed-ai/flux-dev" input = inr p →
  (∀ poll, args !! "poll" = Some poll → truthy poll = false →
     create_and_poll_image fuel client args 0 =
       ([ EPrint (MsgCreating prompt);
          EAsyncCreate "wavespeed-ai/flux-dev" input;
          EPrint (MsgJobCreated (id p));
          EPrint (MsgStatusURL (urls_get p));
          EPrint (MsgInitialStatus (status p));
          EClose ],
        0,
        match close client with Some e => Raise e | None => Return tt end)) ∧
  (args !! "poll" = None →
     create_and_poll_image fuel client args 0 =
       ([ EPrint (MsgCreating prompt);
          EAsyncCreate "wavespeed-ai/flux-dev" input;
          EPrint (MsgJobCreated (id p));
          EPrint (MsgStatusURL (urls_get p));
          EPrint (MsgInitialStatus (status p));
          ELogException (AttributeError "poll");
          EPrint (MsgErrorGenerating (AttributeError "poll"));
          EClose ],
        0,
        match close client with Some e => Raise e | None => SystemExit 1 end)).
Proof.
  intros Hp Hi Hc. split.
  - intros poll Hpoll Ht. apply wp_eq. unfold create_and_poll_image. wp_known.
    all: same_answers; repeat match goal with H : _ = _ |- _ => rewrite H end;
      reflexivity.
  - intros Hpoll. apply wp_eq. unfold create_and_poll_image. wp_known.
    all: same_answers; repeat match goal with H : _ = _ |- _ => rewrite H end;
      reflexivity.
Qed.

Lemma filter_nil_not_in (P : event → bool) (t : list event) (e : event) :
  List.filter P t = [] → P e = true → ¬ In e t.
Proof.
  intros Ht He Hin.
  assert (In e (List.filter P t)) as H by (apply List.filter_In; auto).
  by rewrite Ht in H.
Qed.

Lemma in_image_events (e : event) (outputs : list string) :
  ∀ i, In e (image_events i outputs) → ∃ k u, e = EPrint (MsgImage k u).
Proof.
  induction outputs as [|u rest IH]; intros i Hin; [done|].
  destruct Hin as [<-|Hin]; eauto.
Qed.

(** Whatever [create_and_poll_image] reports at the end is the report on a
    prediction that the loop returned, which fails the guard. *)
Lemma create_and_poll_image_report (fuel : nat) (client : Wavespeed)
    (args : gmap string value) (n : nat) :
  wp (create_and_poll_image fuel client args) n (λ t _ _,
    List.filter report_line t = [] ∨
    ∃ t0 q, t = t0 ++ final_events q ++ [EClose] ∧
            List.filter report_line t0 = [] ∧ loop_guard q = false).
Proof.
  unfold create_and_poll_image. wp_go.
  all: try match goal with
       | H : poll_loop ?f ?c ?p ?n = (?tl, _, ?r) |- _ =>
           let Hn := fresh in
           pose proof (poll_loop_no_report c f p n) as Hn;
           rewrite H in Hn; cbn [fst snd] in Hn;
           let Hx := fresh in
           pose proof (poll_loop_returns_terminal c f p n) as Hx;
           rewrite H in Hx; cbn [fst snd] in Hx
       end.
  all: try match goal with
       | H : poll_loop _ _ ?a _ = (?tl, _, Return ?q)
         |- context [EPrint (MsgCreating ?v) :: _] =>
           match goal with
           | |- context [EAsyncCreate _ ?i] =>
               right; exists (prologue v i a ++ tl), q; split_and!;
               [ cbn [app prologue]; rewrite <- ?app_assoc; reflexivity
               | rewrite List.filter_app; cbn [List.filter report_line app prologue];
                 assumption
               | eauto ]
           end
       end.
  all: left; rewrite ?List.filter_app; cbn [List.filter report_line app];
    rewrite ?List.filter_app;
    repeat match goal with H : List.filter report_line _ = [] |- _ => rewrite H end;
    reflexivity.
Qed.

(** X6.  The final report of [create_and_poll_image] agrees with the
    status it prints: a "Final status" line only ever shows "completed" or
    "error"; the success line appears only with final status "completed",
    the error line only with final status "error", and never both. *)
Theorem final_report_matches_status (fuel : nat) (client : Wavespeed)
    (args : gmap string value) :
  let t := trace (create_and_poll_image fuel client args) in
  (∀ st, In (EPrint (MsgFinalStatus st)) t → st = "completed" ∨ st = "error") ∧
  (In (EPrint MsgPollSuccess) t →
     In (EPrint (MsgFinalStatus "completed")) t ∧
     ∀ err, ¬ In (EPrint (MsgError err)) t) ∧
  (∀ err, In (EPrint (MsgError err)) t → In (EPrint (MsgFinalStatus "error")) t).
Proof.
  intros t. subst t. unfold trace.
  pose proof (create_and_poll_image_report fuel client args 0) as Hshape.
  unfold wp in Hshape.
  destruct (create_and_poll_image fuel client args 0) as [[t n'] r].
  cbn [fst snd] in *.
  destruct Hshape as [Hnone|(t0 & q & -> & H0 & Hq)].
  { split_and!; intros; exfalso;
      match goal with
      | H : In ?e t |- _ => by apply (filter_nil_not_in report_line t e Hnone)
      end. }
  assert (Hin : ∀ e, report_line e = true →
            In e (t0 ++ final_events q ++ [EClose]) → In e (final_events q)).
  { intros e He Hin. apply in_app_or in Hin as [Hin|Hin].
    - by destruct (filter_nil_not_in report_line t0 e H0 He).
    - apply in_app_or in Hin as [Hin|[<-|[]]]; [done|discriminate]. }
  assert (Hfin : ∀ e, In e (final_events q) →
            In e (t0 ++ final_events q ++ [EClose])).
  { intros e He. apply in_or_app. right. apply in_or_app. by left. }
  apply loop_guard_false in Hq.
  destruct Hq as [Hq|Hq].
  - split_and!.
    + intros st Hst. apply Hin in Hst; [|done].
      unfold final_events in Hst. rewrite Hq in Hst. simpl in Hst.
      destruct Hst as [Hst|[Hst|Hst]]; [left; congruence|done|].
      destruct (outputs q); [done|]. destruct Hst as [Hst|Hst]; [done|].
      by apply in_image_events in Hst as (k & u & ?).
    + intros _. split.
      { apply Hfin. unfold final_events. rewrite Hq. by left. }
      intros err Herr. apply Hin in Herr; [|done].
      unfold final_events in Herr. rewrite Hq in Herr. simpl in Herr.
      destruct Herr as [Herr|[Herr|Herr]]; [done|done|].
      destruct (outputs q); [done|]. destruct Herr as [Herr|Herr]; [done|].
      by apply in_image_events in Herr as (k & u & ?).
    + intros err Herr. apply Hin in Herr; [|done].
      unfold final_events in Herr. rewrite Hq in Herr. simpl in Herr.
      destruct Herr as [Herr|[Herr|Herr]]; [done|done|].
      destruct (outputs q); [done|]. destruct Herr as [Herr|Herr]; [done|].
      by apply in_image_events in Herr as (k & u & ?).
  - split_and!.
    + intros st Hst. apply Hin in Hst; [|done].
      unfold final_events in Hst. rewrite Hq in Hst. simpl in Hst.
      destruct Hst as [Hst|[Hst|[]]]; [right; congruence|done].
    + intros Hs. apply Hin in Hs; [|done].
      unfold final_events in Hs. rewrite Hq in Hs. simpl in Hs.
      by destruct Hs as [Hs|[Hs|[]]].
    + intros err _. apply Hfin. unfold final_events. rewrite Hq. by left.
Qed.

(** X7.  A reload that raises is not retried: it is the last request of
    [create_and_poll_image].  After it an [Exception] is logged and reported
    and the function leaves through [sys.exit(1)]; any other exception
    propagates; either way only the closing of the client follows. *)
Theorem reload_failure_ends_polling (fuel : nat) (client : Wavespeed)
    (args : gmap string value) (t1 t2 : list event) (n : nat) (p : Prediction)
    (e : exn) :
  trace (create_and_poll_image fuel client args) = t1 ++ EReload n p :: t2 →
  async_reload client n p = inl e →
  t2 = (if is_Exception e
        then [ELogException e; EPrint (MsgErrorGenerating e); EClose]
        else [EClose]) ∧
  final_result (create_and_poll_image fuel client args) =
    match close client with
    | Some e' => Raise e'
    | None => if is_Exception e then SystemExit 1 else Raise e
    end.
Proof.
  unfold trace, final_result.
  pose proof (create_and_poll_image_cases fuel client args 0) as Hc.
  unfold wp in Hc.
  destruct (create_and_poll_image fuel client args 0) as [[t n'] r].
  cbn [fst snd] in *. intros -> Hr.
  destruct Hc as [[Hq _]|(prompt & input & p0 & tl & rl & _ & _ & Hl & Ht & ->)].
  - rewrite polls_app in Hq. simpl in Hq. by destruct (polls t1).
  - symmetry in Ht.
    apply (split_middle noisy) in Ht as (a & b & -> & -> & ->);
      [|apply polls_prologue|apply polls_epilogue|done].
    pose proof (poll_loop_fails client fuel p0 0 a b n p e) as Hf.
    rewrite Hl in Hf. cbn [fst snd] in Hf.
    destruct (Hf eq_refl Hr) as [-> ->].
    unfold epilogue, closing. by destruct (is_Exception e), (close client).
Qed.

(** ** The requests of a run *)

Lemma no_request_image_events (outputs : list string) :
  ∀ i, List.filter network_call (image_events i outputs) = [].
Proof. induction outputs as [|u rest IH]; intros i; [done|]. simpl. apply IH. Qed.

Lemma no_request_final_events (p : Prediction) :
  List.filter network_call (final_events p) = [].
Proof.
  unfold final_events. cbn.
  destruct (String.eqb (status p) "completed"); [|done]. cbn.
  destruct (outputs p) as [|u rest]; [done|]. cbn. apply no_request_image_events.
Qed.

Lemma no_request_report_events (p : Prediction) :
  List.filter network_call (report_events p) = [].
Proof.
  unfold report_events. cbn.
  destruct (outputs p) as [|u rest]; [done|]. cbn. apply no_request_image_events.
Qed.

Lemma reload_events_final_events (p : Prediction) :
  List.filter is_reload (final_events p) = [].
Proof. apply polls_nil_reload_events, polls_final_events. Qed.

Ltac input_built :=
  unfold final_result, input_of, mbind, M_bind, bind, getattr;
  repeat match goal with H : _ !! _ = _ |- _ => rewrite H; clear H end;
  reflexivity.

Ltac count_requests :=
  unfold reload_events;
  rewrite ?List.filter_app; cbn [List.filter network_call is_reload app];
  rewrite ?List.filter_app, ?no_request_report_events, ?no_request_final_events,
    ?reload_events_final_events;
  cbn [List.filter network_call is_reload app];
  repeat match goal with
         | H : List.filter network_call _ = _ |- _ => rewrite H
         end;
  rewrite ?app_nil_r; reflexivity.

Ltac requests :=
  lazymatch goal with
  | |- context [ERun _ ?i] => right; exists i; split; [input_built|count_requests]
  | |- context [EAsyncRun _ ?i] => right; exists i; split; [input_built|count_requests]
  | |- context [EAsyncCreate _ ?i] => right; exists i; split; [input_built|count_requests]
  | |- _ => left; count_requests
  end.

Ltac wp_all := repeat first [apply wp_report | wp_step].

Lemma generate_image_requests (client : Wavespeed) (args : gmap string value)
    (n : nat) :
  wp (generate_image_py.generate_image client args) n (λ t _ _,
    List.filter network_call t = [] ∨
    ∃ input, final_result (input_of args) = Return input ∧
             List.filter network_call t = [ERun "wavespeed-ai/flux-dev" input]).
Proof.
  unfold generate_image_py.generate_image. wp_all. all: requests.
Qed.

Lemma async_generate_image_requests (client : Wavespeed)
    (args : gmap string value) (n : nat) :
  wp (async_generate_image_py.generate_image client args) n (λ t _ _,
    List.filter network_call t = [] ∨
    ∃ input, final_result (input_of args) = Return input ∧
             List.filter network_call t = [EAsyncRun "wavespeed-ai/flux-dev" input]).
Proof.
  unfold async_generate_image_py.generate_image. wp_all. all: requests.
Qed.

Lemma create_and_poll_image_requests (fuel : nat) (client : Wavespeed)
    (args : gmap string value) (n : nat) :
  wp (create_and_poll_image fuel client args) n (λ t _ _,
    List.filter network_call t = [] ∨
    ∃ input, final_result (input_of args) = Return input ∧
             List.filter network_call t =
               EAsyncCreate "wavespeed-ai/flux-dev" input :: reload_events t).
Proof.
  unfold create_and_poll_image. wp_all.
  all: try match goal with
       | H : poll_loop ?f ?c ?p ?n = (?tl, _, ?r) |- _ =>
           let Hn := fresh in
           pose proof (poll_loop_network_calls c f p n) as Hn;
           rewrite H in Hn; cbn [fst snd] in Hn; unfold reload_events in Hn
       end.
  all: requests.
Qed.

(** X8.  The requests of a run come in a fixed pattern.  [generate_image]
    sends at most one request, the [run] (or [async_run]) with the
    dictionary built from [args], and never reloads.  The requests of
    [create_and_poll_image] are one [async_create] with that dictionary
    followed by the reloads of its loop, or none at all. *)
Theorem requests_of_a_run (client : Wavespeed) (args : gmap string value) :
  (List.filter network_call (trace (generate_image_py.generate_image client args)) = [] ∨
   ∃ input, final_result (input_of args) = Return input ∧
     List.filter network_call (trace (generate_image_py.generate_image client args)) =
       [ERun "wavespeed-ai/flux-dev" input]) ∧
  (List.filter network_call
     (trace (async_generate_image_py.generate_image client args)) = [] ∨
   ∃ input, final_result (input_of args) = Return input ∧
     List.filter network_call
       (trace (async_generate_image_py.generate_image client args)) =
       [EAsyncRun "wavespeed-ai/flux-dev" input]) ∧
  (∀ fuel,
     List.filter network_call (trace (create_and_poll_image fuel client args)) = [] ∨
     ∃ input, final_result (input_of args) = Return input ∧
       List.filter network_call (trace (create_and_poll_image fuel client args)) =
         EAsyncCreate "wavespeed-ai/flux-dev" input ::
         reload_events (trace (create_and_poll_image fuel client args))).
Proof.
  split_and!.
  - apply (generate_image_requests client args 0).
  - apply (async_generate_image_requests client args 0).
  - intros fuel. apply (create_and_poll_image_requests fuel client args 0).
Qed.

(** ** More on the command lines *)

(** When no argument string names an option that stores under [k], the
    parsed arguments hold the default under [k], also when that default is
    a string which its [type] leaves as it is. *)
Lemma dest_default_kept (parser : list Argparse.Action) (k : string) (v : value)
    (arg_strings : list string) (args : gmap string value) :
  Argparse.default_namespace parser !! k = Some v →
  (∀ a, In a parser → Argparse.dest a = Some k →
        (∀ c, ¬ In (String "-" (String c "")) (Argparse.option_strings a)) ∧
        (∀ type s w, Argparse.kind a = Argparse.Store type →
                     Argparse.default a = Some (VStr s) → type s = Some w → w = v)) →
  Forall (λ s, names_dest parser k s = false) arg_strings →
  Argparse.parse_args parser arg_strings = Argparse.Parsed args →
  args !! k = Some v.
Proof.
  intros H0 Hk Hargs.
  apply (parse_args_keeps parser (λ ns, ns !! k = Some v)
           (λ a, In a parser ∧ Argparse.dest a ≠ Some k)); [done|..].
  - intros a [_ Ha]. by apply keeps_other.
  - intros c a Ha. apply assoc_parser in Ha as [Hin Hc]. split; [done|].
    intros Hd. by destruct (Hk a Hin Hd) as [Hshort _], (Hshort c).
  - intros a Ha type s d w ns Hkind Hdef Hd Hw HI.
    destruct (decide (d = k)) as [->|Hne].
    + destruct (Hk a Ha Hd) as [_ Hstr].
      rewrite (Hstr type s w Hkind Hdef Hw). by rewrite lookup_insert_eq.
    + by rewrite lookup_insert_ne.
  - eapply Forall_impl; [exact Hargs|]. intros s Hs a o e Hp.
    split; [by apply parse_optional_In in Hp|].
    unfold names_dest in Hs. rewrite Hp in Hs.
    by apply bool_decide_eq_false in Hs.
Qed.

Section ScriptsMore.

Import Argparse.

Variable py_int : string → option Z.
Variable py_float : string → option float.
Variable environ : gmap string string.
Variable Wavespeed_new : value → Wavespeed.

Ltac each_script_action H :=
  unfold generate_image_parser, async_generate_image_parser, async_create_parser,
    add_argument, ArgumentParser, dest_of in H;
  simpl in H;
  repeat (destruct H as [<-|H]; [simpl|]); [..|done].

(** The key of the environment reaches the parsed arguments when the
    command line gives none. *)
Lemma environment_key_parsed (parser : list Action) (key : string)
    (argv : list string) (args : gmap string value) :
  parser = generate_image_parser py_int py_float environ ∨
  parser = async_generate_image_parser py_int py_float environ ∨
  parser = async_create_parser py_int py_float environ →
  environ !! "WAVESPEED_API_KEY" = Some key →
  Forall (λ s, names_dest parser "api_key" s = false) argv →
  parse_args parser argv = Parsed args →
  args !! "api_key" = Some (VStr key).
Proof.
  intros Hparser Henv.
  apply dest_default_kept.
  - destruct Hparser as [-> | [-> | ->]];
      unfold generate_image_parser, async_generate_image_parser,
        async_create_parser, environ_get; rewrite Henv; reflexivity.
  - intros a Ha.
    destruct Hparser as [-> | [-> | ->]]; each_script_action Ha; try congruence;
      intros _; (split; [intros c [Hc|[]]; discriminate|]);
      intros type s w Hk Hd Hw; unfold environ_get in Hd; rewrite Henv in Hd;
      unfold type_str in Hk; simplify_eq; done.
Qed.

(** X9.  Without an [--api-key] argument the key is taken from the
    environment variable WAVESPEED_API_KEY: when the command line parses,
    the script makes its client with exactly that key and hands over to the
    job.  An empty value counts as no key: the script prints that the API
    key is required and exits with status 1. *)
Theorem api_key_from_environment (fuel : nat) (key : string)
    (argv : list string) (args : gmap string value) :
  environ !! "WAVESPEED_API_KEY" = Some key →
  (Forall (λ s, names_dest (generate_image_parser py_int py_float environ)
                  "api_key" s = false) argv →
   parse_args (generate_image_parser py_int py_float environ) argv = Parsed args →
   generate_image_main py_int py_float Wavespeed_new environ argv 0 =
     if String.eqb key "" then ([EPrint MsgApiKeyRequired], 0, SystemExit 1)
     else let '(t, n, r) := generate_image_py.generate_image
                              (Wavespeed_new (VStr key)) args 0 in
          (ENewClient (VStr key) :: t, n, r)) ∧
  (Forall (λ s, names_dest (async_generate_image_parser py_int py_float environ)
                  "api_key" s = false) argv →
   parse_args (async_generate_image_parser py_int py_float environ) argv = Parsed args →
   async_generate_image_main py_int py_float Wavespeed_new environ argv 0 =
     if String.eqb key "" then ([EPrint MsgApiKeyRequired], 0, SystemExit 1)
     else let '(t, n, r) := async_generate_image_py.generate_image
                              (Wavespeed_new (VStr key)) args 0 in
          (ENewClient (VStr key) :: t, n, r)) ∧
  (Forall (λ s, names_dest (async_create_parser py_int py_float environ)
                  "api_key" s = false) argv →
   parse_args (async_create_parser py_int py_float environ) argv = Parsed args →
   async_create_main py_int py_float Wavespeed_new fuel environ argv 0 =
     if String.eqb key "" then ([EPrint MsgApiKeyRequired], 0, SystemExit 1)
     else let '(t, n, r) := async_create_generate_image_py.create_and_poll_image fuel
                              (Wavespeed_new (VStr key)) args 0 in
          (ENewClient (VStr key) :: t, n, r)).
Proof.
  intros Henv. split_and!; intros Hargs Hp.
  - pose proof (environment_key_parsed _ key argv args (or_introl eq_refl)
                  Henv Hargs Hp) as Hk.
    unfold generate_image_main, main_with, mbind, M_bind, bind, getattr, emit.
    rewrite Hp, Hk. simpl.
    destruct (String.eqb key ""); [done|]. simpl.
    by destruct (generate_image_py.generate_image _ args 0) as [[t n] r].
  - pose proof (environment_key_parsed _ key argv args
                  (or_intror (or_introl eq_refl)) Henv Hargs Hp) as Hk.
    unfold async_generate_image_main, main_with, mbind, M_bind, bind, getattr, emit.
    rewrite Hp, Hk. simpl.
    destruct (String.eqb key ""); [done|]. simpl.
    by destruct (async_generate_image_py.generate_image _ args 0) as [[t n] r].
  - pose proof (environment_key_parsed _ key argv args
                  (or_intror (or_intror eq_refl)) Henv Hargs Hp) as Hk.
    unfold async_create_main, main_with, mbind, M_bind, bind, getattr, emit.
    rewrite Hp, Hk. simpl.
    destruct (String.eqb key ""); [done|]. simpl.
    by destruct (create_and_poll_image fuel _ args 0) as [[t n] r].
Qed.


End ScriptsMore.

(** ** Failures and exit statuses *)

(** X10.  When [client.async_create] raises, [create_and_poll_image] prints
    nothing about a job and never polls.  An [Exception] is logged, reported
    and turned into [sys.exit(1)]; any other exception propagates unlogged.
    In both cases the client is closed last, and a failure of [close] is
    what the function ends with. *)
Theorem create_failure_is_reported (fuel : nat) (client : Wavespeed)
    (args : gmap string value) (prompt : value) (input : gmap string value)
    (e : exn) :
  args !! "prompt" = Some prompt →
  final_result (input_of args) = Return input →
  async_create client "wavespeed-ai/flux-dev" input = inl e →
  create_and_poll_image fuel client args 0 =
    (EPrint (MsgCreating prompt) :: EAsyncCreate "wavespeed-ai/flux-dev" input ::
     (if is_Exception e
      then [ELogException e; EPrint (MsgErrorGenerating e); EClose]
      else [EClose]),
     0,
     match close client with
     | Some e' => Raise e'
     | None => if is_Exception e then SystemExit 1 else Raise e
     end).
Proof.
  intros Hp Hi Hc. apply wp_eq. unfold create_and_poll_image. wp_known.
  all: same_answers; repeat match goal with H : _ = _ |- _ => rewrite H end;
    reflexivity.
Qed.

Lemma no_log_image_events (outputs : list string) :
  ∀ i, List.filter is_log (image_events i outputs) = [].
Proof. induction outputs as [|u rest IH]; intros i; [done|]. simpl. apply IH. Qed.

Lemma no_log_final_events (p : Prediction) :
  List.filter is_log (final_events p) = [].
Proof.
  unfold final_events. cbn.
  destruct (String.eqb (status p) "completed"); [|done]. cbn.
  destruct (outputs p) as [|u rest]; [done|]. cbn. apply no_log_image_events.
Qed.

Lemma no_log_report_events (p : Prediction) :
  List.filter is_log (report_events p) = [].
Proof.
  unfold report_events. cbn.
  destruct (outputs p) as [|u rest]; [done|]. cbn. apply no_log_image_events.
Qed.

Lemma no_log_poll_loop (client : Wavespeed) (fuel : nat) :
  ∀ p n, List.filter is_log (poll_loop fuel client p n).1.1 = [].
Proof.
  induction fuel as [|fuel IH]; intros p n; destruct (loop_guard p) eqn:Hg.
  - by rewrite poll_loop_out_of_fuel.
  - by rewrite poll_loop_done.
  - rewrite poll_loop_step by done.
    destruct (async_reload client n p) as [e|p']; [done|].
    specialize (IH p' (S n)).
    by destruct (poll_loop fuel client p' (S n)) as [[t n'] r].
  - by rewrite poll_loop_done.
Qed.

(** How a run ended, read off its trace and result: status 1 goes with a
    logged exception and a client that closed without failure. *)
Ltac logged :=
  rewrite ?List.filter_app; cbn [List.filter is_log app];
  rewrite ?List.filter_app, ?no_log_report_events, ?no_log_final_events;
  cbn [List.filter is_log app];
  repeat match goal with H : List.filter is_log _ = [] |- _ => rewrite H end;
  cbn [List.filter is_log app];
  let Hr := fresh in
  let Hc := fresh in
  let Hl := fresh in
  split;
  [ intros Hr; first [discriminate Hr | split; [assumption|discriminate]]
  | intros [Hc Hl]; first [reflexivity | congruence | by destruct Hl] ].

Lemma generate_image_exit (client : Wavespeed) (args : gmap string value) (n : nat) :
  wp (generate_image_py.generate_image client args) n (λ t _ r,
    r = SystemExit 1 ↔ close client = None ∧ List.filter is_log t ≠ []).
Proof.
  unfold generate_image_py.generate_image. wp_all.
  all: logged.
Qed.

Lemma async_generate_image_exit (client : Wavespeed) (args : gmap string value)
    (n : nat) :
  wp (async_generate_image_py.generate_image client args) n (λ t _ r,
    r = SystemExit 1 ↔ close client = None ∧ List.filter is_log t ≠ []).
Proof.
  unfold async_generate_image_py.generate_image. wp_all.
  all: logged.
Qed.

Ltac loop_facts :=
  try match goal with
      | H : poll_loop ?f ?c ?p ?n = (?tl, _, _) |- _ =>
          let Hn := fresh in
          pose proof (no_log_poll_loop c f p n) as Hn;
          rewrite H in Hn; cbn [fst snd] in Hn;
          let Hx := fresh in
          pose proof (poll_loop_no_exit c f p n) as Hx;
          rewrite H in Hx; cbn [fst snd] in Hx;
          let Hy := fresh in
          pose proof (poll_loop_no_report c f p n) as Hy;
          rewrite H in Hy; cbn [fst snd] in Hy
      end.

Lemma create_and_poll_image_exit (fuel : nat) (client : Wavespeed)
    (args : gmap string value) (n : nat) :
  wp (create_and_poll_image fuel client args) n (λ t _ r,
    r = SystemExit 1 ↔ close client = None ∧ List.filter is_log t ≠ []).
Proof.
  unfold create_and_poll_image. wp_go.
  all: loop_facts.
  all: try match goal with
           | Hx : ∀ c, SystemExit _ ≠ SystemExit c |- _ =>
               exfalso; eapply Hx; reflexivity
           end.
  all: logged.
Qed.

Lemma create_and_poll_image_error_line (fuel : nat) (client : Wavespeed)
    (args : gmap string value) (n : nat) :
  wp (create_and_poll_image fuel client args) n (λ t _ r,
    ∀ err, In (EPrint (MsgError err)) t →
           r = match close client with Some e => Raise e | None => Return tt end).
Proof.
  unfold create_and_poll_image. wp_go.
  all: loop_facts.
  all: intros err Hin.
  all: try match goal with
           | H : close _ = _ |- _ => rewrite H
           end.
  all: try reflexivity.
  all: exfalso; revert Hin; apply (filter_nil_not_in report_line); [|reflexivity].
  all: rewrite ?List.filter_app; cbn [List.filter report_line app];
    rewrite ?List.filter_app;
    repeat match goal with H : List.filter report_line _ = [] |- _ => rewrite H end;
    reflexivity.
Qed.

(** X11.  Each job function leaves through [sys.exit(1)] exactly when an
    exception was logged and the client then closed without failure.  A job
    whose final status is "error" is no such failure:
    [create_and_poll_image] prints its error line and then returns
    normally, unless closing the client raises. *)
Theorem exit_1_iff_exception_logged (client : Wavespeed)
    (args : gmap string value) :
  (final_result (generate_image_py.generate_image client args) = SystemExit 1 ↔
   close client = None ∧
   List.filter is_log (trace (generate_image_py.generate_image client args)) ≠ []) ∧
  (final_result (async_generate_image_py.generate_image client args) = SystemExit 1 ↔
   close client = None ∧
   List.filter is_log
     (trace (async_generate_image_py.generate_image client args)) ≠ []) ∧
  (∀ fuel,
     (final_result (create_and_poll_image fuel client args) = SystemExit 1 ↔
      close client = None ∧
      List.filter is_log (trace (create_and_poll_image fuel client args)) ≠ []) ∧
     (∀ err, In (EPrint (MsgError err))
               (trace (create_and_poll_image fuel client args)) →
             final_result (create_and_poll_image fuel client args) =
               match close client with
               | Some e => Raise e
               | None => Return tt
               end)).
Proof.
  split_and!.
  - apply (generate_image_exit client args 0).
  - apply (async_generate_image_exit client args 0).
  - intros fuel. split; [apply (create_and_poll_image_exit fuel client args 0)|].
    apply (create_and_poll_image_error_line fuel client args 0).
Qed.

(** ** What the job functions read *)

Lemma getattr_agree (args args' : gmap string value) (k : string) :
  args !! k = args' !! k → getattr args k = getattr args' k.
Proof. intros H. unfold getattr. by rewrite H. Qed.

Lemma input_of_agree (args args' : gmap string value) :
  (∀ k, In k input_attributes → args !! k = args' !! k) →
  input_of args = input_of args'.
Proof.
  intros H. unfold input_of.
  rewrite (getattr_agree args args' "prompt"), (getattr_agree args args' "strength"),
    (getattr_agree args args' "size"), (getattr_agree args args' "steps"),
    (getattr_agree args args' "guidance"), (getattr_agree args args' "num_images"),
    (getattr_agree args args' "seed"), (getattr_agree args args' "safety");
    [reflexivity|apply H; simpl; tauto..].
Qed.

(** X12.  The job functions read nothing of [args] but the eight attributes
    of the request dictionary, and [create_and_poll_image] also [poll]: two
    sets of arguments that agree on these give the same run.  So neither
    [api_key] nor the [image] that generate_image.py accepts has any
    influence on what is sent and printed. *)
Theorem job_reads_only_request_attributes (client : Wavespeed)
    (args args' : gmap string value) (n : nat) :
  (∀ k, In k input_attributes → args !! k = args' !! k) →
  generate_image_py.generate_image client args n =
    generate_image_py.generate_image client args' n ∧
  async_generate_image_py.generate_image client args n =
    async_generate_image_py.generate_image client args' n ∧
  (args !! "poll" = args' !! "poll" →
   ∀ fuel, create_and_poll_image fuel client args n =
           create_and_poll_image fuel client args' n).
Proof.
  intros H.
  pose proof (input_of_agree args args' H) as Hi.
  assert (Hp : getattr args "prompt" = getattr args' "prompt")
    by (apply getattr_agree, H; simpl; tauto).
  split_and!.
  - unfold generate_image_py.generate_image. by rewrite Hp, Hi.
  - unfold async_generate_image_py.generate_image. by rewrite Hp, Hi.
  - intros Hpoll fuel. unfold create_and_poll_image.
    by rewrite Hp, Hi, (getattr_agree args args' "poll" Hpoll).
Qed.

(** ** Required options *)

Section ArgparseSeen.

Import Argparse.

Variable parser : list Action.

(** [J] is a property of the parsing state that does not depend on the
    extras and [R] a set of actions that keep it. *)
Variable J : pstate → Prop.
Variable R : Action → Prop.

Hypothesis J_extra : ∀ s st, J st → J (add_extra s st).
Hypothesis R_keeps_state :
  ∀ a st args st', R a → J st → take_action st a args = inl st' → J st'.
Hypothesis R_short_option :
  ∀ c a, assoc (String "-" (String c "")) (option_string_actions parser) = Some a →
         R a.

Lemma take_actions_state (tuples : list (Action * list string)) :
  ∀ st st',
    Forall (λ tup, R tup.1) tuples →
    J st → take_actions st tuples = inl st' → J st'.
Proof.
  induction tuples as [|[a args] rest IH]; intros st st' HR HJ Ht; simpl in *.
  - by simplify_eq.
  - inversion HR as [|? ? Ha Hrest]; subst. simpl in Ha.
    destruct (take_action st a args) as [st1|] eqn:E; [|done].
    eapply IH; [done| |done]. eapply R_keeps_state; eauto.
Qed.

Lemma consume_state_upto (k : nat) :
  ∀ pats st st',
    (length pats ≤ k)%nat →
    Forall (pattern_in R) pats →
    J st → consume parser st pats = inl st' → J st'.
Proof.
  induction k as [|k IH]; intros pats st st' Hk HR HJ Hc;
    (destruct pats as [|pat rest]; simpl in Hc, Hk; [by simplify_eq|]);
    [lia|].
  inversion HR as [|? ? Hpat Hrest]; subst.
  assert (Hrec : ∀ st1 rest', (length rest' ≤ length rest)%nat →
            Forall (pattern_in R) rest' → J st1 →
            consume parser st1 rest' = inl st' → J st').
  { intros st1 rest' Hlen ? ? ?. eapply (IH rest'); eauto. lia. }
  destruct pat as [s| |s c].
  - eapply (Hrec _ rest); [lia|done| |exact Hc]. by apply J_extra.
  - eapply (Hrec _ rest); [lia|done| |exact Hc]. by apply J_extra.
  - destruct c as [|a o e| |];
      try (eapply (Hrec _ rest); [lia|done| |exact Hc]; by apply J_extra).
    simpl in Hpat.
    destruct (consume_optional parser a o e rest) as [[tuples took]|] eqn:Ho;
      [|done].
    destruct (take_actions st tuples) as [st1|] eqn:Ht; [|done].
    assert (J st1) as HJ1.
    { eapply take_actions_state; [|exact HJ|exact Ht].
      eapply (consume_optional_R parser R); eauto. }
    destruct took, rest as [|pat' rest'];
      try (eapply (Hrec st1 _); [|done| |exact Hc]; [simpl; lia|exact HJ1]).
    inversion Hrest; subst.
    eapply (Hrec st1 rest'); [simpl; lia|done| |exact Hc]; exact HJ1.
Qed.

End ArgparseSeen.

Section ArgparseRequired.

Import Argparse.

Variable parser : list Action.

(** The closing loop reports a required action that was not seen. *)
Lemma check_unseen_required (actions : list Action) :
  ∀ st req st' req',
    (req ≠ [] ∨
     ∃ a, In a actions ∧ required a = true ∧ action_name a ∉ seen_actions st) →
    check_unseen actions st req = Some (st', req') → req' ≠ [].
Proof.
  induction actions as [|a rest IH]; intros st req st' req' H Hc; simpl in Hc.
  - simplify_eq. destruct H as [H|(a & [] & _)]. done.
  - case_decide as Hseen.
    { eapply IH; [|exact Hc].
      destruct H as [H|(b & [<-|Hb] & Hreq & Hn)]; [by left|done|].
      right. eauto. }
    destruct (required a) eqn:Hra.
    { eapply IH; [|exact Hc]. left. by destruct req. }
    assert (Hrest : req ≠ [] ∨
              ∃ b, In b rest ∧ required b = true ∧ action_name b ∉ seen_actions st).
    { destruct H as [H|(b & [<-|Hb] & Hreq & Hn)]; [by left|congruence|].
      right. eauto. }
    destruct (kind a) as [type| |]; [|by eapply IH..].
    destruct (default a) as [[| | | |s|]|]; try by eapply IH.
    destruct (dest a) as [d|]; [|by eapply IH].
    destruct (type s) as [v|]; [|done].
    eapply IH; [|exact Hc]. exact Hrest.
Qed.

(** A required action that no argument string can reach makes the parser
    exit. *)
Lemma parse_args_required (R : Action → Prop) (name : string)
    (arg_strings : list string) :
  (∃ a, In a parser ∧ required a = true ∧ action_name a = name) →
  (∀ a, R a → action_name a ≠ name) →
  (∀ c a, assoc (String "-" (String c "")) (option_string_actions parser) = Some a →
          R a) →
  Forall (λ s, ∀ a o e, parse_optional parser s = Optional a o e → R a)
    arg_strings →
  ∃ status, parse_args parser arg_strings = ParserExit status.
Proof.
  intros (a & Ha & Hreq & Hname) HR Hshort Hargs. unfold parse_args.
  destruct (classify parser arg_strings) as [pats|] eqn:Hc; [|eauto].
  destruct (consume parser _ pats) as [st|] eqn:Hcons; [|eauto].
  destruct (check_unseen parser st []) as [[st' req]|] eqn:Hu; [|eauto].
  assert (Hunseen : name ∉ seen_actions st).
  { eapply (consume_state_upto parser (λ st, name ∉ seen_actions st) R);
      [| |exact Hshort|reflexivity| | |exact Hcons].
    - done.
    - intros b st0 args st1 Hb Hn Ht. unfold take_action in Ht.
      assert (Hm : name ∉ seen_actions (mark_seen b st0)).
      { simpl. intros [Heq|Hin]%elem_of_union; [|done].
        apply elem_of_singleton in Heq. specialize (HR b Hb). congruence. }
      destruct (get_values b args); [|done].
      destruct (kind b), (dest b); by simplify_eq.
    - eapply classify_patterns; eauto.
    - simpl. apply not_elem_of_empty. }
  assert (req ≠ []) as Hne.
  { eapply check_unseen_required; [|exact Hu]. right. exists a. by rewrite Hname. }
  destruct req; [done|]. eauto.
Qed.

End ArgparseRequired.

Section ScriptsStartup.

Import Argparse.

Variable py_int : string → option Z.
Variable py_float : string → option float.
Variable environ : gmap string string.
Variable Wavespeed_new : value → Wavespeed.

Ltac script_action H :=
  unfold generate_image_parser, async_generate_image_parser, async_create_parser,
    add_argument, ArgumentParser, dest_of in H;
  simpl in H;
  repeat (destruct H as [<-|H]; [simpl|]); [..|done].

(** The parser of each script exits on a command line that does not name
    the prompt option. *)
Lemma prompt_not_named (parser : list Action) (argv : list string) :
  In parser [ generate_image_parser py_int py_float environ;
              async_generate_image_parser py_int py_float environ;
              async_create_parser py_int py_float environ ] →
  Forall (λ s, names_dest parser "prompt" s = false) argv →
  ∃ status, parse_args parser argv = ParserExit status ∧
            usage_status (existsb (asks_help parser) argv) status.
Proof.
  intros Hparser Hargs.
  destruct (parse_args_required parser
              (λ a, In a parser ∧ dest a ≠ Some "prompt") "--prompt" argv)
    as [status Hs].
  - exists {| option_strings := ["--prompt"]; dest := Some "prompt";
              kind := Store type_str; default := Some VNone; required := true |}.
    split; [|done].
    destruct Hparser as [<-|[<-|[<-|[]]]]; simpl; tauto.
  - intros a [Ha Hd] Hn.
    destruct Hparser as [<-|[<-|[<-|[]]]]; script_action Ha;
      unfold action_name in Hn; simpl in Hn, Hd; congruence.
  - intros c a Ha. apply assoc_parser in Ha as [Hin Hc]. split; [done|].
    intros Hd.
    destruct Hparser as [<-|[<-|[<-|[]]]]; script_action Hin;
      simpl in Hd, Hc; try congruence; by destruct Hc as [Hc|[]].
  - eapply Forall_impl; [exact Hargs|]. intros s Hs a o e Hp.
    split; [by apply parse_optional_In in Hp|].
    unfold names_dest in Hs. rewrite Hp in Hs.
    by apply bool_decide_eq_false in Hs.
  - exists status. split; [done|].
    apply parse_args_usage_status; [|done].
    intros o a. by apply (script_options_long py_int py_float environ).
Qed.

(** X13.  [--prompt] is required: on a command line that does not name the
    prompt option each script ends inside argparse, before it looks for an
    API key, with no client made and nothing sent.  The exit status is 2,
    the status of a usage error; it can be 0 only if the command line asks
    for the help. *)
Theorem prompt_is_required (fuel : nat) (argv : list string) :
  (Forall (λ s, names_dest (generate_image_parser py_int py_float environ)
                  "prompt" s = false) argv →
   ∃ status,
     usage_status
       (existsb (asks_help (generate_image_parser py_int py_float environ)) argv)
       status ∧
     generate_image_main py_int py_float Wavespeed_new environ argv 0 =
       ([], 0, SystemExit status)) ∧
  (Forall (λ s, names_dest (async_generate_image_parser py_int py_float environ)
                  "prompt" s = false) argv →
   ∃ status,
     usage_status
       (existsb (asks_help (async_generate_image_parser py_int py_float environ))
          argv) status ∧
     async_generate_image_main py_int py_float Wavespeed_new environ argv 0 =
       ([], 0, SystemExit status)) ∧
  (Forall (λ s, names_dest (async_create_parser py_int py_float environ)
                  "prompt" s = false) argv →
   ∃ status,
     usage_status
       (existsb (asks_help (async_create_parser py_int py_float environ)) argv)
       status ∧
     async_create_main py_int py_float Wavespeed_new fuel environ argv 0 =
       ([], 0, SystemExit status)).
Proof.
  split_and!; intros Hargs;
    (match type of Hargs with
     | Forall (λ s, names_dest ?p _ _ = _) _ =>
         destruct (prompt_not_named p argv) as (status & Hp & Hs);
         [simpl; tauto|exact Hargs|]
     end);
    exists status; (split; [done|]);
    unfold generate_image_main, async_generate_image_main, async_create_main,
      main_with; by rewrite Hp.
Qed.

(** X14.  An option of the request that the command line does not name
    keeps the default of its [add_argument] line in the parsed arguments:
    strength 0.6, size "1024*1024", steps 28, guidance 5.0, num_images 1,
    seed -1, in each of the three scripts. *)
Theorem unnamed_options_keep_defaults (parser : list Action)
    (argv : list string) (args : gmap string value) (k : string) (v : value) :
  In parser [ generate_image_parser py_int py_float environ;
              async_generate_image_parser py_int py_float environ;
              async_create_parser py_int py_float environ ] →
  In (k, v) option_defaults →
  Forall (λ s, names_dest parser k s = false) argv →
  parse_args parser argv = Parsed args →
  args !! k = Some v.
Proof.
  intros Hparser Hk. apply dest_default_kept.
  - unfold option_defaults in Hk. simpl in Hk.
    destruct Hparser as [<-|[<-|[<-|[]]]];
      repeat (destruct Hk as [Hk|Hk]; [simplify_eq; reflexivity|]); done.
  - intros a Ha Hd. unfold option_defaults in Hk. simpl in Hk.
    destruct Hparser as [<-|[<-|[<-|[]]]]; script_action Ha;
      simpl in Hd;
      repeat (destruct Hk as [Hk|Hk]; [simplify_eq|]); try done;
      (split; [intros c [Hc|[]]; discriminate|]);
      intros type s w Hkind Hdef Hw; simpl in *; unfold type_str in *;
      simplify_eq; done.
Qed.

End ScriptsStartup.

(** ** Concrete runs for the further properties *)

Lemma sample_args_prompt : sample_args !! "prompt" = Some (VStr "cat").
Proof. vm_compute. reflexivity. Qed.

Lemma sample_args_request :
  final_result (input_of sample_args) = Return sample_request.
Proof. vm_compute. reflexivity. Qed.

(** X1 on a service whose [run] times out. *)
Lemma run_failure_is_reported_witness :
  generate_image_py.generate_image (failing_client timeout_error) sample_args 0 =
    ([ EPrint (MsgGenerating (VStr "cat"));
       ERun "wavespeed-ai/flux-dev" sample_request;
       ELogException timeout_error;
       EPrint (MsgErrorGenerating timeout_error);
       EClose ], 0, SystemExit 1).
Proof.
  exact (proj1 (run_failure_is_reported (failing_client timeout_error) sample_args
                  (VStr "cat") sample_request timeout_error
                  sample_args_prompt sample_args_request) eq_refl).
Defined.

(** X2 on the sample service, whose [run] returns one image. *)
Lemma run_success_is_printed_witness :
  generate_image_py.generate_image (sample_client (VStr "k")) sample_args 0 =
    ([ EPrint (MsgGenerating (VStr "cat"));
       ERun "wavespeed-ai/flux-dev" sample_request;
       EPrint MsgSuccess; EPrint MsgResponse;
       EPrint (MsgPrediction
                 (sample_prediction "completed" ["https://img.example/1.png"]));
       EPrint MsgGeneratedURLs;
       EPrint (MsgImage 1 "https://img.example/1.png");
       EClose ], 0, Return tt).
Proof.
  exact (proj1 (run_success_is_printed (sample_client (VStr "k")) sample_args
                  (VStr "cat") sample_request
                  (sample_prediction "completed" ["https://img.example/1.png"])
                  sample_args_prompt sample_args_request) eq_refl).
Defined.

(** X4 on the sample service: the second reload is the first to bring a
    terminal status. *)
Lemma poll_loop_ends_at_first_terminal_witness :
  (poll_loop 5 (sample_client (VStr "k")) (sample_prediction "processing" []) 0).2 =
    Return (sample_prediction "completed" ["https://img.example/1.png"]) ∧
  (poll_loop 5 (sample_client (VStr "k")) (sample_prediction "processing" []) 0).1.2 = 2 ∧
  length (reload_events
            (poll_loop 5 (sample_client (VStr "k"))
               (sample_prediction "processing" []) 0).1.1) = 2 ∧
  length (List.filter is_sleep
            (poll_loop 5 (sample_client (VStr "k"))
               (sample_prediction "processing" []) 0).1.1) = 2.
Proof.
  apply (poll_loop_ends_at_first_terminal (sample_client (VStr "k")) 2 5
           (sample_prediction "processing" [])
           (sample_prediction "completed" ["https://img.example/1.png"]) 0).
  - reflexivity.
  - by left.
  - intros j qj Hj Hq. destruct j as [|[|j]]; [| |lia]; simpl in Hq;
      injection Hq as <-; split; discriminate.
  - lia.
Defined.

(** X5 on arguments whose [poll] is [False]. *)
Lemma no_polling_without_poll_flag_witness :
  create_and_poll_image 5 (sample_client (VStr "k")) quiet_args 0 =
    ([ EPrint (MsgCreating (VStr "cat"));
       EAsyncCreate "wavespeed-ai/flux-dev" sample_request;
       EPrint (MsgJobCreated "job-1");
       EPrint (MsgStatusURL (VStr "https://api.example/predictions/job-1"));
       EPrint (MsgInitialStatus "processing");
       EClose ], 0, Return tt).
Proof.
  refine (proj1 (no_polling_without_poll_flag 5 (sample_client (VStr "k")) quiet_args
                   (VStr "cat") sample_request (sample_prediction "processing" [])
                   _ _ eq_refl) (VBool false) _ eq_refl);
    vm_compute; reflexivity.
Defined.

(** X7 on a service whose reloads time out. *)
Lemma reload_failure_ends_polling_witness :
  skipn 9 (trace (create_and_poll_image 5 (flaky_client timeout_error) sample_args)) =
    [ELogException timeout_error; EPrint (MsgErrorGenerating timeout_error); EClose] ∧
  final_result (create_and_poll_image 5 (flaky_client timeout_error) sample_args) =
    SystemExit 1.
Proof.
  assert (Ht : trace (create_and_poll_image 5 (flaky_client timeout_error) sample_args) =
               firstn 8 (trace (create_and_poll_image 5 (flaky_client timeout_error)
                                  sample_args)) ++
               EReload 0 (sample_prediction "processing" []) ::
               skipn 9 (trace (create_and_poll_image 5 (flaky_client timeout_error)
                                 sample_args)))
    by (vm_compute; reflexivity).
  destruct (reload_failure_ends_polling 5 (flaky_client timeout_error) sample_args
              _ _ 0 (sample_prediction "processing" []) timeout_error Ht eq_refl)
    as [H2 Hr].
  split; [exact H2 | exact Hr].
Defined.

(** The command line [--prompt cat] parses under [key_environ]. *)
Lemma environ_args_parsed :
  Argparse.parse_args (generate_image_parser sample_int sample_float key_environ)
    ["--prompt"; "cat"] = Argparse.Parsed environ_args.
Proof. vm_compute. reflexivity. Qed.

(** X9 on [--prompt cat] with the key "k" in the environment. *)
Lemma api_key_from_environment_witness :
  key_environ !! "WAVESPEED_API_KEY" = Some "k" ∧
  Forall (λ s, names_dest (generate_image_parser sample_int sample_float key_environ)
                 "api_key" s = false) ["--prompt"; "cat"] ∧
  generate_image_main sample_int sample_float sample_client key_environ
    ["--prompt"; "cat"] 0 =
    (let '(t, n, r) := generate_image_py.generate_image (sample_client (VStr "k"))
                         environ_args 0 in
     (ENewClient (VStr "k") :: t, n, r)).
Proof.
  assert (Hargs : Forall (λ s, names_dest (generate_image_parser sample_int
                                sample_float key_environ) "api_key" s = false)
                    ["--prompt"; "cat"])
    by (repeat (constructor; [vm_compute; reflexivity|]); constructor).
  assert (Henv : key_environ !! "WAVESPEED_API_KEY" = Some "k")
    by (vm_compute; reflexivity).
  split; [exact Henv|]. split; [exact Hargs|].
  etrans;
    [exact (proj1 (api_key_from_environment sample_int sample_float key_environ
                     sample_client 0 "k" ["--prompt"; "cat"] environ_args Henv)
              Hargs environ_args_parsed)|].
  vm_compute. reflexivity.
Defined.

(** X10 on a service whose every call times out. *)
Lemma create_failure_is_reported_witness :
  create_and_poll_image 5 (failing_client timeout_error) sample_args 0 =
    ([ EPrint (MsgCreating (VStr "cat"));
       EAsyncCreate "wavespeed-ai/flux-dev" sample_request;
       ELogException timeout_error;
       EPrint (MsgErrorGenerating timeout_error);
       EClose ], 0, SystemExit 1).
Proof.
  exact (create_failure_is_reported 5 (failing_client timeout_error) sample_args
           (VStr "cat") sample_request timeout_error
           sample_args_prompt sample_args_request eq_refl).
Defined.

(** [sample_args] and the same with an [image] agree on what the request
    reads. *)
Lemma sample_args_image (k : string) :
  In k input_attributes →
  sample_args !! k =
    (<["image" := VStr "https://img.example/in.png"]> sample_args) !! k.
Proof.
  intros Hk. unfold input_attributes in Hk. simpl in Hk.
  repeat (destruct Hk as [<-|Hk]; [vm_compute; reflexivity|]). destruct Hk.
Qed.

(** X12 on [sample_args] with and without an [image]. *)
Lemma job_reads_only_request_attributes_witness :
  generate_image_py.generate_image (sample_client (VStr "k")) sample_args 0 =
    generate_image_py.generate_image (sample_client (VStr "k"))
      (<["image" := VStr "https://img.example/in.png"]> sample_args) 0.
Proof.
  exact (proj1 (job_reads_only_request_attributes (sample_client (VStr "k"))
                  sample_args
                  (<["image" := VStr "https://img.example/in.png"]> sample_args) 0
                  sample_args_image)).
Defined.

(** A usage status without a request for the help is 2. *)
Lemma usage_status_no_help (status : Z) : usage_status false status → status = 2%Z.
Proof. by intros [->|[_ ?]]. Qed.

(** X13 on a command line that sets only the size: the status is 2. *)
Lemma prompt_is_required_witness :
  generate_image_main sample_int sample_float sample_client key_environ
    ["--size"; "512*512"] 0 = ([], 0, SystemExit 2).
Proof.
  assert (Hargs : Forall (λ s, names_dest (generate_image_parser sample_int
                                sample_float key_environ) "prompt" s = false)
                    ["--size"; "512*512"])
    by (repeat (constructor; [vm_compute; reflexivity|]); constructor).
  assert (Hhelp : existsb (asks_help (generate_image_parser sample_int sample_float
                                        key_environ)) ["--size"; "512*512"] = false)
    by (vm_compute; reflexivity).
  destruct (proj1 (prompt_is_required sample_int sample_float key_environ sample_client 0
                     ["--size"; "512*512"]) Hargs) as (status & Hs & Hm).
  rewrite Hhelp in Hs. apply usage_status_no_help in Hs. by rewrite <- Hs.
Defined.

(** X14 on [--prompt cat]: the steps are the default 28. *)
Lemma unnamed_options_keep_defaults_witness :
  environ_args !! "steps" = Some (VInt 28).
Proof.
  assert (Hargs : Forall (λ s, names_dest (generate_image_parser sample_int
                                sample_float key_environ) "steps" s = false)
                    ["--prompt"; "cat"])
    by (repeat (constructor; [vm_compute; reflexivity|]); constructor).
  exact (unnamed_options_keep_defaults sample_int sample_float key_environ
           (generate_image_parser sample_int sample_float key_environ)
           ["--prompt"; "cat"] environ_args "steps" (VInt 28)
           (or_introl eq_refl) (or_intror (or_intror (or_introl eq_refl)))
           Hargs environ_args_parsed).
Defined.
